(** * tagfs user-space library (src/user/tagfs_lib.c): log, allocator, replay

    A shallow embedding of the log writer, the bitmap allocator, the log
    replayer and the file / directory creation helpers of [tagfs_lib.c],
    with the properties the specification states about them.

    Conventions.
    - C integers are [Z]; [u64], [to_int] and [to_s64] spell out the
      conversions the C code performs implicitly.
    - A pointer that the code tests against NULL is an [option].
    - A computation that leaves the C abstract machine (a failed [assert],
      an access outside an array) is [None] in the [option] that wraps a
      result; a normal return, successful or not, is [Some].
    - Constants that live in headers outside this file ([tagfs_meta.h],
      [tagfs.h], [bitmap.h]) are section variables. *)

From Stdlib Require Import ZArith Lia Bool Ascii.
From stdpp Require Import base option list gmap strings.

Local Open Scope Z_scope.

(** ** Machine integers *)

Module Int.

Definition u64_mod : Z := 2 ^ 64.

(** Arithmetic on [u64] / [size_t] wraps modulo 2^64. *)
Definition u64 (x : Z) : Z := x mod u64_mod.

(** Conversion to [int] (32 bits, two's complement, as gcc does it). *)
Definition to_int (x : Z) : Z := (x + 2 ^ 31) mod 2 ^ 32 - 2 ^ 31.

(** Conversion to [s64]. *)
Definition to_s64 (x : Z) : Z := (x + 2 ^ 63) mod 2 ^ 64 - 2 ^ 63.

Definition INT_MAX : Z := 2 ^ 31 - 1.

Definition is_u64 (x : Z) : Prop := 0 <= x < u64_mod.

Lemma u64_small x : is_u64 x -> u64 x = x.
Proof. intros H. apply Z.mod_small. exact H. Qed.

Lemma u64_range x : is_u64 (u64 x).
Proof. apply Z.mod_pos_bound. reflexivity. Qed.

Lemma to_int_small x : - 2 ^ 31 <= x < 2 ^ 31 -> to_int x = x.
Proof. intros H. unfold to_int. rewrite Z.mod_small; lia. Qed.

Lemma to_s64_small x : - 2 ^ 63 <= x < 2 ^ 63 -> to_s64 x = x.
Proof. intros H. unfold to_s64. rewrite Z.mod_small; lia. Qed.

Lemma u64_add_l x y : u64 (u64 x + y) = u64 (x + y).
Proof. unfold u64. apply Zplus_mod_idemp_l. Qed.

End Int.

Import Int.

(** ** errno values (Linux, asm-generic/errno-base.h) *)

Definition E2BIG  : Z := 7.
Definition EBADF  : Z := 9.
Definition ENOMEM : Z := 12.
Definition EINVAL : Z := 22.

(** [linux/limits.h] *)
Definition PATH_MAX : Z := 4096.

(** ** On-media data (tagfs_meta.h) *)

Record tagfs_simple_extent := mk_simple_extent {
  tagfs_extent_offset : Z;
  tagfs_extent_len    : Z;
}.

Inductive tagfs_log_ext_type := TAGFS_EXT_SIMPLE | TAGFS_EXT_NONE.

Record tagfs_log_extent := mk_log_extent {
  tagfs_extent_type : tagfs_log_ext_type;
  se                : tagfs_simple_extent;
}.

Record tagfs_file_creation := mk_file_creation {
  tagfs_fc_size  : Z;
  tagfs_nextents : Z;
  tagfs_fc_flags : Z;
  tagfs_relpath  : string;
  fc_mode        : Z;
  fc_uid         : Z;
  fc_gid         : Z;
  tagfs_ext_list : list tagfs_log_extent;
}.

Record tagfs_mkdir := mk_mkdir {
  md_relpath : string;
  md_mode    : Z;
  md_uid     : Z;
  md_gid     : Z;
}.

(** The discriminated union of a log entry: the entry type together with the
    member of the union it selects.  [TAGFS_LOG_INVALID] stands for every
    value of the discriminator the [switch] statements send to [default]. *)
Inductive tagfs_log_payload :=
| TAGFS_LOG_FILE (tagfs_fc : tagfs_file_creation)
| TAGFS_LOG_MKDIR (tagfs_md : tagfs_mkdir)
| TAGFS_LOG_ACCESS
| TAGFS_LOG_INVALID.

Record tagfs_log_entry := mk_log_entry {
  tagfs_log_entry_seqnum : Z;
  tagfs_log_entry_body   : tagfs_log_payload;
}.

Record tagfs_log := mk_log {
  tagfs_log_magic       : Z;
  tagfs_log_next_seqnum : Z;
  tagfs_log_next_index  : Z;
  tagfs_log_last_index  : Z;
  entries               : list tagfs_log_entry;
}.

Definition set_seqnum (e : tagfs_log_entry) (s : Z) : tagfs_log_entry :=
  {| tagfs_log_entry_seqnum := s;
     tagfs_log_entry_body := tagfs_log_entry_body e |}.

(** ** Log writer *)

Section LogWriter.

(** [TAGFS_LOG_MAGIC] is defined in tagfs_meta.h. *)
Variable TAGFS_LOG_MAGIC : Z.

(** [tagfs_log_full] *)
Definition tagfs_log_full (logp : tagfs_log) : bool :=
  bool_decide (tagfs_log_next_index logp > tagfs_log_last_index logp).

(** [tagfs_append_log]: the return code and the log as the call leaves it.
    The entry is copied to [entries[next_index]] after its sequence number
    has been stamped. *)
Definition tagfs_append_log (logp : option tagfs_log) (e : option tagfs_log_entry)
  : Z * option tagfs_log :=
  match logp, e with
  | Some l, Some le =>
      if bool_decide (tagfs_log_magic l <> TAGFS_LOG_MAGIC) then (- EINVAL, logp)
      else if bool_decide (tagfs_log_next_index l >= tagfs_log_last_index l)
      then (- E2BIG, logp)
      else
        let le' := set_seqnum le (tagfs_log_next_seqnum l) in
        (0, Some {| tagfs_log_magic := tagfs_log_magic l;
                    tagfs_log_next_seqnum := u64 (tagfs_log_next_seqnum l + 1);
                    tagfs_log_next_index := u64 (tagfs_log_next_index l + 1);
                    tagfs_log_last_index := tagfs_log_last_index l;
                    entries := <[Z.to_nat (tagfs_log_next_index l) := le']> (entries l) |})
  | _, _ => (- EINVAL, logp)
  end.

(** A run of appends on one log: the return codes in call order and the log
    after the last call. *)
Fixpoint append_all (l : tagfs_log) (es : list tagfs_log_entry) : list Z * tagfs_log :=
  match es with
  | [] => ([], l)
  | e :: es' =>
      match tagfs_append_log (Some l) (Some e) with
      | (rc, Some l') => let '(rcs, lf) := append_all l' es' in (rc :: rcs, lf)
      | (rc, None) => ([rc], l)
      end
  end.

End LogWriter.

(** ** Properties of the log writer *)

Section LogWriterFacts.

Variable TAGFS_LOG_MAGIC : Z.

Local Abbreviation append := (tagfs_append_log TAGFS_LOG_MAGIC).

(** The exact success condition of [tagfs_append_log] on non-NULL
    arguments. *)
Lemma tagfs_append_log_ok_iff l e :
  (append (Some l) (Some e)).1 = 0 <->
  tagfs_log_magic l = TAGFS_LOG_MAGIC /\
  tagfs_log_next_index l < tagfs_log_last_index l.
Proof.
  unfold tagfs_append_log, EINVAL, E2BIG.
  repeat case_bool_decide; simpl; split; intros; try lia; try tauto.
Qed.

Lemma tagfs_append_log_ok_eq l e :
  tagfs_log_magic l = TAGFS_LOG_MAGIC ->
  tagfs_log_next_index l < tagfs_log_last_index l ->
  append (Some l) (Some e) =
  (0, Some {| tagfs_log_magic := tagfs_log_magic l;
              tagfs_log_next_seqnum := u64 (tagfs_log_next_seqnum l + 1);
              tagfs_log_next_index := u64 (tagfs_log_next_index l + 1);
              tagfs_log_last_index := tagfs_log_last_index l;
              entries := <[Z.to_nat (tagfs_log_next_index l) :=
                             set_seqnum e (tagfs_log_next_seqnum l)]> (entries l) |}).
Proof.
  intros Hm Hlt. unfold tagfs_append_log.
  rewrite bool_decide_false by (intros Hne; by apply Hne).
  rewrite bool_decide_false by lia. done.
Qed.

Lemma tagfs_append_log_full_eq l e :
  tagfs_log_magic l = TAGFS_LOG_MAGIC ->
  tagfs_log_next_index l >= tagfs_log_last_index l ->
  append (Some l) (Some e) = (- E2BIG, Some l).
Proof.
  intros Hm Hge. unfold tagfs_append_log.
  rewrite bool_decide_false by (intros Hne; by apply Hne).
  rewrite bool_decide_true by lia. done.
Qed.

(** A failing append leaves the log as it was. *)
Lemma tagfs_append_log_fail_unchanged l e rc :
  (append l e).1 = rc -> rc <> 0 -> (append l e).2 = l.
Proof.
  unfold tagfs_append_log. destruct l as [l|], e as [e|]; simpl; try done.
  repeat case_bool_decide; simpl; intros; subst; done.
Qed.

(** What a successful append does to the log. *)
Lemma tagfs_append_log_step l e l1 :
  append (Some l) (Some e) = (0, Some l1) ->
  entries l1 = <[Z.to_nat (tagfs_log_next_index l) :=
                   set_seqnum e (tagfs_log_next_seqnum l)]> (entries l) /\
  tagfs_log_next_seqnum l1 = u64 (tagfs_log_next_seqnum l + 1) /\
  tagfs_log_next_index l1 = u64 (tagfs_log_next_index l + 1) /\
  tagfs_log_last_index l1 = tagfs_log_last_index l /\
  tagfs_log_magic l1 = tagfs_log_magic l.
Proof.
  unfold tagfs_append_log, EINVAL, E2BIG.
  intros Happ. repeat case_bool_decide; inversion Happ; subst; simpl; auto.
Qed.

Lemma append_all_invariant es : forall l rcs l',
  0 <= tagfs_log_next_index l ->
  is_u64 (tagfs_log_next_seqnum l) ->
  is_u64 (tagfs_log_last_index l) ->
  (Z.to_nat (tagfs_log_next_index l) + length es <= length (entries l))%nat ->
  append_all TAGFS_LOG_MAGIC l es = (rcs, l') ->
  Forall (fun rc => rc = 0) rcs ->
  tagfs_log_next_index l' = tagfs_log_next_index l + Z.of_nat (length es) /\
  (es <> [] -> tagfs_log_next_index l' <= tagfs_log_last_index l) /\
  tagfs_log_next_seqnum l' = u64 (tagfs_log_next_seqnum l + Z.of_nat (length es)) /\
  (forall i e, es !! i = Some e ->
     entries l' !! (Z.to_nat (tagfs_log_next_index l) + i)%nat
     = Some (set_seqnum e (u64 (tagfs_log_next_seqnum l + Z.of_nat i)))) /\
  (forall j, (j < Z.to_nat (tagfs_log_next_index l))%nat ->
     entries l' !! j = entries l !! j).
Proof.
  induction es as [|e es IH]; intros l rcs l' Hidx Hseq Hlast Hcap Happ Hok.
  - simpl in Happ. inversion Happ; subst. simpl.
    change (Z.of_nat 0) with 0. rewrite !Z.add_0_r, u64_small by done.
    repeat split; try lia; try done.
  - cbn [append_all] in Happ.
    destruct (append (Some l) (Some e)) as [rc [l1|]] eqn:Hstep.
    2:{ unfold tagfs_append_log in Hstep.
        repeat case_bool_decide; inversion Hstep. }
    destruct (append_all TAGFS_LOG_MAGIC l1 es) as [rcs1 lf] eqn:Hrest.
    injection Happ as <- <-.
    apply Forall_cons in Hok as [-> Hok].
    pose proof (proj1 (tagfs_append_log_ok_iff l e)) as Hlt.
    rewrite Hstep in Hlt. destruct (Hlt eq_refl) as [_ Hlt'].
    destruct (tagfs_append_log_step _ _ _ Hstep) as (Hent & Hs1 & Hi1 & Hl1 & _).
    assert (Hi1' : tagfs_log_next_index l1 = tagfs_log_next_index l + 1).
    { rewrite Hi1. apply u64_small. unfold is_u64 in *. lia. }
    simpl in Hcap.
    destruct (IH l1 rcs1 lf) as (Hn & Hle & Hsq & Hnew & Hold); auto.
    + lia.
    + rewrite Hs1. apply u64_range.
    + by rewrite Hl1.
    + rewrite Hent, length_insert, Hi1'. lia.
    + repeat split.
      * rewrite Hn, Hi1'. simpl length. lia.
      * intros _. destruct es as [|e2 es2].
        -- simpl in Hn. lia.
        -- rewrite <- Hl1. by apply Hle.
      * rewrite Hsq, Hs1, u64_add_l. f_equal. simpl length. lia.
      * intros [|i] e' He'; simpl in He'.
        -- inversion He'; subst e'. rewrite Nat.add_0_r, Hold by lia.
           rewrite Hent, list_lookup_insert_eq by lia.
           rewrite Z.add_0_r, u64_small by done. done.
        -- specialize (Hnew i e' He').
           replace (Z.to_nat (tagfs_log_next_index l) + S i)%nat
             with (Z.to_nat (tagfs_log_next_index l1) + i)%nat by lia.
           rewrite Hnew, Hs1, u64_add_l. do 3 f_equal. lia.
      * intros j Hj. rewrite Hold by lia.
        rewrite Hent, list_lookup_insert_ne by lia. done.
Qed.

(** C3.  A successful append stamps the entry with the log's [next_seqnum],
    stores it at [entries[next_index]] and advances both counters by one
    (in [u64] arithmetic); so after [N] successful appends the index has
    advanced by [N], the sequence number by [N], the entries sit at
    consecutive indices carrying consecutive sequence numbers, and from an
    empty log ([next_index = 0], [next_seqnum = 0]) this reads
    [next_index = N], [next_seqnum = N], sequence numbers [0..N-1] in index
    order. *)
Theorem append_log_sequence l es rcs l' :
  0 <= tagfs_log_next_index l ->
  is_u64 (tagfs_log_next_seqnum l) ->
  is_u64 (tagfs_log_last_index l) ->
  (Z.to_nat (tagfs_log_next_index l) + length es <= length (entries l))%nat ->
  append_all TAGFS_LOG_MAGIC l es = (rcs, l') ->
  Forall (fun rc => rc = 0) rcs ->
  let N := Z.of_nat (length es) in
  tagfs_log_next_index l' = tagfs_log_next_index l + N /\
  tagfs_log_next_seqnum l' = u64 (tagfs_log_next_seqnum l + N) /\
  (forall i e, es !! i = Some e ->
     entries l' !! (Z.to_nat (tagfs_log_next_index l) + i)%nat
     = Some (set_seqnum e (u64 (tagfs_log_next_seqnum l + Z.of_nat i)))) /\
  (tagfs_log_next_index l = 0 -> tagfs_log_next_seqnum l = 0 ->
     tagfs_log_next_index l' = N /\
     tagfs_log_next_seqnum l' = N /\
     forall i e, es !! i = Some e ->
       entries l' !! i = Some (set_seqnum e (Z.of_nat i))).
Proof.
  intros Hidx Hseq Hlast Hcap Happ Hok N.
  destruct (append_all_invariant es l rcs l' Hidx Hseq Hlast Hcap Happ Hok)
    as (Hn & Hle & Hsq & Hnew & _).
  split; [exact Hn|]. split; [exact Hsq|]. split; [exact Hnew|].
  intros Hi0 Hs0. rewrite Hi0 in *. rewrite Hs0 in *.
  assert (HN : is_u64 N).
  { subst N. destruct es as [|e0 es0]; [done|].
    specialize (Hle ltac:(done)). unfold is_u64 in *. lia. }
  split; [lia|]. split.
  - rewrite Hsq. apply u64_small. exact HN.
  - intros i e He. specialize (Hnew i e He). simpl in Hnew.
    rewrite Hnew. do 2 f_equal. apply u64_small.
    apply lookup_lt_Some in He. unfold is_u64 in *. lia.
Qed.

(** C1 (the code departs from the specification).  With a valid magic and
    [last_index = 3] the log takes three appends, at indices 0..2; the
    fourth, attempted at [next_index = 3 = last_index], is refused with
    [-E2BIG] although [tagfs_log_full] does not regard that log as full. *)
Theorem append_log_refuses_last_slot (e : tagfs_log_entry) (slots : list tagfs_log_entry) :
  let l0 := mk_log TAGFS_LOG_MAGIC 0 0 3 slots in
  let l3 := mk_log TAGFS_LOG_MAGIC 3 3 3 slots in
  tagfs_log_full l3 = false /\
  append (Some l3) (Some e) = (- E2BIG, Some l3) /\
  (append_all TAGFS_LOG_MAGIC l0 [e; e; e; e; e]).1 = [0; 0; 0; - E2BIG; - E2BIG].
Proof.
  intros l0 l3. subst l0 l3. split; [reflexivity|]. split.
  - by rewrite tagfs_append_log_full_eq.
  - cbn [append_all].
    do 3 (rewrite tagfs_append_log_ok_eq by reflexivity; cbn [append_all]).
    rewrite tagfs_append_log_full_eq by (vm_compute; done).
    by rewrite tagfs_append_log_full_eq by (vm_compute; done).
Qed.

End LogWriterFacts.

(** ** Sample data used to exercise the statements *)

Definition blank_entry : tagfs_log_entry := mk_log_entry 0 TAGFS_LOG_INVALID.

Definition sample_mkdir_entry : tagfs_log_entry :=
  mk_log_entry 0 (TAGFS_LOG_MKDIR (mk_mkdir "d" 493 0 0)).

Definition sample_magic : Z := 3405691582.

Definition sample_empty_log : tagfs_log :=
  mk_log sample_magic 0 0 3 (replicate 4 blank_entry).

Lemma append_log_sequence_witness :
  let es := [sample_mkdir_entry; blank_entry] in
  let l' := (append_all sample_magic sample_empty_log es).2 in
  tagfs_log_next_index l' = 2 /\ tagfs_log_next_seqnum l' = 2 /\
  forall i e, es !! i = Some e -> entries l' !! i = Some (set_seqnum e (Z.of_nat i)).
Proof.
  intros es l'.
  refine (proj2 (proj2 (proj2
    (append_log_sequence sample_magic sample_empty_log es
       (append_all sample_magic sample_empty_log es).1 l' _ _ _ _ _ _))) _ _).
  - vm_compute. discriminate.
  - vm_compute. split; [discriminate | reflexivity].
  - vm_compute. split; [discriminate | reflexivity].
  - vm_compute. lia.
  - reflexivity.
  - vm_compute. repeat constructor.
  - reflexivity.
  - reflexivity.
Defined.

(** ** Bitmap primitives (bitmap.h) *)

(** The allocation bitmap is the byte array [calloc] returns: one [u8] per
    list element, bit [i] of the bitmap being bit [i mod 8] of byte [i / 8]. *)
Abbreviation bitmap := (list Z).

(** Modelled from the spec: [mu_bitmap_size] of bitmap.h, which is not part
    of this file; the number of bytes that hold [num_bits] bits, computed in
    [int] arithmetic. *)
Definition mu_bitmap_size (num_bits : Z) : Z := Z.quot (num_bits + 8 - 1) 8.

(** Modelled from the spec: [mu_bitmap_test] of bitmap.h ("bit test over a
    byte array").  An index outside the array is outside the C abstract
    machine. *)
Definition mu_bitmap_test (b : bitmap) (i : Z) : option bool :=
  if i <? 0 then None
  else byte ← b !! Z.to_nat (i / 8); Some (Z.testbit byte (i mod 8)).

(** Modelled from the spec: [mu_bitmap_set] of bitmap.h ("bit set over a byte
    array"). *)
Definition mu_bitmap_set (b : bitmap) (i : Z) : option bitmap :=
  if i <? 0 then None
  else byte ← b !! Z.to_nat (i / 8);
       Some (<[Z.to_nat (i / 8) := Z.lor byte (Z.shiftl 1 (i mod 8))]> b).

(** Modelled from the spec: [mu_bitmap_test_and_set] of bitmap.h
    ("test-and-set"): sets the bit and returns 1 if it was clear, returns 0
    and leaves the bitmap alone if it was already set.  The caller's comment
    ([rc == 0]: "bit was already set") fixes the polarity. *)
Definition mu_bitmap_test_and_set (b : bitmap) (i : Z) : option (Z * bitmap) :=
  t ← mu_bitmap_test b i;
  if (t : bool) then Some (0, b) else b' ← mu_bitmap_set b i; Some (1, b').

(** Modelled from the spec: [mse_bitmap_test32] and [mse_bitmap_set32] of
    bitmap.h address the same bitmap through 32-bit words; on the
    little-endian hosts tagfs runs on, bit [i] of word [i / 32] is bit
    [i mod 8] of byte [i / 8], so they read and write the same bit as the
    byte-wise primitives. *)
Definition mse_bitmap_test32 (b : bitmap) (i : Z) : option bool := mu_bitmap_test b i.
Definition mse_bitmap_set32 (b : bitmap) (i : Z) : option bitmap := mu_bitmap_set b i.

(** ** Allocator *)

Record bb_state := mk_bb_state {
  bs_bitmap    : bitmap;
  bs_errors    : Z;
  bs_size_sum  : Z;
  bs_alloc_sum : Z;
}.

(** What [tagfs_build_bitmap] hands back: the bitmap and the four values it
    stores through its output pointers. *)
Record build_result := mk_build_result {
  bb_bitmap      : bitmap;
  bb_bitmap_size : Z;
  bb_errors      : Z;
  bb_size_total  : Z;
  bb_alloc_total : Z;
}.

Section Allocator.

(** Layout constants of tagfs_meta.h. *)
Variable TAGFS_ALLOC_UNIT : Z.
Variable TAGFS_SUPERBLOCK_SIZE : Z.
Variable TAGFS_LOG_OFFSET : Z.
Variable TAGFS_LOG_LEN : Z.

(** Modelled from the spec: [round_size_to_alloc_unit], declared outside this
    file; "round the requested size up to the allocation unit", in [u64]
    arithmetic. *)
Definition round_size_to_alloc_unit (size : Z) : Z :=
  u64 (u64 (size + TAGFS_ALLOC_UNIT - 1) / TAGFS_ALLOC_UNIT * TAGFS_ALLOC_UNIT).

(** [for (i = from; ...; i++) mu_bitmap_set(bitmap, i)], [count] times. *)
Fixpoint set_bits (b : bitmap) (i : Z) (count : nat) : option bitmap :=
  match count with
  | O => Some b
  | S c => b' ← mu_bitmap_set b i; set_bits b' (i + 1) c
  end.

(** [put_sb_log_into_bitmap] *)
Definition put_sb_log_into_bitmap (b : bitmap) : option bitmap :=
  b0 ← mu_bitmap_set b 0;
  set_bits b0 1 (Z.to_nat ((TAGFS_LOG_OFFSET + TAGFS_LOG_LEN) / TAGFS_ALLOC_UNIT - 1)).

(** The innermost loop of [tagfs_build_bitmap]:
    [for (k = page_num; k < page_num + np; k++)], [n] iterations from [k]. *)
Fixpoint mark_pages (st : bb_state) (k : Z) (n : nat) : option bb_state :=
  match n with
  | O => Some st
  | S n' =>
      '(rc, b') ← mu_bitmap_test_and_set (bs_bitmap st) k;
      let st' :=
        if rc =? 0
        then mk_bb_state b' (u64 (bs_errors st + 1)) (bs_size_sum st) (bs_alloc_sum st)
        else mk_bb_state b' (bs_errors st) (bs_size_sum st)
                         (u64 (bs_alloc_sum st + TAGFS_ALLOC_UNIT)) in
      mark_pages st' (k + 1) n'
  end.

(** Number of pages of an extent of [len] bytes, as the loop computes it. *)
Definition extent_np (len : Z) : Z :=
  to_s64 (u64 (len + TAGFS_ALLOC_UNIT - 1) / TAGFS_ALLOC_UNIT).

(** The loop over the extents of one FILE entry:
    [for (j = 0; j < fc->tagfs_nextents; j++)], with [ext] the part of the
    extent array that starts at [ext[j]]. *)
Fixpoint mark_extents (st : bb_state) (ext : list tagfs_log_extent) (j nextents : Z)
  : option bb_state :=
  if j <? nextents then
    match ext with
    | [] => None
    | x :: rest =>
        if negb (tagfs_extent_offset (se x) mod TAGFS_ALLOC_UNIT =? 0) then None
        else
          let page_num := to_s64 (tagfs_extent_offset (se x) / TAGFS_ALLOC_UNIT) in
          let np := extent_np (tagfs_extent_len (se x)) in
          st' ← mark_pages st page_num (Z.to_nat np);
          mark_extents st' rest (j + 1) nextents
    end
  else Some st.

(** The loop over the log: [for (i = 0; i < logp->tagfs_log_next_index; i++)],
    with [es] the part of [entries] that starts at [entries[i]]. *)
Fixpoint scan_log (st : bb_state) (es : list tagfs_log_entry) (i next_index : Z)
  : option bb_state :=
  if i <? next_index then
    match es with
    | [] => None
    | le :: rest =>
        st' ← match tagfs_log_entry_body le with
              | TAGFS_LOG_FILE fc =>
                  mark_extents
                    (mk_bb_state (bs_bitmap st) (bs_errors st)
                                 (u64 (bs_size_sum st + tagfs_fc_size fc))
                                 (bs_alloc_sum st))
                    (tagfs_ext_list fc) 0 (tagfs_nextents fc)
              | TAGFS_LOG_MKDIR _ => Some st
              | TAGFS_LOG_ACCESS | TAGFS_LOG_INVALID => Some st
              end;
        scan_log st' rest (i + 1) next_index
    end
  else Some st.

(** [tagfs_build_bitmap].  The inner [option] is the returned pointer (NULL
    when [calloc] is handed a negative size). *)
Definition tagfs_build_bitmap (logp : tagfs_log) (bitmap_size_in : Z)
  : option (option build_result) :=
  let npages :=
    to_int (u64 (bitmap_size_in - TAGFS_SUPERBLOCK_SIZE - TAGFS_LOG_LEN)
            / TAGFS_ALLOC_UNIT) in
  let bitmap_size := to_int (mu_bitmap_size npages) in
  if bitmap_size <? 0 then Some None
  else
    b ← put_sb_log_into_bitmap (replicate (Z.to_nat bitmap_size) 0);
    st ← scan_log (mk_bb_state b 0 0 0) (entries logp) 0 (tagfs_log_next_index logp);
    Some (Some (mk_build_result (bs_bitmap st) bitmap_size (bs_errors st)
                                (bs_size_sum st) (bs_alloc_sum st))).

(** [for (j = i; j < i + alloc_bits; j++) if (mse_bitmap_test32(bitmap, j)) goto next;]
    answers whether a set bit was met. *)
Fixpoint range_busy (b : bitmap) (j : Z) (n : nat) : option bool :=
  match n with
  | O => Some false
  | S n' =>
      t ← mse_bitmap_test32 b j;
      if (t : bool) then Some true else range_busy b (j + 1) n'
  end.

(** [for (j = i; j < i + alloc_bits; j++) mse_bitmap_set32(bitmap, j);] *)
Fixpoint range_set (b : bitmap) (j : Z) (n : nat) : option bitmap :=
  match n with
  | O => Some b
  | S n' => b' ← mse_bitmap_set32 b j; range_set b' (j + 1) n'
  end.

(** The outer loop of [bitmap_alloc_contiguous], [fuel] iterations left when
    the loop variable is [i].  The loop variable is an [int]: the model
    follows the code for [nbits] up to [INT_MAX], beyond which [i++] would
    overflow.  The product [i * TAGFS_ALLOC_UNIT] is returned as a [u64]. *)
Fixpoint alloc_scan (b : bitmap) (nbits alloc_bits : Z) (i : Z) (fuel : nat)
  : option (Z * bitmap) :=
  match fuel with
  | O => Some (0, b)
  | S fuel' =>
      t ← mu_bitmap_test b i;
      if (t : bool) then alloc_scan b nbits alloc_bits (i + 1) fuel'
      else
        let bitmap_remainder := to_int (u64 (nbits - i)) in
        if alloc_bits >? bitmap_remainder then Some (0, b)
        else
          busy ← range_busy b i (Z.to_nat alloc_bits);
          if (busy : bool) then alloc_scan b nbits alloc_bits (i + 1) fuel'
          else
            b' ← range_set b i (Z.to_nat alloc_bits);
            Some (u64 (i * TAGFS_ALLOC_UNIT), b')
  end.

(** [bitmap_alloc_contiguous]: the returned offset and the bitmap as the call
    leaves it. *)
Definition bitmap_alloc_contiguous (b : bitmap) (nbits size : Z) : option (Z * bitmap) :=
  let alloc_bits := to_int (u64 (size + TAGFS_ALLOC_UNIT - 1) / TAGFS_ALLOC_UNIT) in
  alloc_scan b nbits alloc_bits 0 (Z.to_nat nbits).

(** [tagfs_alloc_bypath].  [daxdevsize] is what
    [tagfs_validate_superblock_by_path] returned for the path. *)
Definition tagfs_alloc_bypath (logp : tagfs_log) (daxdevsize : Z) (size : Z) : option Z :=
  if size <=? 0 then Some (-1)
  else if daxdevsize <? 0 then Some daxdevsize
  else
    r ← tagfs_build_bitmap logp daxdevsize;
    br ← r;
    '(offset, _) ← bitmap_alloc_contiguous (bb_bitmap br) (u64 (bb_bitmap_size br)) size;
    Some (to_s64 offset).

End Allocator.

(** ** Properties of the bitmap primitives *)

(** The value of bit [i], read without a bounds check; the statements below
    use it only for indices inside the array. *)
Definition bit_at (b : bitmap) (i : Z) : bool :=
  Z.testbit (default 0 (b !! Z.to_nat (i / 8))) (i mod 8).

Definition in_bitmap (b : bitmap) (i : Z) : Prop :=
  0 <= i < 8 * Z.of_nat (length b).

Lemma in_bitmap_byte b i :
  in_bitmap b i -> (Z.to_nat (i / 8) < length b)%nat.
Proof.
  unfold in_bitmap. intros [H0 H1].
  assert (i / 8 < Z.of_nat (length b)) by (apply Z.div_lt_upper_bound; lia).
  assert (0 <= i / 8) by (apply Z.div_pos; lia). lia.
Qed.

Lemma mu_bitmap_test_in b i :
  in_bitmap b i -> mu_bitmap_test b i = Some (bit_at b i).
Proof.
  intros Hin. pose proof (in_bitmap_byte b i Hin) as Hlt.
  unfold mu_bitmap_test, bit_at. destruct Hin as [H0 _].
  rewrite (proj2 (Z.ltb_ge i 0)) by lia.
  destruct (lookup_lt_is_Some_2 b _ Hlt) as [byte Hb]. rewrite Hb. done.
Qed.

Lemma mu_bitmap_test_Some b i t :
  mu_bitmap_test b i = Some t -> in_bitmap b i /\ t = bit_at b i.
Proof.
  unfold mu_bitmap_test, bit_at, in_bitmap.
  destruct (i <? 0) eqn:Hneg; [done|]. apply Z.ltb_ge in Hneg.
  destruct (b !! Z.to_nat (i / 8)) as [byte|] eqn:Hb; simpl; [|done].
  intros [= <-]. split; [|done].
  apply lookup_lt_Some in Hb.
  assert (0 <= i / 8) by (apply Z.div_pos; lia).
  assert (i / 8 < Z.of_nat (length b)) by lia.
  pose proof (Z.mul_div_le i 8). pose proof (Z.mod_pos_bound i 8).
  pose proof (Z.div_mod i 8). lia.
Qed.

Lemma index_split i j :
  i = j <-> i / 8 = j / 8 /\ i mod 8 = j mod 8.
Proof.
  split; [intros ->; done|]. intros [Hd Hm].
  rewrite (Z.div_mod i 8), (Z.div_mod j 8) by lia. rewrite Hd, Hm. done.
Qed.

Lemma mu_bitmap_set_in b i :
  in_bitmap b i ->
  exists b', mu_bitmap_set b i = Some b' /\ length b' = length b /\
    forall j, 0 <= j -> bit_at b' j = bit_at b j || bool_decide (j = i).
Proof.
  intros Hin. pose proof (in_bitmap_byte b i Hin) as Hlt.
  destruct Hin as [H0 H1].
  destruct (lookup_lt_is_Some_2 b _ Hlt) as [byte Hb].
  unfold mu_bitmap_set. rewrite (proj2 (Z.ltb_ge i 0)) by lia. rewrite Hb. simpl.
  eexists. split; [done|]. split; [apply length_insert|].
  intros j Hj. unfold bit_at.
  assert (0 <= i / 8) by (apply Z.div_pos; lia).
  assert (0 <= j / 8) by (apply Z.div_pos; lia).
  pose proof (Z.mod_pos_bound i 8). pose proof (Z.mod_pos_bound j 8).
  destruct (decide (j / 8 = i / 8)) as [Hd|Hd].
  - rewrite Hd, list_lookup_insert_eq by done. rewrite Hb. simpl.
    rewrite Z.lor_spec, Z.shiftl_1_l, Z.pow2_bits_eqb by lia. f_equal.
    destruct (Z.eqb_spec (i mod 8) (j mod 8)) as [Hm|Hm].
    + rewrite bool_decide_true; [done|]. apply index_split. done.
    + rewrite bool_decide_false; [done|]. intros ->. done.
  - rewrite list_lookup_insert_ne by lia.
    rewrite bool_decide_false; [by rewrite orb_false_r|]. intros ->. done.
Qed.

Lemma mu_bitmap_set_Some b i b' :
  mu_bitmap_set b i = Some b' -> in_bitmap b i.
Proof.
  intros Hs. assert (is_Some (mu_bitmap_test b i)) as [t Ht].
  { unfold mu_bitmap_set, mu_bitmap_test in *.
    destruct (i <? 0); [done|]. destruct (b !! Z.to_nat (i / 8)); [eauto|done]. }
  by apply mu_bitmap_test_Some in Ht as [? _].
Qed.

Lemma mu_bitmap_test_and_set_Some b i rc b' :
  mu_bitmap_test_and_set b i = Some (rc, b') ->
  in_bitmap b i /\ length b' = length b /\
  (rc = 0 /\ bit_at b i = true /\ b' = b \/
   rc = 1 /\ bit_at b i = false /\
     forall j, 0 <= j -> bit_at b' j = bit_at b j || bool_decide (j = i)).
Proof.
  unfold mu_bitmap_test_and_set. intros H.
  destruct (mu_bitmap_test b i) as [t|] eqn:Ht; [|done]. simpl in H.
  apply mu_bitmap_test_Some in Ht as [Hin ->]. split; [done|].
  destruct (bit_at b i) eqn:Hbit.
  - inversion H; subst. split; [done|]. left. done.
  - destruct (mu_bitmap_set_in b i Hin) as (b2 & Hset & Hlen & Hbits).
    rewrite Hset in H. simpl in H. inversion H; subst.
    split; [done|]. right. done.
Qed.

(** ** Accounting of [tagfs_build_bitmap] *)

Definition Zsum (l : list Z) : Z := foldr Z.add 0 l.

(** The extents [tagfs_build_bitmap] visits, in the order of its loops:
    [ext[j .. nextents - 1]] of one entry, [entries[i .. next_index - 1]] of
    the log. *)
Fixpoint entry_extents (ext : list tagfs_log_extent) (j nextents : Z)
  : list tagfs_log_extent :=
  if j <? nextents then
    match ext with
    | [] => []
    | x :: rest => x :: entry_extents rest (j + 1) nextents
    end
  else [].

Fixpoint log_extents (es : list tagfs_log_entry) (i next_index : Z)
  : list tagfs_log_extent :=
  if i <? next_index then
    match es with
    | [] => []
    | le :: rest =>
        match tagfs_log_entry_body le with
        | TAGFS_LOG_FILE fc => entry_extents (tagfs_ext_list fc) 0 (tagfs_nextents fc)
        | _ => []
        end ++ log_extents rest (i + 1) next_index
    end
  else [].

Definition logged_extents (logp : tagfs_log) : list tagfs_log_extent :=
  log_extents (entries logp) 0 (tagfs_log_next_index logp).

Section BuildBitmapFacts.

Variable TAGFS_ALLOC_UNIT : Z.
Variable TAGFS_SUPERBLOCK_SIZE : Z.
Variable TAGFS_LOG_OFFSET : Z.
Variable TAGFS_LOG_LEN : Z.

Local Abbreviation AU := TAGFS_ALLOC_UNIT.
Local Abbreviation round_up := (round_size_to_alloc_unit TAGFS_ALLOC_UNIT).

(** The extent lengths of one FILE entry, each rounded up to the allocation
    unit, summed over the [tagfs_nextents] extents the entry declares. *)
Definition extents_rounded (ext : list tagfs_log_extent) (nextents : Z) : Z :=
  Zsum (map (fun x => round_up (tagfs_extent_len (se x)))
            (take (Z.to_nat nextents) ext)).

Definition entry_rounded (le : tagfs_log_entry) : Z :=
  match tagfs_log_entry_body le with
  | TAGFS_LOG_FILE fc => extents_rounded (tagfs_ext_list fc) (tagfs_nextents fc)
  | _ => 0
  end.

(** The same, summed over the [next_index] entries of the log. *)
Definition log_rounded_total (logp : tagfs_log) : Z :=
  Zsum (map entry_rounded (take (Z.to_nat (tagfs_log_next_index logp)) (entries logp))).

(** Bytes accounted for so far, one allocation unit per page visited: a page
    goes either to the allocation total or to the collision count. *)
Definition accounted (st : bb_state) : Z :=
  u64 (bs_alloc_sum st + AU * bs_errors st).

Lemma u64_add_r x y : u64 (x + u64 y) = u64 (x + y).
Proof. unfold u64. apply Zplus_mod_idemp_r. Qed.

Lemma u64_mul_r x y : u64 (x * u64 y) = u64 (x * y).
Proof. unfold u64. apply Zmult_mod_idemp_r. Qed.

Lemma u64_add_mul_r a x y : u64 (a + x * u64 y) = u64 (a + x * y).
Proof. rewrite <- u64_add_r, u64_mul_r, u64_add_r. done. Qed.

Lemma u64_decomp x : exists k, u64 x = x + k * u64_mod.
Proof.
  exists (- (x / u64_mod)). unfold u64.
  pose proof (Z.div_mod x u64_mod ltac:(done)). lia.
Qed.

Lemma u64_congr x y k : x = y + k * u64_mod -> u64 x = u64 y.
Proof. intros ->. unfold u64. apply Z_mod_plus_full. Qed.

Lemma accounted_collision a e n :
  u64 (u64 (a + AU * u64 (e + 1)) + AU * Z.of_nat n)
  = u64 (u64 (a + AU * e) + AU * Z.of_nat (S n)).
Proof.
  destruct (u64_decomp (e + 1)) as [k1 ->].
  destruct (u64_decomp (a + AU * (e + 1 + k1 * u64_mod))) as [k2 ->].
  destruct (u64_decomp (a + AU * e)) as [k3 ->].
  apply (u64_congr _ _ (AU * k1 + k2 - k3)). lia.
Qed.

Lemma accounted_fresh a e n :
  u64 (u64 (u64 (a + AU) + AU * e) + AU * Z.of_nat n)
  = u64 (u64 (a + AU * e) + AU * Z.of_nat (S n)).
Proof.
  destruct (u64_decomp (a + AU)) as [k1 ->].
  destruct (u64_decomp (a + AU + k1 * u64_mod + AU * e)) as [k2 ->].
  destruct (u64_decomp (a + AU * e)) as [k3 ->].
  apply (u64_congr _ _ (k1 + k2 - k3)). lia.
Qed.

(** One turn of the innermost loop: test-and-set on page [k]. *)
Lemma mark_pages_one st k st' :
  mark_pages AU st k 1 = Some st' ->
  in_bitmap (bs_bitmap st) k /\
  bs_size_sum st' = bs_size_sum st /\
  (bit_at (bs_bitmap st) k = true /\
     bs_bitmap st' = bs_bitmap st /\
     bs_errors st' = u64 (bs_errors st + 1) /\
     bs_alloc_sum st' = bs_alloc_sum st
   \/
   bit_at (bs_bitmap st) k = false /\
     bit_at (bs_bitmap st') k = true /\
     bs_errors st' = bs_errors st /\
     bs_alloc_sum st' = u64 (bs_alloc_sum st + AU)).
Proof.
  simpl. intros H.
  destruct (mu_bitmap_test_and_set (bs_bitmap st) k) as [[rc b']|] eqn:Hts; [|done].
  simpl in H. inversion H; subst st'; clear H.
  apply mu_bitmap_test_and_set_Some in Hts as (Hin & Hlen & Hcase).
  split; [done|].
  destruct Hcase as [(-> & Hb & ->)|(-> & Hb & Hbits)]; simpl.
  - split; [done|]. left. done.
  - split; [done|]. right. repeat split; try done.
    rewrite Hbits by (destruct Hin; lia). rewrite bool_decide_true by done.
    apply orb_true_r.
Qed.

Lemma mark_pages_accounted n : forall st k st',
  mark_pages AU st k n = Some st' ->
  accounted st' = u64 (accounted st + AU * Z.of_nat n) /\
  (is_u64 (bs_alloc_sum st) -> is_u64 (bs_alloc_sum st')) /\
  length (bs_bitmap st') = length (bs_bitmap st).
Proof.
  induction n as [|n IH]; intros st k st' H.
  - simpl in H. inversion H; subst. unfold accounted.
    rewrite Z.mul_0_r, Z.add_0_r. unfold u64. rewrite Z.mod_mod by done. done.
  - cbn [mark_pages] in H.
    destruct (mu_bitmap_test_and_set (bs_bitmap st) k) as [[rc b']|] eqn:Hts; [|done].
    simpl in H. apply IH in H as (Hacc & Hu & Hlen).
    apply mu_bitmap_test_and_set_Some in Hts as (_ & Hlen' & Hcase).
    destruct Hcase as [(-> & _ & ->)|(-> & _ & _)]; simpl in *.
    + split; [|split; [done|done]].
      rewrite Hacc. unfold accounted. simpl. apply accounted_collision.
    + split; [|split; [intros _; apply Hu, u64_range | congruence]].
      rewrite Hacc. unfold accounted. simpl. apply accounted_fresh.
Qed.

Hypothesis AU_ge_2 : 2 <= AU.

Lemma extent_np_round len :
  u64 (AU * Z.of_nat (Z.to_nat (extent_np AU len))) = round_up len.
Proof.
  unfold extent_np, round_size_to_alloc_unit.
  set (q := u64 (len + AU - 1) / AU).
  assert (0 <= q < 2 ^ 63) as Hq.
  { subst q. pose proof (u64_range (len + AU - 1)) as [H0 H1].
    split; [apply Z.div_pos; lia|].
    apply Z.div_lt_upper_bound; [lia|]. unfold u64_mod in H1. lia. }
  rewrite to_s64_small by lia. rewrite Z2Nat.id by lia. f_equal. lia.
Qed.

Lemma mark_extents_accounted ext : forall st j nextents st',
  mark_extents AU st ext j nextents = Some st' ->
  accounted st' = u64 (accounted st + extents_rounded ext (nextents - j)) /\
  (is_u64 (bs_alloc_sum st) -> is_u64 (bs_alloc_sum st')) /\
  bs_size_sum st' = bs_size_sum st.
Proof.
  induction ext as [|x rest IH]; intros st j nextents st' H.
  - simpl in H. destruct (j <? nextents); [done|]. inversion H; subst.
    unfold extents_rounded. rewrite take_nil. simpl. rewrite Z.add_0_r.
    unfold accounted, u64. rewrite Z.mod_mod by done. done.
  - cbn [mark_extents] in H. destruct (j <? nextents) eqn:Hj.
    + apply Z.ltb_lt in Hj.
      destruct (negb _); [done|].
      destruct (mark_pages AU st _ _) as [st1|] eqn:Hmp; [|done]. simpl in H.
      apply IH in H as (Hacc & Hu & Hsz).
      pose proof (mark_pages_accounted _ _ _ _ Hmp) as (Hacc1 & Hu1 & _).
      assert (Hsz1 : bs_size_sum st1 = bs_size_sum st).
      { clear -Hmp. revert st Hmp.
        generalize (to_s64 (tagfs_extent_offset (se x) / AU)).
        induction (Z.to_nat (extent_np AU (tagfs_extent_len (se x)))) as [|n IHn];
          intros k st Hmp.
        - simpl in Hmp. by inversion Hmp.
        - cbn [mark_pages] in Hmp.
          destruct (mu_bitmap_test_and_set _ _) as [[rc b']|]; [|done].
          simpl in Hmp. apply IHn in Hmp. rewrite Hmp.
          destruct (rc =? 0); done. }
      split; [|split; [auto | congruence]].
      rewrite Hacc, Hacc1.
      replace (Z.to_nat (nextents - j)) with (S (Z.to_nat (nextents - (j + 1))))
        by lia.
      unfold extents_rounded at 2.
      replace (Z.to_nat (nextents - j)) with (S (Z.to_nat (nextents - (j + 1))))
        by lia.
      cbn [take map Zsum foldr]. fold (Zsum (map (fun x0 => round_up (tagfs_extent_len (se x0)))
                       (take (Z.to_nat (nextents - (j + 1))) rest))).
      fold (extents_rounded rest (nextents - (j + 1))).
      rewrite <- extent_np_round.
      rewrite !u64_add_l. rewrite (Z.add_comm (u64 _) (extents_rounded _ _)).
      rewrite Z.add_assoc, u64_add_r. f_equal. lia.
    + apply Z.ltb_ge in Hj. inversion H; subst.
      unfold extents_rounded. replace (Z.to_nat (nextents - j)) with 0%nat by lia.
      simpl. rewrite Z.add_0_r. unfold accounted, u64.
      rewrite Z.mod_mod by done. done.
Qed.

Lemma scan_log_accounted es : forall st i next_index st',
  scan_log AU st es i next_index = Some st' ->
  accounted st' =
    u64 (accounted st + Zsum (map entry_rounded (take (Z.to_nat (next_index - i)) es))) /\
  (is_u64 (bs_alloc_sum st) -> is_u64 (bs_alloc_sum st')).
Proof.
  induction es as [|le rest IH]; intros st i next_index st' H.
  - simpl in H. destruct (i <? next_index); [done|]. inversion H; subst.
    rewrite take_nil. simpl. rewrite Z.add_0_r.
    unfold accounted, u64. rewrite Z.mod_mod by done. done.
  - cbn [scan_log] in H. destruct (i <? next_index) eqn:Hi.
    + apply Z.ltb_lt in Hi.
      replace (Z.to_nat (next_index - i))
        with (S (Z.to_nat (next_index - (i + 1)))) by lia.
      cbn [take map Zsum foldr].
      fold (Zsum (map entry_rounded (take (Z.to_nat (next_index - (i + 1))) rest))).
      match type of H with (?m ≫= _) = _ => destruct m as [st1|] eqn:Hle end; [|done].
      simpl in H. apply IH in H as (Hacc & Hu).
      assert (accounted st1 = u64 (accounted st + entry_rounded le) /\
              (is_u64 (bs_alloc_sum st) -> is_u64 (bs_alloc_sum st1))) as [Hacc1 Hu1].
      { unfold entry_rounded.
        destruct (tagfs_log_entry_body le) as [fc|md| |].
        - apply mark_extents_accounted in Hle as (Ha & Hus & _).
          rewrite Z.sub_0_r in Ha. split; [exact Ha | exact Hus].
        - inversion Hle; subst. split; [|done]. rewrite Z.add_0_r.
          unfold accounted, u64. by rewrite Z.mod_mod.
        - inversion Hle; subst. split; [|done]. rewrite Z.add_0_r.
          unfold accounted, u64. by rewrite Z.mod_mod.
        - inversion Hle; subst. split; [|done]. rewrite Z.add_0_r.
          unfold accounted, u64. by rewrite Z.mod_mod. }
      split; [|auto].
      rewrite Hacc, Hacc1, u64_add_l. f_equal. lia.
    + apply Z.ltb_ge in Hi. inversion H; subst.
      replace (Z.to_nat (next_index - i)) with 0%nat by lia.
      simpl. rewrite Z.add_0_r. unfold accounted, u64.
      rewrite Z.mod_mod by done. done.
Qed.

Lemma Zsum_map_nonneg {A} (f : A -> Z) (l : list A) :
  (forall x, 0 <= f x) -> 0 <= Zsum (map f l).
Proof.
  intros Hf. induction l as [|x l IH]; cbn [map Zsum foldr]; [done|].
  specialize (Hf x). fold (Zsum (map f l)). lia.
Qed.

Lemma log_rounded_total_nonneg logp : 0 <= log_rounded_total logp.
Proof.
  apply Zsum_map_nonneg. intros le. unfold entry_rounded.
  destruct (tagfs_log_entry_body le) as [fc| | |]; try done.
  apply Zsum_map_nonneg. intros x. apply u64_range.
Qed.

(** *** The bitmap and the counters, unit by unit *)

(** The units the innermost loop visits for one extent, in order:
    [page_num, page_num + 1, ..., page_num + np - 1]. *)
Fixpoint unit_run (k : Z) (n : nat) : list Z :=
  match n with
  | O => []
  | S n' => k :: unit_run (k + 1) n'
  end.

Definition extent_unit_list (x : tagfs_log_extent) : list Z :=
  unit_run (to_s64 (tagfs_extent_offset (se x) / AU))
           (Z.to_nat (extent_np AU (tagfs_extent_len (se x)))).

(** Every unit the scan visits, in the order of the visits. *)
Definition marked_units (l : list tagfs_log_extent) : list Z :=
  flat_map extent_unit_list l.

(** Written from the claim: the number of collisions of a run of
    test-and-set over the units [ks], one for each unit that is already set
    when its turn comes, be it set from the start ([set]) or by an earlier
    unit of the run. *)
Fixpoint collisions (set : Z -> bool) (ks : list Z) : Z :=
  match ks with
  | [] => 0
  | k :: rest =>
      (if set k then 1 else 0)
      + collisions (fun j => set j || bool_decide (j = k)) rest
  end.

(** The units [put_sb_log_into_bitmap] sets: unit 0 and the units below
    [(TAGFS_LOG_OFFSET + TAGFS_LOG_LEN) / TAGFS_ALLOC_UNIT]. *)
Definition reserved_unit (j : Z) : bool :=
  bool_decide (0 <= j < Z.max 1 ((TAGFS_LOG_OFFSET + TAGFS_LOG_LEN) / AU)).

Lemma collisions_bounds ks : forall set,
  0 <= collisions set ks <= Z.of_nat (length ks).
Proof.
  induction ks as [|k ks IH]; intros set; cbn [collisions length]; [lia|].
  specialize (IH (fun j => set j || bool_decide (j = k))).
  destruct (set k); lia.
Qed.

Lemma collisions_ext ks : forall s1 s2,
  (forall j, j ∈ ks -> s1 j = s2 j) -> collisions s1 ks = collisions s2 ks.
Proof.
  induction ks as [|k ks IH]; intros s1 s2 Heq; cbn [collisions]; [done|].
  rewrite (Heq k) by apply list_elem_of_here. f_equal.
  apply IH. intros j Hj. rewrite (Heq j) by (by apply list_elem_of_further). done.
Qed.

Lemma bool_decide_elem_of_cons (j k : Z) (ks : list Z) :
  bool_decide (j ∈ k :: ks) = bool_decide (j = k) || bool_decide (j ∈ ks).
Proof.
  destruct (decide (j = k)) as [->|Hne].
  - rewrite (bool_decide_true (k = k)) by done.
    apply bool_decide_true, list_elem_of_here.
  - rewrite (bool_decide_false (j = k)) by done. simpl.
    apply bool_decide_ext. rewrite elem_of_cons. tauto.
Qed.

Lemma bool_decide_elem_of_app (j : Z) (ks1 ks2 : list Z) :
  bool_decide (j ∈ ks1 ++ ks2) = bool_decide (j ∈ ks1) || bool_decide (j ∈ ks2).
Proof.
  induction ks1 as [|k ks1 IH]; cbn [app].
  - rewrite (bool_decide_false (j ∈ [])); [done|]. apply not_elem_of_nil.
  - by rewrite !bool_decide_elem_of_cons, IH, orb_assoc.
Qed.

Lemma collisions_app ks1 : forall set ks2,
  collisions set (ks1 ++ ks2)
  = collisions set ks1
    + collisions (fun j => set j || bool_decide (j ∈ ks1)) ks2.
Proof.
  induction ks1 as [|k ks1 IH]; intros set ks2; cbn [collisions app].
  - rewrite Z.add_0_l. apply collisions_ext. intros j _.
    rewrite (bool_decide_false (j ∈ [])); [by rewrite orb_false_r|].
    apply not_elem_of_nil.
  - rewrite IH, <- Z.add_assoc. do 2 f_equal. apply collisions_ext. intros j _.
    by rewrite bool_decide_elem_of_cons, orb_assoc.
Qed.

(** What a stretch of the scan that visits the units [ks] does: it sets
    their bits and no other, adds the collisions among them to [errors] and
    one allocation unit for each other visit to [alloc_sum]. *)
Definition counted (b : bitmap) (e a : Z) (b' : bitmap) (e' a' : Z)
    (ks : list Z) : Prop :=
  length b' = length b /\
  Forall (fun k => 0 <= k) ks /\
  (forall j, 0 <= j -> bit_at b' j = bit_at b j || bool_decide (j ∈ ks)) /\
  (is_u64 e -> is_u64 e') /\ (is_u64 a -> is_u64 a') /\
  u64 e' = u64 (e + collisions (bit_at b) ks) /\
  u64 a' = u64 (a + AU * (Z.of_nat (length ks) - collisions (bit_at b) ks)).

Lemma counted_nil b e a : counted b e a b e a [].
Proof.
  split; [done|]. split; [constructor|]. split.
  { intros j _. rewrite (bool_decide_false (j ∈ [])); [by rewrite orb_false_r|].
    apply not_elem_of_nil. }
  split; [done|]. split; [done|]. simpl.
  split; f_equal; lia.
Qed.

Lemma counted_app b e a b1 e1 a1 b2 e2 a2 ks1 ks2 :
  counted b e a b1 e1 a1 ks1 -> counted b1 e1 a1 b2 e2 a2 ks2 ->
  counted b e a b2 e2 a2 (ks1 ++ ks2).
Proof.
  intros (Hl1 & Hp1 & Hb1 & Hue1 & Hua1 & He1 & Ha1)
         (Hl2 & Hp2 & Hb2 & Hue2 & Hua2 & He2 & Ha2).
  assert (Hc : collisions (bit_at b) (ks1 ++ ks2)
               = collisions (bit_at b) ks1 + collisions (bit_at b1) ks2).
  { rewrite collisions_app. f_equal. apply collisions_ext. intros j Hj.
    symmetry. apply Hb1. by apply (proj1 (Forall_forall _ _) Hp2). }
  split; [congruence|]. split; [by apply Forall_app|]. split.
  { intros j Hj. by rewrite Hb2, Hb1, bool_decide_elem_of_app, orb_assoc. }
  split; [auto|]. split; [auto|]. rewrite Hc, length_app. split.
  - rewrite He2, <- u64_add_l, He1, u64_add_l. f_equal. lia.
  - rewrite Ha2, <- u64_add_l, Ha1, u64_add_l. f_equal. lia.
Qed.

Lemma u64_idem x : u64 (u64 x) = u64 x.
Proof. unfold u64. by rewrite Z.mod_mod. Qed.

Lemma mark_pages_counted n : forall st k st',
  mark_pages AU st k n = Some st' ->
  counted (bs_bitmap st) (bs_errors st) (bs_alloc_sum st)
          (bs_bitmap st') (bs_errors st') (bs_alloc_sum st') (unit_run k n).
Proof.
  induction n as [|n IH]; intros st k st' Hmark;
    cbn [mark_pages unit_run] in *.
  - inversion Hmark; subst. apply counted_nil.
  - destruct (mu_bitmap_test_and_set (bs_bitmap st) k) as [[rc b1]|] eqn:Hone;
      [|done]. simpl in Hmark.
    apply mu_bitmap_test_and_set_Some in Hone as (Hin & Hlen & Hcase).
    apply IH in Hmark.
    eapply (counted_app _ _ _ _ _ _ _ _ _ [k]); [|exact Hmark].
    split; [by destruct Hcase as [(-> & _ & ->)|(-> & _ & _)]|].
    split; [constructor; [by destruct Hin|constructor]|].
    cbn [collisions length].
    destruct Hcase as [(-> & Hb & ->)|(-> & Hb & Hbits)]; simpl; rewrite Hb.
    + split.
      { intros j Hj. destruct (decide (j = k)) as [->|Hne].
        - by rewrite Hb.
        - rewrite (bool_decide_false (j ∈ [k])); [by rewrite orb_false_r|].
          by rewrite list_elem_of_singleton. }
      split; [intros _; apply u64_range|]. split; [done|].
      split; [by rewrite u64_idem, Z.add_0_r|]. f_equal. lia.
    + split.
      { intros j Hj. rewrite Hbits by done. f_equal.
        apply bool_decide_ext. by rewrite list_elem_of_singleton. }
      split; [done|]. split; [intros _; apply u64_range|].
      split; [f_equal; lia|]. rewrite u64_idem. f_equal. lia.
Qed.

Lemma mark_extents_counted ext : forall st j nextents st',
  mark_extents AU st ext j nextents = Some st' ->
  counted (bs_bitmap st) (bs_errors st) (bs_alloc_sum st)
          (bs_bitmap st') (bs_errors st') (bs_alloc_sum st')
          (marked_units (entry_extents ext j nextents)).
Proof.
  induction ext as [|x rest IH]; intros st j nextents st' Hmark;
    cbn [mark_extents entry_extents] in *.
  - destruct (j <? nextents); [done|]. inversion Hmark; subst. apply counted_nil.
  - destruct (j <? nextents); [|inversion Hmark; subst; apply counted_nil].
    destruct (negb _); [done|].
    destruct (mark_pages AU st _ _) as [st1|] eqn:Hpages; [|done]. simpl in Hmark.
    apply IH in Hmark. apply mark_pages_counted in Hpages.
    cbn [marked_units flat_map]. eapply counted_app; [exact Hpages|exact Hmark].
Qed.

Lemma scan_log_counted es : forall st i next_index st',
  scan_log AU st es i next_index = Some st' ->
  counted (bs_bitmap st) (bs_errors st) (bs_alloc_sum st)
          (bs_bitmap st') (bs_errors st') (bs_alloc_sum st')
          (marked_units (log_extents es i next_index)).
Proof.
  induction es as [|le rest IH]; intros st i next_index st' Hscan;
    cbn [scan_log log_extents] in *.
  - destruct (i <? next_index); [done|]. inversion Hscan; subst. apply counted_nil.
  - destruct (i <? next_index); [|inversion Hscan; subst; apply counted_nil].
    match type of Hscan with
    | (?m ≫= _) = _ => destruct m as [st1|] eqn:Hentry; [|done]
    end.
    simpl in Hscan. apply IH in Hscan.
    unfold marked_units. rewrite flat_map_app.
    eapply counted_app; [|exact Hscan].
    destruct (tagfs_log_entry_body le) as [fc|md| |].
    + apply mark_extents_counted in Hentry. exact Hentry.
    + inversion Hentry; subst. apply counted_nil.
    + inversion Hentry; subst. apply counted_nil.
    + inversion Hentry; subst. apply counted_nil.
Qed.

Lemma set_bits_exact count : forall b i b',
  0 <= i ->
  set_bits b i count = Some b' ->
  length b' = length b /\
  forall j, 0 <= j ->
    bit_at b' j = bit_at b j || bool_decide (i <= j < i + Z.of_nat count).
Proof.
  induction count as [|count IH]; intros b i b' Hi Hset; cbn [set_bits] in Hset.
  - inversion Hset; subst. split; [done|]. intros j Hj.
    rewrite bool_decide_false by lia. by rewrite orb_false_r.
  - destruct (mu_bitmap_set b i) as [b1|] eqn:Hone; [|done]. simpl in Hset.
    pose proof (mu_bitmap_set_Some _ _ _ Hone) as Hin.
    destruct (mu_bitmap_set_in b i Hin) as (b1' & Hone' & Hlen & Hbits).
    rewrite Hone in Hone'. inversion Hone'; subst b1'. clear Hone'.
    apply IH in Hset as [Hlen' Hbits']; [|lia]. split; [congruence|].
    intros j Hj. rewrite Hbits', Hbits by done. rewrite <- orb_assoc. f_equal.
    destruct (decide (j = i)) as [->|Hne].
    + rewrite (bool_decide_true (i = i)) by done. simpl.
      symmetry. apply bool_decide_true. lia.
    + rewrite (bool_decide_false (j = i)) by done. simpl.
      apply bool_decide_ext. lia.
Qed.

Lemma bit_at_zeros n j : bit_at (replicate n 0) j = false.
Proof.
  unfold bit_at. destruct (replicate n 0 !! Z.to_nat (j / 8)) as [x|] eqn:Hx; simpl.
  - apply lookup_replicate in Hx as [-> _]. apply Z.testbit_0_l.
  - apply Z.testbit_0_l.
Qed.

Lemma put_sb_log_into_bitmap_exact n b :
  put_sb_log_into_bitmap AU TAGFS_LOG_OFFSET TAGFS_LOG_LEN (replicate n 0) = Some b ->
  forall j, 0 <= j -> bit_at b j = reserved_unit j.
Proof.
  unfold put_sb_log_into_bitmap. intros Hput.
  destruct (mu_bitmap_set (replicate n 0) 0) as [b0|] eqn:Hzero; [|done].
  simpl in Hput.
  pose proof (mu_bitmap_set_Some _ _ _ Hzero) as Hin.
  destruct (mu_bitmap_set_in _ 0 Hin) as (b0' & Hzero' & Hlen & Hbits).
  rewrite Hzero in Hzero'. inversion Hzero'; subst b0'. clear Hzero'.
  apply set_bits_exact in Hput as [_ Hrest]; [|done].
  intros j Hj. rewrite Hrest, Hbits, bit_at_zeros by done. simpl.
  unfold reserved_unit.
  destruct (decide (j = 0)) as [->|Hne].
  - rewrite (bool_decide_true (0 = 0)) by done. simpl.
    symmetry. apply bool_decide_true. lia.
  - rewrite (bool_decide_false (j = 0)) by done. simpl.
    apply bool_decide_ext. lia.
Qed.

(** C4.  [tagfs_build_bitmap] visits every allocation unit of every extent of
    every FILE entry with test-and-set.  The bitmap it returns has exactly
    the bits of the superblock-and-log units and of the units visited.
    [errors] is the number of collisions, one for each visit of a unit
    whose bit was already set, whatever the extent; and [alloc_total] is one
    allocation unit for each other visit, so a unit allocated twice is
    counted once.  The two counters together account for every visit, and
    on a log for which the collision count comes back zero [alloc_total] is
    the sum, over the FILE entries, of their extent lengths rounded up to
    the allocation unit (as a [u64], hence that sum itself whenever it fits
    64 bits). *)
Theorem build_bitmap_alloc_total logp bitmap_size_in r :
  tagfs_build_bitmap AU TAGFS_SUPERBLOCK_SIZE TAGFS_LOG_OFFSET TAGFS_LOG_LEN
    logp bitmap_size_in = Some (Some r) ->
  let ks := marked_units (logged_extents logp) in
  let c := collisions reserved_unit ks in
  (forall j, 0 <= j ->
     bit_at (bb_bitmap r) j = reserved_unit j || bool_decide (j ∈ ks)) /\
  bb_errors r = u64 c /\
  bb_alloc_total r = u64 (AU * (Z.of_nat (length ks) - c)) /\
  u64 (bb_alloc_total r + AU * bb_errors r) = u64 (log_rounded_total logp) /\
  (bb_errors r = 0 ->
     bb_alloc_total r = u64 (log_rounded_total logp) /\
     (log_rounded_total logp < u64_mod -> bb_alloc_total r = log_rounded_total logp)).
Proof.
  intros H ks c. unfold tagfs_build_bitmap in H.
  destruct (_ <? 0) in H; [done|].
  destruct (put_sb_log_into_bitmap _ _ _ _) as [b|] eqn:Hput; [|done]. simpl in H.
  destruct (scan_log _ _ _ _ _) as [st|] eqn:Hscan; [|done]. simpl in H.
  inversion H; subst r; clear H. simpl.
  pose proof (put_sb_log_into_bitmap_exact _ _ Hput) as Hsb.
  pose proof (scan_log_counted _ _ _ _ _ Hscan)
    as (_ & Hpos & Hbits & Hue & Hua & He & Ha).
  simpl in Hbits, Hue, Hua, He, Ha.
  change (marked_units (log_extents (entries logp) 0 (tagfs_log_next_index logp)))
    with ks in Hpos, Hbits, He, Ha.
  assert (Hc : collisions (bit_at b) ks = c).
  { apply collisions_ext. intros j Hj. apply Hsb.
    by apply (proj1 (Forall_forall _ _) Hpos). }
  rewrite Hc in He, Ha. rewrite Z.add_0_l in He, Ha.
  rewrite (u64_small (bs_errors st)) in He by (by apply Hue).
  rewrite (u64_small (bs_alloc_sum st)) in Ha by (by apply Hua).
  split; [intros j Hj; by rewrite Hbits, Hsb|].
  split; [exact He|]. split; [exact Ha|].
  apply scan_log_accounted in Hscan as (Hacc & Hu).
  unfold accounted in Hacc. simpl in Hacc.
  rewrite Z.mul_0_r, Z.add_0_r, Z.sub_0_r in Hacc.
  change (u64 0) with 0 in Hacc. rewrite Z.add_0_l in Hacc.
  fold (log_rounded_total logp) in Hacc.
  split; [exact Hacc|]. intros Hzero.
  rewrite Hzero, Z.mul_0_r, Z.add_0_r in Hacc.
  rewrite u64_small in Hacc by (apply Hu; done).
  split; [exact Hacc|]. intros Hfit. rewrite Hacc. apply u64_small.
  split; [apply log_rounded_total_nonneg | done].
Qed.

End BuildBitmapFacts.

(** ** First fit in [bitmap_alloc_contiguous] *)

(** Bits [s .. s + n - 1] are all clear. *)
Definition range_free (b : bitmap) (s n : Z) : Prop :=
  forall j, s <= j < s + n -> bit_at b j = false.

(** [n] consecutive clear bits start at [s] and lie inside the first [nbits]
    bits. *)
Definition fits (b : bitmap) (nbits n s : Z) : Prop :=
  0 <= s /\ s + n <= nbits /\ range_free b s n.

(** [s] is the lowest index at which the request fits. *)
Definition first_fit (b : bitmap) (nbits n s : Z) : Prop :=
  fits b nbits n s /\ forall s', fits b nbits n s' -> s <= s'.

Section AllocFacts.

Variable TAGFS_ALLOC_UNIT : Z.
Local Abbreviation AU := TAGFS_ALLOC_UNIT.

Lemma range_busy_spec n : forall b i,
  0 <= i -> i + Z.of_nat n <= 8 * Z.of_nat (length b) ->
  exists busy, range_busy b i n = Some busy /\
    (busy = false <-> range_free b i (Z.of_nat n)).
Proof.
  induction n as [|n IH]; intros b i Hi Hn.
  - exists false. split; [done|]. split; [|done]. intros _ j Hj. lia.
  - cbn [range_busy]. unfold mse_bitmap_test32.
    rewrite mu_bitmap_test_in by (unfold in_bitmap; lia). simpl.
    destruct (bit_at b i) eqn:Hb.
    + exists true. split; [done|]. split; [done|].
      intros Hfree. rewrite Hfree in Hb by lia. done.
    + destruct (IH b (i + 1)) as (busy & Hr & Hiff); [lia|lia|].
      exists busy. split; [done|]. rewrite Hiff. split.
      * intros Hfree j Hj. destruct (decide (j = i)) as [->|]; [done|].
        apply Hfree. lia.
      * intros Hfree j Hj. apply Hfree. lia.
Qed.

Lemma range_set_spec n : forall b i,
  0 <= i -> i + Z.of_nat n <= 8 * Z.of_nat (length b) ->
  exists b', range_set b i n = Some b' /\ length b' = length b /\
    forall j, 0 <= j ->
      bit_at b' j = bit_at b j || bool_decide (i <= j < i + Z.of_nat n).
Proof.
  induction n as [|n IH]; intros b i Hi Hn.
  - exists b. split; [done|]. split; [done|]. intros j Hj.
    rewrite bool_decide_false by lia. by rewrite orb_false_r.
  - cbn [range_set]. unfold mse_bitmap_set32.
    destruct (mu_bitmap_set_in b i) as (b1 & Hs & Hlen & Hbits);
      [unfold in_bitmap; lia|].
    rewrite Hs. simpl.
    destruct (IH b1 (i + 1)) as (b' & Hr & Hlen' & Hbits'); [lia|lia|].
    exists b'. split; [done|]. split; [congruence|].
    intros j Hj. rewrite Hbits', Hbits by done.
    rewrite <- orb_assoc. f_equal.
    destruct (decide (j = i)) as [->|Hne].
    + rewrite (bool_decide_true (i = i)) by done. simpl.
      symmetry. apply bool_decide_true. lia.
    + rewrite (bool_decide_false (j = i)) by done. simpl.
      apply bool_decide_ext. lia.
Qed.

Hypothesis AU_range : 0 < AU <= 2 ^ 32.

(** The scan, started at [i] with every lower index already ruled out. *)
Lemma alloc_scan_spec fuel : forall b nbits n i,
  1 <= n <= INT_MAX ->
  0 <= i -> i + Z.of_nat fuel = nbits -> nbits <= INT_MAX ->
  nbits <= 8 * Z.of_nat (length b) ->
  (forall s, 0 <= s < i -> ~ fits b nbits n s) ->
  exists off b', alloc_scan AU b nbits n i fuel = Some (off, b') /\
    ((exists s, first_fit b nbits n s /\ off = s * AU /\
        length b' = length b /\
        forall j, 0 <= j -> bit_at b' j = bit_at b j || bool_decide (s <= j < s + n))
     \/
     ((forall s, ~ fits b nbits n s) /\ off = 0 /\ b' = b)).
Proof.
  induction fuel as [|fuel IH]; intros b nbits n i Hn Hi Hfuel Hmax Hlen Hlow.
  - exists 0, b. split; [done|]. right. split; [|done].
    intros s Hfit. pose proof Hfit as (Hs0 & Hs1 & _).
    apply (Hlow s); [|done]. unfold INT_MAX in *. lia.
  - cbn [alloc_scan].
    rewrite mu_bitmap_test_in by (unfold in_bitmap; lia). simpl.
    assert (Hnext : bit_at b i = true \/ ~ range_free b i n ->
                    forall s, 0 <= s < i + 1 -> ~ fits b nbits n s).
    { intros Hbusy s Hs Hfit. destruct (decide (s = i)) as [->|Hne].
      - destruct Hfit as (_ & _ & Hfree). destruct Hbusy as [Hb|Hb]; [|done].
        rewrite Hfree in Hb by lia. done.
      - apply (Hlow s); [lia|done]. }
    destruct (bit_at b i) eqn:Hb.
    + apply IH; try done; try lia. apply Hnext. by left.
    + assert (Hrem : to_int (u64 (nbits - i)) = nbits - i).
      { unfold INT_MAX in *. rewrite u64_small by (unfold is_u64, u64_mod; lia).
        apply to_int_small. lia. }
      rewrite Hrem. destruct (n >? nbits - i) eqn:Hgt.
      * apply Z.gtb_lt in Hgt. exists 0, b. split; [done|]. right.
        split; [|done]. intros s Hfit.
        destruct (decide (s < i)) as [Hlt|Hge].
        -- destruct Hfit as (Hs0 & ?). apply (Hlow s); [lia|].
           split; [done|done].
        -- destruct Hfit as (_ & Hs1 & _). lia.
      * assert (n <= nbits - i) as Hle.
        { destruct (Z.gtb_spec n (nbits - i)); [done|lia]. }
        destruct (range_busy_spec (Z.to_nat n) b i) as (busy & Hrb & Hiff);
          [lia|lia|].
        rewrite Hrb. simpl. rewrite Z2Nat.id in Hiff by lia.
        destruct busy.
        -- apply IH; try done; try lia. apply Hnext. right.
           intros Hfree. apply Hiff in Hfree. done.
        -- destruct (range_set_spec (Z.to_nat n) b i) as (b' & Hrs & Hlen' & Hbits);
             [lia|lia|].
           rewrite Hrs. simpl. rewrite Z2Nat.id in Hbits by lia.
           exists (u64 (i * AU)), b'. split; [done|]. left. exists i.
           assert (Hfit : fits b nbits n i).
           { split; [lia|]. split; [lia|]. by apply Hiff. }
           split; [|split; [|split; [done|done]]].
           ++ split; [done|]. intros s' Hfit'.
              destruct (decide (s' < i)) as [Hlt|]; [|lia].
              exfalso. destruct Hfit' as (Hs0 & Hrest).
              apply (Hlow s'); [lia|]. split; [done|done].
           ++ apply u64_small. unfold is_u64, u64_mod, INT_MAX in *. nia.
Qed.


End AllocFacts.

(** The allocation unit of the specification's scenarios (2 MiB). *)
Definition sample_alloc_unit : Z := 2097152.


(** ** The environment: file system, ioctl interface, diagnostics *)

Inductive file_kind := S_IFREG | S_IFDIR | S_IFOTHER.

(** What [stat] reports of a path that exists: the file type and the nine
    permission bits ([st_mode & 0777]) the object was created with.
    Ownership is not read by any code in this file and is not tracked. *)
Record inode := mk_inode {
  i_kind : file_kind;
  i_mode : Z;
}.

(** tagfs_ioctl.h *)
Inductive tagfs_file_type := TAGFS_REG | TAGFS_SUPERBLOCK | TAGFS_LOG.

Inductive extent_type := FSDAX_EXTENT.

Record tagfs_ioc_map := mk_ioc_map {
  file_type      : tagfs_file_type;
  file_size      : Z;
  ioc_extent_type : extent_type;
  ext_list_count : Z;
  ext_list       : list tagfs_simple_extent;
}.

Inductive ioctl_req :=
| TAGFSIOC_NOP
| TAGFSIOC_MAP_CREATE (filemap : tagfs_ioc_map).

(** The lines the library prints, one constructor per format string. *)
Inductive msg :=
| Msg_log_empty (mpt : string)
| Msg_log_contains (n : Z)
| Msg_play_file (i : Z) (relpath : string) (size : Z)
| Msg_path_not_relative
| Msg_zero_offset (relpath : string)
| Msg_file_exists (rpath : string)
| Msg_creating_file (relpath : string) (mode : Z)
| Msg_unable_create_destfile (relpath : string)
| Msg_play_mkdir (i : Z) (relpath : string)
| Msg_mkdir_path_not_relative
| Msg_dir_exists (rpath : string)
| Msg_file_where_dir (rpath : string)
| Msg_something_where_dir (rpath : string)
| Msg_creating_directory (relpath : string)
| Msg_unable_create_directory (relpath : string)
| Msg_invalid_log_entry
| Msg_processed (nlog : Z)
| Msg_fc_already_exists (path : string)
| Msg_fc_open_failed (path : string) (fd : Z)
| Msg_fc_not_tagfs (path : string)
| Msg_fchown_failed (rc : Z)
| Msg_mkdir_failed (fullpath : string)
| Msg_chown_failed (rc : Z)
| Msg_map_create_failed (path : string).

(** The part of the machine the library acts on: the name space ([stat],
    [open], [mkdir], [unlink]), the ioctls issued so far (descriptor and
    request, oldest first) and the diagnostics printed so far.  The name
    space holds no symbolic link: a path names the object itself, and a path
    [stat] does not find is free. *)
Record world := mk_world {
  w_fs     : gmap string inode;
  w_ioctls : list (Z * ioctl_req);
  w_out    : list msg;
}.

(** The answers of the operating system, which the library cannot predict:
    each may depend on the whole state at the time of the call.  [k_umask]
    is the file mode creation mask of the process, which [open] and [mkdir]
    apply to the mode they are given. *)
Record kernel := mk_kernel {
  k_realpath : string -> string;
  k_open     : world -> string -> Z -> Z;
  k_ioctl    : world -> Z -> ioctl_req -> Z;
  k_fchown   : world -> Z -> Z -> Z -> Z;
  k_chown    : world -> string -> Z -> Z -> Z;
  k_mkdir    : world -> string -> Z -> Z;
  k_unlink   : world -> string -> Z;
  k_umask    : Z;
}.

(** Computations over the world that may leave the C abstract machine. *)
Definition M (A : Type) : Type := world -> option (A * world).

Definition ret {A} (a : A) : M A := fun w => Some (a, w).

Definition bindM {A B} (m : M A) (k : A -> M B) : M B :=
  fun w => match m w with
           | Some (a, w') => k a w'
           | None => None
           end.

Definition abort {A} : M A := fun _ => None.

Notation "'let*' x ':=' m 'in' k" :=
  (bindM m (fun x => k))
  (at level 10, x pattern, m at level 100, k at level 200).

Definition print (m : msg) : M unit :=
  fun w => Some (tt, mk_world (w_fs w) (w_ioctls w) (w_out w ++ [m])).

Section SystemCalls.

Variable K : kernel.

(** [stat(path, &st)]: the inode when the call returns 0. *)
Definition sys_stat (path : string) : M (option inode) :=
  fun w => Some (w_fs w !! path, w).

(** The permission bits of a file that [open(path, O_CREAT, mode)] creates:
    [mode & ~umask & 0777]. *)
Definition creat_mode (mode : Z) : Z := Z.land (Z.ldiff mode (k_umask K)) 511.

(** The permission bits of a directory that [mkdir(path, mode)] creates:
    [mode & ~umask & 0777]. *)
Definition mkdir_mode (mode : Z) : Z := Z.land (Z.ldiff mode (k_umask K)) 511.

(** [open(path, O_RDWR | O_CREAT, mode)]: a negative result creates nothing;
    otherwise the path exists afterwards, a file it creates having the mode
    less the bits of the umask. *)
Definition sys_open_creat (path : string) (mode : Z) : M Z :=
  fun w =>
    let fd := k_open K w path mode in
    if fd <? 0 then Some (fd, w)
    else
      match w_fs w !! path with
      | Some _ => Some (fd, w)
      | None => Some (fd, mk_world (<[path := mk_inode S_IFREG (creat_mode mode)]>
                                      (w_fs w))
                                   (w_ioctls w) (w_out w))
      end.

(** [unlink(path)], whose return value no caller in this file reads: it
    removes a name that is not a directory when the kernel lets it. *)
Definition sys_unlink (path : string) : M unit :=
  fun w =>
    match w_fs w !! path with
    | Some ino =>
        match i_kind ino with
        | S_IFDIR => Some (tt, w)
        | _ =>
            if k_unlink K w path =? 0
            then Some (tt, mk_world (delete path (w_fs w)) (w_ioctls w) (w_out w))
            else Some (tt, w)
        end
    | None => Some (tt, w)
    end.

(** [mkdir(path, mode)]: fails on an existing name; a directory it creates
    has the mode less the bits of the umask. *)
Definition sys_mkdir (path : string) (mode : Z) : M Z :=
  fun w =>
    match w_fs w !! path with
    | Some _ => Some (-1, w)
    | None =>
        if k_mkdir K w path mode =? 0
        then Some (0, mk_world (<[path := mk_inode S_IFDIR (mkdir_mode mode)]>
                                  (w_fs w))
                               (w_ioctls w) (w_out w))
        else Some (-1, w)
    end.

Definition sys_ioctl (fd : Z) (req : ioctl_req) : M Z :=
  fun w => Some (k_ioctl K w fd req,
                 mk_world (w_fs w) (w_ioctls w ++ [(fd, req)]) (w_out w)).

Definition sys_fchown (fd uid gid : Z) : M Z :=
  fun w => Some (k_fchown K w fd uid gid, w).

Definition sys_chown (path : string) (uid gid : Z) : M Z :=
  fun w => Some (k_chown K w path uid gid, w).

(** [snprintf(buf, size, "%s/%s", a, b)]: at most [size - 1] characters are
    stored. *)
Definition snprintf_path (size : Z) (a b : string) : string :=
  String.substring 0 (Z.to_nat (size - 1)) (a +:+ "/" +:+ b).

(** [strncpy(dst, src, n)] into a zero-filled buffer of more than [n]
    bytes. *)
Definition strncpy (src : string) (n : Z) : string :=
  String.substring 0 (Z.to_nat n) src.

(** ** File and directory creation *)

(** [tagfs_file_map_create].  [calloc] is taken to fail exactly when its
    count is negative. *)
Definition tagfs_file_map_create (path : string) (fd : Z) (size : Z) (nextents : Z)
    (el : list tagfs_simple_extent) (type : tagfs_file_type) : M Z :=
  if fd <=? 0 then abort
  else if nextents <? 0 then ret (- ENOMEM)
  else
    let filemap := mk_ioc_map type size FSDAX_EXTENT nextents el in
    let* rc := sys_ioctl fd (TAGFSIOC_MAP_CREATE filemap) in
    let* _ := (if rc =? 0 then ret tt else print (Msg_map_create_failed path)) in
    ret rc.

(** [__file_not_tagfs] *)
Definition __file_not_tagfs (fd : Z) : M Z :=
  let* rc := sys_ioctl fd TAGFSIOC_NOP in
  if rc =? 0 then ret 0 else ret 1.

(** [tagfs_file_create] *)
Definition tagfs_file_create (path : string) (mode uid gid : Z) : M Z :=
  let* st := sys_stat path in
  match st with
  | Some _ => let* _ := print (Msg_fc_already_exists path) in ret (-1)
  | None =>
      let* fd := sys_open_creat path mode in
      if fd <? 0 then let* _ := print (Msg_fc_open_failed path fd) in ret fd
      else
        let* nt := __file_not_tagfs fd in
        if negb (nt =? 0) then
          let* _ := sys_unlink path in
          let* _ := print (Msg_fc_not_tagfs path) in
          ret (- EBADF)
        else
          let* _ :=
            (if negb (uid =? 0) && negb (gid =? 0) then
               let* rc := sys_fchown fd uid gid in
               if rc =? 0 then ret tt else print (Msg_fchown_failed rc)
             else ret tt) in
          ret fd
  end.

(** [tagfs_dir_create] *)
Definition tagfs_dir_create (mpt rpath : string) (mode uid gid : Z) : M Z :=
  let fullpath := snprintf_path (PATH_MAX - 1) mpt rpath in
  let* rc := sys_mkdir fullpath mode in
  if negb (rc =? 0) then
    let* _ := print (Msg_mkdir_failed fullpath) in ret (-1)
  else if negb (uid =? 0) && negb (gid =? 0) then
    let* rc := sys_chown fullpath uid gid in
    let* _ := (if rc =? 0 then ret tt else print (Msg_chown_failed rc)) in
    ret (-1)
  else ret 0.

End SystemCalls.

(** ** Log replay *)

(** [strlen(relpath) >= 1 && relpath[0] != '/'], shared by
    [tagfs_log_entry_fc_path_is_relative] and
    [tagfs_log_entry_md_path_is_relative]. *)
Definition path_is_relative (relpath : string) : bool :=
  match relpath with
  | EmptyString => false
  | String c _ => negb (Ascii.eqb c "/"%char)
  end.

Definition tagfs_log_entry_fc_path_is_relative (fc : tagfs_file_creation) : bool :=
  path_is_relative (tagfs_relpath fc).

Definition tagfs_log_entry_md_path_is_relative (md : tagfs_mkdir) : bool :=
  path_is_relative (md_relpath md).

(** The second loop of the FILE case, which fills the extent list handed to
    the ioctl: [tle = &fc->tagfs_ext_list[j]; el[j] = tle[j].se], that is the
    element at index [j + j] of the entry's array. *)
Fixpoint build_el (all ext : list tagfs_log_extent) (j nextents : Z)
  : option (list tagfs_simple_extent) :=
  if j <? nextents then
    match ext with
    | [] => None
    | _ :: rest =>
        x ← all !! Z.to_nat (j + j);
        els ← build_el all rest (j + 1) nextents;
        Some (se x :: els)
    end
  else Some [].

Section Replay.

Variable K : kernel.

(** The first loop of the FILE case: every extent with offset 0 is reported
    and bumps [skip_file]. *)
Fixpoint check_extents (relpath : string) (ext : list tagfs_log_extent)
    (j nextents : Z) (skip_file : Z) : M Z :=
  if j <? nextents then
    match ext with
    | [] => abort
    | x :: rest =>
        if tagfs_extent_offset (se x) =? 0 then
          let* _ := print (Msg_zero_offset relpath) in
          check_extents relpath rest (j + 1) nextents (skip_file + 1)
        else check_extents relpath rest (j + 1) nextents skip_file
    end
  else ret skip_file.

(** The [TAGFS_LOG_FILE] case of the [switch] in [tagfs_logplay]. *)
Definition play_file (mpt : string) (dry_run : Z) (i : Z) (fc : tagfs_file_creation)
  : M unit :=
  let* _ := print (Msg_play_file i (tagfs_relpath fc) (tagfs_fc_size fc)) in
  let* skip0 :=
    (if negb (tagfs_log_entry_fc_path_is_relative fc)
     then let* _ := print Msg_path_not_relative in ret 1
     else ret 0) in
  let* skip_file :=
    check_extents (tagfs_relpath fc) (tagfs_ext_list fc) 0 (tagfs_nextents fc) skip0 in
  if negb (skip_file =? 0) then ret tt
  else
    let fullpath := snprintf_path (PATH_MAX - 1) mpt (tagfs_relpath fc) in
    let rpath := k_realpath K fullpath in
    if negb (dry_run =? 0) then ret tt
    else
      let* st := sys_stat rpath in
      match st with
      | Some _ => print (Msg_file_exists rpath)
      | None =>
          let* _ := print (Msg_creating_file (tagfs_relpath fc) (fc_mode fc)) in
          let* fd := tagfs_file_create K rpath (fc_mode fc) (fc_uid fc) (fc_gid fc) in
          if fd <? 0 then
            let* _ := print (Msg_unable_create_destfile (tagfs_relpath fc)) in
            sys_unlink K rpath
          else
            match build_el (tagfs_ext_list fc) (tagfs_ext_list fc) 0 (tagfs_nextents fc) with
            | None => abort
            | Some el =>
                let* _ := tagfs_file_map_create K rpath fd (tagfs_fc_size fc)
                            (to_int (tagfs_nextents fc)) el TAGFS_REG in
                ret tt
            end
      end.

(** The [TAGFS_LOG_MKDIR] case. *)
Definition play_mkdir (mpt : string) (dry_run : Z) (i : Z) (md : tagfs_mkdir) : M unit :=
  let* _ := print (Msg_play_mkdir i (md_relpath md)) in
  if negb (tagfs_log_entry_md_path_is_relative md) then
    print Msg_mkdir_path_not_relative
  else
    let fullpath := snprintf_path (PATH_MAX - 1) mpt (md_relpath md) in
    let rpath := k_realpath K fullpath in
    if negb (dry_run =? 0) then ret tt
    else
      let* st := sys_stat rpath in
      match st with
      | Some ino =>
          match i_kind ino with
          | S_IFDIR => print (Msg_dir_exists rpath)
          | S_IFREG => print (Msg_file_where_dir rpath)
          | S_IFOTHER => print (Msg_something_where_dir rpath)
          end
      | None =>
          let* _ := print (Msg_creating_directory (md_relpath md)) in
          let* rc := tagfs_dir_create K mpt (md_relpath md) (md_mode md)
                                      (md_uid md) (md_gid md) in
          if negb (rc =? 0) then print (Msg_unable_create_directory (md_relpath md))
          else ret tt
      end.

(** One turn of the replay loop. *)
Definition play_entry (mpt : string) (dry_run : Z) (i : Z) (le : tagfs_log_entry)
  : M unit :=
  match tagfs_log_entry_body le with
  | TAGFS_LOG_FILE fc => play_file mpt dry_run i fc
  | TAGFS_LOG_MKDIR md => play_mkdir mpt dry_run i md
  | TAGFS_LOG_ACCESS | TAGFS_LOG_INVALID => print Msg_invalid_log_entry
  end.

(** [for (i = 0; i < logp->tagfs_log_next_index; i++)], with [es] the part of
    [entries] that starts at [entries[i]]; returns [nlog]. *)
Fixpoint play_loop (mpt : string) (dry_run : Z) (es : list tagfs_log_entry)
    (i next_index nlog : Z) : M Z :=
  if i <? next_index then
    match es with
    | [] => abort
    | le :: rest =>
        let* _ := play_entry mpt dry_run i le in
        play_loop mpt dry_run rest (i + 1) next_index (nlog + 1)
    end
  else ret nlog.

(** [tagfs_logplay] *)
Definition tagfs_logplay (logp : tagfs_log) (mpt : string) (dry_run : Z) : M Z :=
  if tagfs_log_full logp then
    let* _ := print (Msg_log_empty mpt) in ret (-1)
  else
    let* _ := print (Msg_log_contains (tagfs_log_next_index logp)) in
    let* nlog := play_loop mpt dry_run (entries logp) 0 (tagfs_log_next_index logp) 0 in
    let* _ := print (Msg_processed nlog) in
    ret 0.

End Replay.

(** ** Properties of directory creation and of replay *)

(** The world after one more diagnostic line. *)
Definition says (w : world) (ms : list msg) : world :=
  mk_world (w_fs w) (w_ioctls w) (w_out w ++ ms).

Lemma says_nil w : says w [] = w.
Proof. destruct w. unfold says. simpl. by rewrite app_nil_r. Qed.

Lemma says_says w a c : says (says w a) c = says w (a ++ c).
Proof. unfold says. simpl. by rewrite app_assoc. Qed.

Lemma print_eq m w : print m w = Some (tt, says w [m]).
Proof. done. Qed.

Lemma bindM_eq {A B} (m : M A) (k : A -> M B) w a w' :
  m w = Some (a, w') -> bindM m k w = k a w'.
Proof. unfold bindM. by intros ->. Qed.

Lemma bindM_Some {A B} (m : M A) (k : A -> M B) w r :
  bindM m k w = Some r -> exists a w', m w = Some (a, w') /\ k a w' = Some r.
Proof.
  unfold bindM. destruct (m w) as [[a w']|]; [|done]. intros H. by exists a, w'.
Qed.

Section ReplayFacts.

Variable K : kernel.

(** C9.  [tagfs_logplay] refuses a log with [next_index > last_index]: it
    prints the "log is empty" diagnostic, returns -1 and touches neither the
    name space nor the ioctl interface, whatever the entries are; on such a
    log it never returns 0, so a replay that succeeds was given a log with
    [next_index <= last_index]. *)
Theorem logplay_refuses_full_log logp mpt dry_run w :
  tagfs_log_next_index logp > tagfs_log_last_index logp ->
  tagfs_logplay K logp mpt dry_run w = Some (-1, says w [Msg_log_empty mpt]) /\
  (forall w0 w1, tagfs_logplay K logp mpt dry_run w0 <> Some (0, w1)).
Proof.
  intros Hfull. unfold tagfs_logplay, tagfs_log_full.
  rewrite bool_decide_true by done. split; [done|].
  intros w0 w1. unfold bindM, print, ret. simpl. intros [=].
Qed.

Lemma tagfs_dir_create_nonzero mpt rpath mode uid gid w0 :
  uid <> 0 -> gid <> 0 ->
  let fullpath := snprintf_path (PATH_MAX - 1) mpt rpath in
  exists w', tagfs_dir_create K mpt rpath mode uid gid w0 = Some (-1, w') /\
    (w_fs w0 !! fullpath = None -> k_mkdir K w0 fullpath mode = 0 ->
       w_fs w' !! fullpath = Some (mk_inode S_IFDIR (mkdir_mode K mode))).
Proof.
  intros Huid Hgid fullpath.
  unfold tagfs_dir_create, bindM, sys_mkdir. fold fullpath.
  destruct (w_fs w0 !! fullpath) as [ino|] eqn:Hfs.
  - simpl. eexists. split; [done|]. done.
  - destruct (k_mkdir K w0 fullpath mode =? 0) eqn:Hmk.
    + simpl. apply Z.eqb_neq in Huid, Hgid. rewrite Huid, Hgid. simpl.
      unfold sys_chown. simpl.
      destruct (k_chown K _ fullpath uid gid =? 0); simpl;
        (eexists; split; [done|]; intros _ _; simpl; apply lookup_insert_eq).
    + simpl. eexists. split; [done|]. intros _ Hz.
      apply Z.eqb_neq in Hmk. done.
Qed.

(** C10.  With [uid] and [gid] both non-zero [tagfs_dir_create] returns -1 on
    every path through it, also when [mkdir] (and [chown]) succeeded and the
    directory now exists; a return of 0 implies [uid = 0] or [gid = 0]; so
    when replay reaches the creation of a MKDIR entry logged with non-zero
    [uid] and [gid], it reports "unable to create directory" even though the
    directory has been created. *)
Theorem dir_create_nonzero_owner_fails mpt rpath mode uid gid w :
  uid <> 0 -> gid <> 0 ->
  let fullpath := snprintf_path (PATH_MAX - 1) mpt rpath in
  (exists w', tagfs_dir_create K mpt rpath mode uid gid w = Some (-1, w') /\
     (w_fs w !! fullpath = None -> k_mkdir K w fullpath mode = 0 ->
        w_fs w' !! fullpath = Some (mk_inode S_IFDIR (mkdir_mode K mode)))) /\
  (forall uid' gid' w0 w1,
     tagfs_dir_create K mpt rpath mode uid' gid' w0 = Some (0, w1) ->
     uid' = 0 \/ gid' = 0) /\
  (forall i,
     path_is_relative rpath = true ->
     w_fs w !! k_realpath K fullpath = None ->
     let w1 := says w [Msg_play_mkdir i rpath; Msg_creating_directory rpath] in
     exists w',
       play_mkdir K mpt 0 i (mk_mkdir rpath mode uid gid) w = Some (tt, w') /\
       last (w_out w') = Some (Msg_unable_create_directory rpath) /\
       (w_fs w !! fullpath = None -> k_mkdir K w1 fullpath mode = 0 ->
          w_fs w' !! fullpath = Some (mk_inode S_IFDIR (mkdir_mode K mode)))).
Proof.
  intros Huid Hgid fullpath.
  split; [by apply tagfs_dir_create_nonzero|]. split.
  - intros uid' gid' w0 w1 Hret.
    destruct (decide (uid' = 0)) as [|Hu]; [auto|].
    destruct (decide (gid' = 0)) as [|Hg]; [auto|].
    destruct (tagfs_dir_create_nonzero mpt rpath mode uid' gid' w0 Hu Hg)
      as (w' & Heq & _).
    rewrite Heq in Hret. inversion Hret.
  - intros i Hrel Hstat w1.
    unfold play_mkdir, tagfs_log_entry_md_path_is_relative. simpl.
    rewrite Hrel. simpl. fold fullpath.
    rewrite (bindM_eq _ _ _ _ _ (print_eq _ _)).
    rewrite (bindM_eq (sys_stat _) _ _ None (says w [Msg_play_mkdir i rpath]))
      by (unfold sys_stat; simpl; by rewrite Hstat).
    rewrite (bindM_eq _ _ _ _ _ (print_eq _ _)), says_says. simpl app. fold w1.
    destruct (tagfs_dir_create_nonzero mpt rpath mode uid gid w1 Huid Hgid)
      as (w' & Hcreate & Hdir).
    rewrite (bindM_eq _ _ _ _ _ Hcreate). simpl. rewrite print_eq.
    eexists. split; [done|]. split.
    + simpl. apply last_snoc.
    + simpl. exact Hdir.
Qed.

(** Number of extents with offset 0 among the first [n] of an entry. *)
Definition zero_offsets (ext : list tagfs_log_extent) (n : Z) : nat :=
  length (filter (fun x => tagfs_extent_offset (se x) = 0) (take (Z.to_nat n) ext)).

Lemma says_cons w m ms : says (says w [m]) ms = says w (m :: ms).
Proof. by rewrite says_says. Qed.

Lemma check_extents_eq relpath ext : forall j n skip w,
  (Z.to_nat (n - j) <= length ext)%nat ->
  check_extents relpath ext j n skip w =
  Some (skip + Z.of_nat (zero_offsets ext (n - j)),
        says w (replicate (zero_offsets ext (n - j)) (Msg_zero_offset relpath))).
Proof.
  induction ext as [|x rest IH]; intros j n skip w Hlen.
  - simpl in Hlen. cbn [check_extents].
    rewrite (proj2 (Z.ltb_ge j n)) by lia.
    unfold zero_offsets. rewrite take_nil. simpl.
    by rewrite Z.add_0_r, says_nil.
  - cbn [check_extents]. destruct (j <? n) eqn:Hj.
    + apply Z.ltb_lt in Hj. simpl in Hlen.
      assert (Hs : Z.to_nat (n - j) = S (Z.to_nat (n - (j + 1)))) by lia.
      unfold zero_offsets. rewrite Hs. cbn [take].
      rewrite filter_cons. destruct (Z.eqb_spec (tagfs_extent_offset (se x)) 0) as [Hz|Hz].
      * rewrite decide_True by done.
        rewrite (bindM_eq _ _ _ _ _ (print_eq _ _)).
        rewrite IH by lia. unfold zero_offsets. cbn [length replicate].
        rewrite says_cons. f_equal. f_equal. lia.
      * rewrite decide_False by done. rewrite IH by lia. done.
    + apply Z.ltb_ge in Hj. unfold zero_offsets.
      replace (Z.to_nat (n - j)) with 0%nat by lia. simpl.
      by rewrite Z.add_0_r, says_nil.
Qed.

Lemma check_extents_Some relpath ext : forall j n skip w r,
  check_extents relpath ext j n skip w = Some r ->
  (Z.to_nat (n - j) <= length ext)%nat.
Proof.
  induction ext as [|x rest IH]; intros j n skip w r H; cbn [check_extents] in H.
  - destruct (j <? n) eqn:Hj; [done|]. apply Z.ltb_ge in Hj. lia.
  - destruct (j <? n) eqn:Hj.
    + apply Z.ltb_lt in Hj. simpl.
      destruct (tagfs_extent_offset (se x) =? 0).
      * apply bindM_Some in H as (? & ? & _ & H). apply IH in H. lia.
      * apply IH in H. lia.
    + apply Z.ltb_ge in Hj. lia.
Qed.

(** The diagnostics of a FILE entry up to the decision to skip it. *)
Definition file_checks (i : Z) (fc : tagfs_file_creation) : list msg :=
  Msg_play_file i (tagfs_relpath fc) (tagfs_fc_size fc)
  :: (if path_is_relative (tagfs_relpath fc) then [] else [Msg_path_not_relative])
  ++ replicate (zero_offsets (tagfs_ext_list fc) (tagfs_nextents fc))
               (Msg_zero_offset (tagfs_relpath fc)).

(** A FILE entry replay accepts: relative path, no extent at offset 0. *)
Definition file_accepted (fc : tagfs_file_creation) : bool :=
  path_is_relative (tagfs_relpath fc)
  && bool_decide (zero_offsets (tagfs_ext_list fc) (tagfs_nextents fc) = 0%nat).

Lemma play_file_checks mpt dry_run i fc w :
  (Z.to_nat (tagfs_nextents fc) <= length (tagfs_ext_list fc))%nat ->
  exists skip_file k,
    play_file K mpt dry_run i fc w = k (says w (file_checks i fc)) /\
    (skip_file = 0 <-> file_accepted fc = true) /\
    k = (fun w' =>
      (if negb (skip_file =? 0) then ret tt
       else
         let fullpath := snprintf_path (PATH_MAX - 1) mpt (tagfs_relpath fc) in
         let rpath := k_realpath K fullpath in
         if negb (dry_run =? 0) then ret tt
         else
           let* st := sys_stat rpath in
           match st with
           | Some _ => print (Msg_file_exists rpath)
           | None =>
               let* _ := print (Msg_creating_file (tagfs_relpath fc) (fc_mode fc)) in
               let* fd := tagfs_file_create K rpath (fc_mode fc) (fc_uid fc) (fc_gid fc) in
               if fd <? 0 then
                 let* _ := print (Msg_unable_create_destfile (tagfs_relpath fc)) in
                 sys_unlink K rpath
               else
                 match build_el (tagfs_ext_list fc) (tagfs_ext_list fc) 0
                                (tagfs_nextents fc) with
                 | None => abort
                 | Some el =>
                     let* _ := tagfs_file_map_create K rpath fd (tagfs_fc_size fc)
                                 (to_int (tagfs_nextents fc)) el TAGFS_REG in
                     ret tt
                 end
           end) w').
Proof.
  intros Hlen. unfold play_file, tagfs_log_entry_fc_path_is_relative, file_checks,
    file_accepted.
  set (c := zero_offsets (tagfs_ext_list fc) (tagfs_nextents fc)).
  rewrite (bindM_eq _ _ _ _ _ (print_eq _ _)).
  destruct (path_is_relative (tagfs_relpath fc)) eqn:Hrel; simpl negb; cbv iota.
  - exists (0 + Z.of_nat c). eexists. split; [|split; [|reflexivity]].
    + unfold bindM at 1. unfold ret at 1.
      unfold bindM at 1. rewrite check_extents_eq by (rewrite Z.sub_0_r; done).
      rewrite Z.sub_0_r. fold c. rewrite says_cons. simpl app. done.
    + simpl. split.
      * intros Hc. apply bool_decide_eq_true. lia.
      * intros Hc. apply bool_decide_eq_true in Hc. lia.
  - exists (1 + Z.of_nat c). eexists. split; [|split; [|reflexivity]].
    + unfold bindM at 1. unfold bindM at 1.
      rewrite print_eq. unfold ret at 1.
      unfold bindM at 1. rewrite check_extents_eq by (rewrite Z.sub_0_r; done).
      rewrite Z.sub_0_r. fold c. rewrite !says_says. simpl app. done.
    + simpl. split; [lia|done].
Qed.

Lemma play_file_Some mpt dry_run i fc w r :
  play_file K mpt dry_run i fc w = Some r ->
  (Z.to_nat (tagfs_nextents fc) <= length (tagfs_ext_list fc))%nat.
Proof.
  unfold play_file. intros H.
  apply bindM_Some in H as (? & ? & _ & H).
  apply bindM_Some in H as (? & ? & _ & H).
  apply bindM_Some in H as (? & ? & H & _).
  apply check_extents_Some in H. by rewrite Z.sub_0_r in H.
Qed.

Lemma file_accepted_false fc :
  file_accepted fc = false <->
  path_is_relative (tagfs_relpath fc) = false \/
  exists x, x ∈ take (Z.to_nat (tagfs_nextents fc)) (tagfs_ext_list fc) /\
            tagfs_extent_offset (se x) = 0.
Proof.
  unfold file_accepted, zero_offsets. split.
  - intros H. apply andb_false_iff in H as [H|H]; [by left|]. right.
    apply bool_decide_eq_false in H.
    destruct (filter _ _) as [|x l] eqn:Hf; [done|].
    assert (x ∈ filter (fun x => tagfs_extent_offset (se x) = 0)
                (take (Z.to_nat (tagfs_nextents fc)) (tagfs_ext_list fc)))
      as Hin by (rewrite Hf; left).
    apply list_elem_of_filter in Hin as [Hz Hin]. by exists x.
  - intros [H|(x & Hin & Hz)]; apply andb_false_iff; [by left|]. right.
    apply bool_decide_eq_false. intros Hlen.
    apply nil_length_inv in Hlen.
    assert (x ∈ filter (fun x => tagfs_extent_offset (se x) = 0)
                (take (Z.to_nat (tagfs_nextents fc)) (tagfs_ext_list fc)))
      as Hin' by (apply list_elem_of_filter; done).
    rewrite Hlen in Hin'. by apply elem_of_nil in Hin'.
Qed.

(** A path that begins with '/' is not relative. *)
Lemma path_is_relative_absolute s : path_is_relative (String "/" s) = false.
Proof. reflexivity. Qed.

(** The only failure [tagfs_logplay] returns is the refusal of a full log:
    nothing an entry holds makes it return an error. *)
Lemma tagfs_logplay_rc logp mpt dry_run w rc w' :
  tagfs_logplay K logp mpt dry_run w = Some (rc, w') ->
  tagfs_log_full logp = false -> rc = 0.
Proof.
  unfold tagfs_logplay. intros H Hfull. rewrite Hfull in H.
  apply bindM_Some in H as (? & ? & _ & H).
  apply bindM_Some in H as (? & ? & _ & H).
  apply bindM_Some in H as (? & ? & _ & H).
  by inversion H.
Qed.

(** C7.  A FILE entry whose path is not relative (it begins with '/', or is
    empty) or one of whose extents has offset 0 is skipped: processing it
    only prints diagnostics, it leaves the name space and the ioctl
    interface untouched, the loop goes on with the next entry, and the
    return value of the replay is not affected. *)
Theorem logplay_skips_rejected_file mpt dry_run i le fc rest next_index nlog w :
  tagfs_log_entry_body le = TAGFS_LOG_FILE fc ->
  (path_is_relative (tagfs_relpath fc) = false \/
   exists x, x ∈ take (Z.to_nat (tagfs_nextents fc)) (tagfs_ext_list fc) /\
             tagfs_extent_offset (se x) = 0) ->
  (Z.to_nat (tagfs_nextents fc) <= length (tagfs_ext_list fc))%nat ->
  i < next_index ->
  exists w',
    play_entry K mpt dry_run i le w = Some (tt, w') /\
    w_fs w' = w_fs w /\ w_ioctls w' = w_ioctls w /\
    play_loop K mpt dry_run (le :: rest) i next_index nlog w
      = play_loop K mpt dry_run rest (i + 1) next_index (nlog + 1) w' /\
    (forall logp w0 rc w1,
       tagfs_logplay K logp mpt dry_run w0 = Some (rc, w1) ->
       tagfs_log_full logp = false -> rc = 0).
Proof.
  intros Hbody Hbad Hlen Hi.
  apply file_accepted_false in Hbad.
  destruct (play_file_checks mpt dry_run i fc w Hlen) as (skip & k & Hplay & Hskip & ->).
  assert (Hnz : (skip =? 0) = false).
  { apply Z.eqb_neq. intros Hz. apply Hskip in Hz. congruence. }
  rewrite Hnz in Hplay. simpl in Hplay.
  exists (says w (file_checks i fc)).
  assert (Hentry : play_entry K mpt dry_run i le w
                   = Some (tt, says w (file_checks i fc))).
  { unfold play_entry. rewrite Hbody. exact Hplay. }
  split; [exact Hentry|]. split; [done|]. split; [done|]. split.
  - cbn [play_loop]. rewrite (proj2 (Z.ltb_lt i next_index)) by done.
    by rewrite (bindM_eq _ _ _ _ _ Hentry).
  - intros logp w0 rc w1. apply tagfs_logplay_rc.
Qed.

(** The path replay would create for an entry it accepts: the resolved
    [<mpt>/<relpath>] of a FILE entry with a relative path and no extent at
    offset 0, or of a MKDIR entry with a relative path. *)
Definition entry_target (mpt : string) (le : tagfs_log_entry) : option string :=
  match tagfs_log_entry_body le with
  | TAGFS_LOG_FILE fc =>
      if file_accepted fc
      then Some (k_realpath K (snprintf_path (PATH_MAX - 1) mpt (tagfs_relpath fc)))
      else None
  | TAGFS_LOG_MKDIR md =>
      if path_is_relative (md_relpath md)
      then Some (k_realpath K (snprintf_path (PATH_MAX - 1) mpt (md_relpath md)))
      else None
  | TAGFS_LOG_ACCESS | TAGFS_LOG_INVALID => None
  end.

(** The "already exists" diagnostics of replay. *)
Definition reports_existing (m : msg) (p : string) : Prop :=
  m = Msg_file_exists p \/ m = Msg_dir_exists p \/
  m = Msg_file_where_dir p \/ m = Msg_something_where_dir p.

Lemma play_entry_present mpt i le w wa r :
  play_entry K mpt 0 i le wa = Some r ->
  (forall p, entry_target mpt le = Some p -> is_Some (w_fs w !! p)) ->
  exists ms, play_entry K mpt 0 i le w = Some (tt, says w ms) /\
    forall p, entry_target mpt le = Some p ->
      exists m, m ∈ ms /\ reports_existing m p.
Proof.
  unfold play_entry, entry_target.
  destruct (tagfs_log_entry_body le) as [fc|md| |]; intros Hrun Hpresent.
  - apply play_file_Some in Hrun.
    destruct (play_file_checks mpt 0 i fc w Hrun) as (skip & k & Hplay & Hskip & ->).
    rewrite Hplay. clear Hplay.
    destruct (file_accepted fc) eqn:Hacc.
    + rewrite (proj2 Hskip) by done. simpl.
      set (rpath := k_realpath K _) in *.
      destruct (Hpresent rpath eq_refl) as [ino Hino].
      rewrite (bindM_eq (sys_stat rpath) _ _ (Some ino) (says w (file_checks i fc)))
        by (unfold sys_stat; simpl; by rewrite Hino).
      rewrite print_eq, says_says. eexists. split; [done|].
      intros p [= <-]. exists (Msg_file_exists rpath). split.
      * apply elem_of_app. right. apply list_elem_of_singleton. done.
      * by left.
    + assert ((skip =? 0) = false) as ->.
      { apply Z.eqb_neq. intros Hz. apply Hskip in Hz. congruence. }
      simpl. eexists. split; [done|]. intros p [=].
  - unfold play_mkdir, tagfs_log_entry_md_path_is_relative in *.
    rewrite (bindM_eq _ _ _ _ _ (print_eq _ _)).
    destruct (path_is_relative (md_relpath md)) eqn:Hrel; simpl.
    + set (rpath := k_realpath K _) in *.
      destruct (Hpresent rpath eq_refl) as [ino Hino].
      rewrite (bindM_eq (sys_stat rpath) _ _ (Some ino)
                 (says w [Msg_play_mkdir i (md_relpath md)]))
        by (unfold sys_stat; simpl; by rewrite Hino).
      destruct (i_kind ino); rewrite print_eq, says_says; simpl app;
        (eexists; split; [done|]); intros p [= <-];
        eexists; (split; [apply list_elem_of_further, list_elem_of_here|]);
        unfold reports_existing; auto.
    + rewrite print_eq, says_says. eexists. split; [done|]. intros p [=].
  - rewrite print_eq. eexists. split; [done|]. intros p [=].
  - rewrite print_eq. eexists. split; [done|]. intros p [=].
Qed.

Lemma play_loop_present mpt es : forall i next_index nlog nlog' w wa r,
  play_loop K mpt 0 es i next_index nlog' wa = Some r ->
  (forall le p, le ∈ take (Z.to_nat (next_index - i)) es ->
     entry_target mpt le = Some p -> is_Some (w_fs w !! p)) ->
  exists n ms, play_loop K mpt 0 es i next_index nlog w = Some (n, says w ms) /\
    forall le p, le ∈ take (Z.to_nat (next_index - i)) es ->
      entry_target mpt le = Some p -> exists m, m ∈ ms /\ reports_existing m p.
Proof.
  induction es as [|le rest IH]; intros i next_index nlog nlog' w wa r Hrun Hpresent;
    cbn [play_loop] in *.
  - destruct (i <? next_index); [done|]. exists nlog, [].
    rewrite says_nil. split; [done|]. intros le p Hin.
    rewrite take_nil in Hin. by apply elem_of_nil in Hin.
  - destruct (i <? next_index) eqn:Hi.
    + apply Z.ltb_lt in Hi.
      assert (Hs : Z.to_nat (next_index - i) = S (Z.to_nat (next_index - (i + 1))))
        by lia.
      rewrite Hs in *. cbn [take] in *.
      apply bindM_Some in Hrun as ([] & wa' & Hentry & Hrest).
      destruct (play_entry_present mpt i le w wa _ Hentry) as (ms1 & Hplay & Hrep1).
      { intros p Hp. apply (Hpresent le p); [left|done]. }
      destruct (IH (i + 1) next_index (nlog + 1) _ (says w ms1) _ _ Hrest)
        as (n & ms2 & Hloop & Hrep2).
      { intros le' p Hin Hp. simpl. apply (Hpresent le' p); [by right|done]. }
      exists n, (ms1 ++ ms2).
      rewrite (bindM_eq _ _ _ _ _ Hplay), Hloop, says_says. split; [done|].
      intros le' p Hin Hp. apply elem_of_cons in Hin as [->|Hin].
      * destruct (Hrep1 p Hp) as (m & Hm & Hr). exists m. split; [|done].
        apply elem_of_app. by left.
      * destruct (Hrep2 le' p Hin Hp) as (m & Hm & Hr). exists m. split; [|done].
        apply elem_of_app. by right.
    + apply Z.ltb_ge in Hi. exists nlog, []. rewrite says_nil. split; [done|].
      intros le' p Hin. replace (Z.to_nat (next_index - i)) with 0%nat in Hin by lia.
      by apply elem_of_nil in Hin.
Qed.

(** C8 (as amended).  Let a first replay return success and leave in place
    the target of every entry it accepts (a FILE entry with a relative path
    and no extent at offset 0, a MKDIR entry with a relative path).  Then a
    second replay of the same log on the same mount point also returns
    success, creates and removes nothing, issues no ioctl, and reports each
    of these targets as already existing; it only adds diagnostics. *)
Theorem logplay_second_pass_idempotent logp mpt w0 w1 :
  tagfs_logplay K logp mpt 0 w0 = Some (0, w1) ->
  (forall le p,
     le ∈ take (Z.to_nat (tagfs_log_next_index logp)) (entries logp) ->
     entry_target mpt le = Some p -> is_Some (w_fs w1 !! p)) ->
  exists ms,
    tagfs_logplay K logp mpt 0 w1 = Some (0, says w1 ms) /\
    w_fs (says w1 ms) = w_fs w1 /\
    w_ioctls (says w1 ms) = w_ioctls w1 /\
    forall le p,
      le ∈ take (Z.to_nat (tagfs_log_next_index logp)) (entries logp) ->
      entry_target mpt le = Some p ->
      exists m, m ∈ ms /\ reports_existing m p.
Proof.
  unfold tagfs_logplay. intros Hfirst Hpresent.
  destruct (tagfs_log_full logp).
  { apply bindM_Some in Hfirst as (? & ? & _ & Hret). inversion Hret. }
  apply bindM_Some in Hfirst as ([] & wa & _ & Hfirst).
  apply bindM_Some in Hfirst as (n1 & wb & Hloop1 & _).
  rewrite (bindM_eq _ _ _ _ _ (print_eq _ _)).
  destruct (play_loop_present mpt (entries logp) 0 (tagfs_log_next_index logp) 0 0
              (says w1 [Msg_log_contains (tagfs_log_next_index logp)]) wa _ Hloop1)
    as (n & ms & Hloop & Hrep).
  { intros le p Hin Hp. rewrite Z.sub_0_r in Hin. simpl. eauto. }
  rewrite (bindM_eq _ _ _ _ _ Hloop), (bindM_eq _ _ _ _ _ (print_eq _ _)).
  rewrite !says_says. eexists. split; [done|]. split; [done|]. split; [done|].
  intros le p Hin Hp. rewrite <- (Z.sub_0_r (tagfs_log_next_index logp)) in Hin.
  destruct (Hrep le p Hin Hp) as (m & Hm & Hr). exists m. split; [|done].
  apply list_elem_of_further, elem_of_app. left. done.
Qed.

End ReplayFacts.

(** ** File allocation *)

(** [tagfs_relpath_from_fullpath].  [fullpath] is the pointer [realpath]
    returned; the outer [option] is the outcome of the assertions, the inner
    one the returned pointer. *)
Definition tagfs_relpath_from_fullpath (mpt : string) (fullpath : option string)
  : option (option string) :=
  match fullpath with
  | None => None
  | Some f =>
      if negb (String.length mpt <? String.length f)%nat then None
      else if negb (String.prefix mpt f) then Some None
      else Some (Some (String.substring (String.length mpt + 1)
                         (String.length f - (String.length mpt + 1)) f))
  end.

(** The slot of an extent array that nothing was written to. *)
Definition blank_log_extent : tagfs_log_extent :=
  mk_log_extent TAGFS_EXT_NONE (mk_simple_extent 0 0).

(** [for (i = 0; i < nextents; i++)] of [tagfs_log_file_creation]: the
    extents copied into the log entry, read from [ext_list[i]] on. *)
Fixpoint copy_extents (src : list tagfs_simple_extent) (i nextents : Z)
  : option (list tagfs_log_extent) :=
  if i <? nextents then
    match src with
    | [] => None
    | x :: rest =>
        tl ← copy_extents rest (i + 1) nextents;
        Some (mk_log_extent TAGFS_EXT_SIMPLE x :: tl)
    end
  else Some [].

(** What the process found on its way to the log: the results of
    [realpath(path, NULL)], of [open_log_file_writable] (descriptor and mount
    point), of [mmap], and of [tagfs_validate_superblock_by_path]. *)
Record alloc_env := mk_alloc_env {
  ae_rpath       : option string;
  ae_lfd         : Z;
  ae_mpt         : string;
  ae_mmap_failed : bool;
  ae_daxdevsize  : Z;
}.

Section FileAlloc.

Variable K : kernel.

(** Constants of tagfs_meta.h. *)
Variable TAGFS_ALLOC_UNIT : Z.
Variable TAGFS_SUPERBLOCK_SIZE : Z.
Variable TAGFS_LOG_OFFSET : Z.
Variable TAGFS_LOG_LEN : Z.
Variable TAGFS_LOG_MAGIC : Z.
Variable TAGFS_FC_ALL_HOSTS_RW : Z.
Variable TAGFS_MAX_PATHLEN : Z.
Variable TAGFS_FC_MAX_EXTENTS : Z.

(** [tagfs_log_file_creation] *)
Definition tagfs_log_file_creation (logp : tagfs_log) (nextents : Z)
    (ext_list : list tagfs_simple_extent) (relpath : string)
    (mode uid gid size : Z) : option (Z * tagfs_log) :=
  if nextents <? 1 then None
  else if String.prefix "/" relpath then None
  else if tagfs_log_full logp then Some (- ENOMEM, logp)
  else
    copied ← copy_extents ext_list 0 nextents;
    if TAGFS_FC_MAX_EXTENTS <? Z.of_nat (length copied) then None
    else
      let fc :=
        {| tagfs_fc_size := size;
           tagfs_nextents := nextents;
           tagfs_fc_flags := TAGFS_FC_ALL_HOSTS_RW;
           tagfs_relpath := strncpy relpath (TAGFS_MAX_PATHLEN - 1);
           fc_mode := mode;
           fc_uid := uid;
           fc_gid := gid;
           tagfs_ext_list :=
             copied ++ replicate (Z.to_nat TAGFS_FC_MAX_EXTENTS - length copied)
                                 blank_log_extent |} in
      let le := mk_log_entry 0 (TAGFS_LOG_FILE fc) in
      match tagfs_append_log TAGFS_LOG_MAGIC (Some logp) (Some le) with
      | (rc, Some logp') => Some (rc, logp')
      | (rc, None) => Some (rc, logp)
      end.

(** [tagfs_file_alloc]: the return code and the log as the call leaves it. *)
Definition tagfs_file_alloc (env : alloc_env) (logp : tagfs_log) (fd : Z)
    (path : string) (mode uid gid size : Z) : M (Z * tagfs_log) :=
  if fd <=? 0 then abort
  else if ae_lfd env <? 0 then ret (ae_lfd env, logp)
  else if ae_mmap_failed env then ret (-1, logp)
  else
    match tagfs_relpath_from_fullpath (ae_mpt env) (ae_rpath env) with
    | None => abort
    | Some None => ret (- EINVAL, logp)
    | Some (Some relpath) =>
        match tagfs_alloc_bypath TAGFS_ALLOC_UNIT TAGFS_SUPERBLOCK_SIZE
                TAGFS_LOG_OFFSET TAGFS_LOG_LEN logp (ae_daxdevsize env) size with
        | None => abort
        | Some offset =>
            if offset <? 0 then ret (- ENOMEM, logp)
            else
              let ext := mk_simple_extent (u64 offset)
                           (round_size_to_alloc_unit TAGFS_ALLOC_UNIT size) in
              match tagfs_log_file_creation logp 1 [ext] relpath mode uid gid size with
              | None => abort
              | Some (rc, logp') =>
                  if negb (rc =? 0) then ret (rc, logp')
                  else
                    let* rc := tagfs_file_map_create K path fd size 1 [ext] TAGFS_REG in
                    ret (rc, logp')
              end
        end
    end.

End FileAlloc.

(** ** Properties of file allocation *)

Arguments tagfs_append_log : simpl never.
Arguments tagfs_alloc_bypath : simpl never.
Arguments round_size_to_alloc_unit : simpl never.

Section FileAllocFacts.

Variable K : kernel.
Variable TAGFS_ALLOC_UNIT : Z.
Variable TAGFS_SUPERBLOCK_SIZE : Z.
Variable TAGFS_LOG_OFFSET : Z.
Variable TAGFS_LOG_LEN : Z.
Variable TAGFS_LOG_MAGIC : Z.
Variable TAGFS_FC_ALL_HOSTS_RW : Z.
Variable TAGFS_MAX_PATHLEN : Z.
Variable TAGFS_FC_MAX_EXTENTS : Z.

Local Abbreviation AU := TAGFS_ALLOC_UNIT.
Local Abbreviation log_file_creation :=
  (tagfs_log_file_creation TAGFS_LOG_MAGIC TAGFS_FC_ALL_HOSTS_RW
     TAGFS_MAX_PATHLEN TAGFS_FC_MAX_EXTENTS).
Local Abbreviation file_alloc :=
  (tagfs_file_alloc K TAGFS_ALLOC_UNIT TAGFS_SUPERBLOCK_SIZE TAGFS_LOG_OFFSET
     TAGFS_LOG_LEN TAGFS_LOG_MAGIC TAGFS_FC_ALL_HOSTS_RW TAGFS_MAX_PATHLEN
     TAGFS_FC_MAX_EXTENTS).

(** [round_size_to_alloc_unit] yields the least multiple of the allocation
    unit that is not below the size, as long as that multiple fits 64
    bits. *)
Lemma round_size_to_alloc_unit_spec size :
  0 < AU -> 0 <= size -> size + AU <= u64_mod ->
  let r := round_size_to_alloc_unit AU size in
  size <= r < size + AU /\ r mod AU = 0.
Proof.
  intros HAU Hsize Hfit r. subst r. unfold round_size_to_alloc_unit.
  rewrite (u64_small (size + AU - 1)) by (unfold is_u64; lia).
  pose proof (Z.div_mod (size + AU - 1) AU ltac:(lia)) as Hdm.
  pose proof (Z.mod_pos_bound (size + AU - 1) AU HAU) as Hmod.
  assert (Hq : 0 <= (size + AU - 1) / AU) by (apply Z.div_pos; lia).
  rewrite u64_small by (unfold is_u64; nia).
  split; [nia|]. apply Z.mod_mul. lia.
Qed.

(** A logged file creation with one extent: the entry written at
    [next_index]. *)
Lemma tagfs_log_file_creation_one logp ext relpath mode uid gid size logp' :
  log_file_creation logp 1 [ext] relpath mode uid gid size = Some (0, logp') ->
  exists fc,
    entries logp' = <[Z.to_nat (tagfs_log_next_index logp) :=
                        mk_log_entry (tagfs_log_next_seqnum logp) (TAGFS_LOG_FILE fc)]>
                      (entries logp) /\
    tagfs_fc_size fc = size /\
    tagfs_nextents fc = 1 /\
    tagfs_ext_list fc !! 0%nat = Some (mk_log_extent TAGFS_EXT_SIMPLE ext).
Proof.
  unfold tagfs_log_file_creation. simpl.
  destruct (String.prefix "/" relpath); [done|].
  destruct (tagfs_log_full logp); [intros [=]|].
  destruct (TAGFS_FC_MAX_EXTENTS <? Z.of_nat 1); [done|].
  match goal with
  | |- context [tagfs_append_log _ (Some logp) (Some ?e)] => set (le := e)
  end.
  destruct (tagfs_append_log TAGFS_LOG_MAGIC (Some logp) (Some le))
    as [rc [l1|]] eqn:Happ; intros [= -> ->].
  - apply tagfs_append_log_step in Happ as (Hent & _).
    eexists. split; [exact Hent|]. done.
  - unfold tagfs_append_log in Happ. repeat case_bool_decide; inversion Happ.
Qed.

(** C6.  When [tagfs_file_alloc] succeeds for a request of [size] bytes, the
    FILE entry it appended (at the old [next_index]) holds one extent whose
    length is [size] rounded up to the allocation unit, while the entry's
    file size is [size] itself; the same two values go to the map-create
    ioctl. *)
Theorem file_alloc_logs_rounded_extent env logp fd path mode uid gid size w logp' w' :
  file_alloc env logp fd path mode uid gid size w = Some ((0, logp'), w') ->
  (Z.to_nat (tagfs_log_next_index logp) < length (entries logp))%nat ->
  exists seq fc offset,
    entries logp' !! Z.to_nat (tagfs_log_next_index logp)
      = Some (mk_log_entry seq (TAGFS_LOG_FILE fc)) /\
    tagfs_nextents fc = 1 /\
    tagfs_ext_list fc !! 0%nat
      = Some (mk_log_extent TAGFS_EXT_SIMPLE
                (mk_simple_extent offset (round_size_to_alloc_unit AU size))) /\
    tagfs_fc_size fc = size /\
    last (w_ioctls w') =
      Some (fd, TAGFSIOC_MAP_CREATE
                  (mk_ioc_map TAGFS_REG size FSDAX_EXTENT 1
                     [mk_simple_extent offset (round_size_to_alloc_unit AU size)])) /\
    (0 < AU -> 0 <= size -> size + AU <= u64_mod ->
       size <= round_size_to_alloc_unit AU size < size + AU /\
       round_size_to_alloc_unit AU size mod AU = 0).
Proof.
  unfold tagfs_file_alloc. intros Hrun Hcap.
  destruct (fd <=? 0) eqn:Hfd; [done|].
  destruct (ae_lfd env <? 0) eqn:Hlfd.
  { apply Z.ltb_lt in Hlfd. inversion Hrun. lia. }
  destruct (ae_mmap_failed env); [by inversion Hrun|].
  destruct (tagfs_relpath_from_fullpath _ _) as [[relpath|]|]; [|by inversion Hrun|done].
  destruct (tagfs_alloc_bypath _ _ _ _ _ _ _) as [offset|]; [|done].
  destruct (offset <? 0); [by inversion Hrun|].
  destruct (log_file_creation _ _ _ _ _ _ _ _) as [[rc l1]|] eqn:Hlog; [|done].
  destruct (rc =? 0) eqn:Hrc; simpl in Hrun; [|inversion Hrun; subst; done].
  apply Z.eqb_eq in Hrc. subst rc.
  apply bindM_Some in Hrun as (rc2 & w2 & Hmap & Hret).
  inversion Hret; subst rc2 l1 w2; clear Hret.
  apply tagfs_log_file_creation_one in Hlog as (fc & Hent & Hsz & Hn & Hext).
  exists (tagfs_log_next_seqnum logp), fc, (u64 offset).
  split; [by rewrite Hent, list_lookup_insert_eq|].
  split; [done|]. split; [done|]. split; [done|]. split.
  - unfold tagfs_file_map_create in Hmap. rewrite Hfd in Hmap. simpl in Hmap.
    apply bindM_Some in Hmap as (rc & w3 & Hio & Hrest).
    unfold sys_ioctl in Hio. inversion Hio; subst rc w3; clear Hio.
    apply bindM_Some in Hrest as ([] & w4 & Hpr & Hret).
    inversion Hret; subst w4. rewrite H0 in Hpr. simpl in Hpr.
    inversion Hpr; subst w'. simpl. apply last_snoc.
  - apply round_size_to_alloc_unit_spec.
Qed.

End FileAllocFacts.

(** ** Concrete runs *)

(** The reference layout of the specification: a 2 MiB allocation unit, the
    log right after a superblock of one unit; an 8 MiB log. *)
Definition sample_superblock_size : Z := 2097152.
Definition sample_log_offset : Z := 2097152.
Definition sample_log_len : Z := 8388608.
Definition sample_flags : Z := 1.
Definition sample_max_pathlen : Z := 80.
Definition sample_max_extents : Z := 8.

Definition MiB : Z := 1048576.
Definition GiB : Z := 1073741824.

(** A kernel on which every call succeeds; [open] hands out descriptor 3,
    paths are already canonical and the umask is 022. *)
Definition sample_kernel : kernel :=
  mk_kernel (fun p => p) (fun _ _ _ => 3) (fun _ _ _ => 0)
            (fun _ _ _ _ => 0) (fun _ _ _ _ => 0) (fun _ _ _ => 0)
            (fun _ _ => 0) 18.

Definition empty_world : world := mk_world ∅ [] [].

(** A process that created [/mnt/tagfs/foo] on a tagfs mounted at
    [/mnt/tagfs], over a device of [dev] bytes. *)
Definition sample_env (dev : Z) : alloc_env :=
  mk_alloc_env (Some "/mnt/tagfs/foo") 4 "/mnt/tagfs" false dev.

Definition sample_file_alloc (dev size : Z) : option (Z * tagfs_log * world) :=
  tagfs_file_alloc sample_kernel sample_alloc_unit sample_superblock_size
    sample_log_offset sample_log_len sample_magic sample_flags
    sample_max_pathlen sample_max_extents
    (sample_env dev) sample_empty_log 5 "/mnt/tagfs/foo" 420 1000 1000 size
    empty_world.

(** C2 (the code departs from the specification).  On a 1 GiB device a request for
    2 GiB finds no fit: the allocator returns 0 and so does
    [tagfs_alloc_bypath].  [tagfs_file_alloc] tests [offset < 0] only, so it
    does not fail with [-ENOMEM]: it appends a FILE entry whose extent has
    offset 0 and returns what the map-create ioctl returned. *)
Theorem file_alloc_ignores_zero_sentinel :
  tagfs_alloc_bypath sample_alloc_unit sample_superblock_size sample_log_offset
    sample_log_len sample_empty_log GiB (2 * GiB) = Some 0 /\
  exists logp' w' fc,
    sample_file_alloc GiB (2 * GiB) = Some (0, logp', w') /\
    tagfs_log_next_index logp' = 1 /\
    entries logp' !! 0%nat = Some (mk_log_entry 0 (TAGFS_LOG_FILE fc)) /\
    tagfs_relpath fc = "foo" /\
    tagfs_ext_list fc !! 0%nat
      = Some (mk_log_extent TAGFS_EXT_SIMPLE (mk_simple_extent 0 (2 * GiB))).
Proof.
  split; [vm_compute; reflexivity|].
  eexists _, _, _. split; [vm_compute; reflexivity|].
  repeat split.
Qed.

(** *** Allocator *)

Definition sample_file_entry (relpath : string) (offset len size : Z) : tagfs_log_entry :=
  mk_log_entry 0
    (TAGFS_LOG_FILE
       (mk_file_creation size 1 sample_flags relpath 420 0 0
          [mk_log_extent TAGFS_EXT_SIMPLE (mk_simple_extent offset len)])).

(** One 3 MiB file in the first free units, then a directory. *)
Definition sample_file_log : tagfs_log :=
  mk_log sample_magic 2 2 3
    [sample_file_entry "foo" (10 * MiB) (3 * MiB) (3 * MiB);
     sample_mkdir_entry; blank_entry; blank_entry].

(** Two files that share unit 6: [foo] on units 5 and 6, [bar] on units 6
    and 7. *)
Definition sample_colliding_log : tagfs_log :=
  mk_log sample_magic 2 2 3
    [sample_file_entry "foo" (10 * MiB) (3 * MiB) (3 * MiB);
     sample_file_entry "bar" (12 * MiB) (3 * MiB) (3 * MiB);
     blank_entry; blank_entry].

Lemma build_bitmap_alloc_total_witness :
  (exists r,
     tagfs_build_bitmap sample_alloc_unit sample_superblock_size sample_log_offset
       sample_log_len sample_colliding_log GiB = Some (Some r) /\
     bb_errors r = 1 /\
     bb_alloc_total r = 6 * MiB /\
     bit_at (bb_bitmap r) 7 = true /\ bit_at (bb_bitmap r) 8 = false) /\
  (exists r,
     tagfs_build_bitmap sample_alloc_unit sample_superblock_size sample_log_offset
       sample_log_len sample_file_log GiB = Some (Some r) /\
     bb_errors r = 0 /\
     bb_alloc_total r = log_rounded_total sample_alloc_unit sample_file_log /\
     log_rounded_total sample_alloc_unit sample_file_log = 4 * MiB).
Proof.
  split.
  - assert (exists r,
              tagfs_build_bitmap sample_alloc_unit sample_superblock_size
                sample_log_offset sample_log_len sample_colliding_log GiB
              = Some (Some r)) as [r Hrun].
    { eexists. vm_compute. reflexivity. }
    destruct (build_bitmap_alloc_total sample_alloc_unit sample_superblock_size
                sample_log_offset sample_log_len
                ltac:(unfold sample_alloc_unit; lia)
                sample_colliding_log GiB r Hrun) as (Hbits & He & Ha & _).
    exists r. split; [exact Hrun|].
    split; [rewrite He; vm_compute; reflexivity|].
    split; [rewrite Ha; vm_compute; reflexivity|].
    split; rewrite Hbits by lia; vm_compute; reflexivity.
  - assert (exists r,
              tagfs_build_bitmap sample_alloc_unit sample_superblock_size
                sample_log_offset sample_log_len sample_file_log GiB
              = Some (Some r)) as [r Hrun].
    { eexists. vm_compute. reflexivity. }
    destruct (build_bitmap_alloc_total sample_alloc_unit sample_superblock_size
                sample_log_offset sample_log_len
                ltac:(unfold sample_alloc_unit; lia)
                sample_file_log GiB r Hrun) as (_ & He & _ & _ & Hzero).
    assert (bb_errors r = 0) as He0 by (rewrite He; vm_compute; reflexivity).
    destruct (Hzero He0) as [_ Hfit].
    exists r. split; [exact Hrun|]. split; [exact He0|].
    split; [apply Hfit; by vm_compute | vm_compute; reflexivity].
Defined.


(** *** File allocation: the 3 MiB file of the specification's scenario *)

Lemma file_alloc_logs_rounded_extent_witness :
  exists logp' w' seq fc,
    sample_file_alloc GiB (3 * MiB) = Some (0, logp', w') /\
    entries logp' !! 0%nat = Some (mk_log_entry seq (TAGFS_LOG_FILE fc)) /\
    tagfs_ext_list fc !! 0%nat
      = Some (mk_log_extent TAGFS_EXT_SIMPLE (mk_simple_extent (10 * MiB) (4 * MiB))) /\
    tagfs_fc_size fc = 3 * MiB.
Proof.
  assert (exists logp' w', sample_file_alloc GiB (3 * MiB) = Some (0, logp', w'))
    as (logp' & w' & Hrun).
  { eexists _, _. vm_compute. reflexivity. }
  destruct (file_alloc_logs_rounded_extent sample_kernel sample_alloc_unit
              sample_superblock_size sample_log_offset sample_log_len sample_magic
              sample_flags sample_max_pathlen sample_max_extents
              (sample_env GiB) sample_empty_log 5 "/mnt/tagfs/foo" 420 1000 1000
              (3 * MiB) empty_world logp' w' Hrun
              ltac:(vm_compute; lia))
    as (seq & fc & offset & Hent & _ & Hext & Hsize & _).
  exists logp', w', seq, fc. split; [exact Hrun|]. split; [exact Hent|].
  split; [|exact Hsize].
  rewrite Hext. vm_compute in Hrun. injection Hrun as <- _.
  vm_compute in Hent. injection Hent as _ <-. vm_compute in Hext.
  injection Hext as <-. reflexivity.
Defined.

(** *** Replay *)

(** A full log: [next_index] has passed [last_index]. *)
Definition sample_full_log : tagfs_log :=
  mk_log sample_magic 4 4 3
    [sample_mkdir_entry; sample_mkdir_entry; sample_mkdir_entry; sample_mkdir_entry].

Lemma logplay_refuses_full_log_witness :
  tagfs_logplay sample_kernel sample_full_log "/mnt/tagfs" 0 empty_world
    = Some (-1, says empty_world [Msg_log_empty "/mnt/tagfs"]).
Proof.
  exact (proj1 (logplay_refuses_full_log sample_kernel sample_full_log
                  "/mnt/tagfs" 0 empty_world ltac:(reflexivity))).
Defined.

Lemma dir_create_nonzero_owner_fails_witness :
  exists w',
    tagfs_dir_create sample_kernel "/mnt/tagfs" "d" 493 1000 1000 empty_world
      = Some (-1, w') /\
    w_fs w' !! "/mnt/tagfs/d" = Some (mk_inode S_IFDIR 493).
Proof.
  destruct (proj1 (dir_create_nonzero_owner_fails sample_kernel "/mnt/tagfs" "d"
                     493 1000 1000 empty_world
                     ltac:(discriminate) ltac:(discriminate)))
    as (w' & Hrun & Hdir).
  exists w'. split; [exact Hrun|]. apply Hdir; reflexivity.
Defined.

(** A FILE entry with an absolute path, and one that claims the superblock's
    offset. *)
Definition sample_absolute_entry : tagfs_log_entry :=
  sample_file_entry "/etc/passwd" (10 * MiB) (2 * MiB) (2 * MiB).

Definition sample_zero_offset_entry : tagfs_log_entry :=
  sample_file_entry "bar" 0 (2 * MiB) (2 * MiB).

Lemma logplay_skips_rejected_file_witness :
  exists w',
    play_entry sample_kernel "/mnt/tagfs" 0 0 sample_absolute_entry empty_world
      = Some (tt, w') /\
    w_fs w' = ∅ /\ w_ioctls w' = [] /\
    play_loop sample_kernel "/mnt/tagfs" 0
      [sample_absolute_entry; sample_zero_offset_entry] 0 2 0 empty_world
    = play_loop sample_kernel "/mnt/tagfs" 0 [sample_zero_offset_entry] 1 2 1 w'.
Proof.
  destruct (logplay_skips_rejected_file sample_kernel "/mnt/tagfs" 0 0
              sample_absolute_entry
              (mk_file_creation (2 * MiB) 1 sample_flags "/etc/passwd" 420 0 0
                 [mk_log_extent TAGFS_EXT_SIMPLE
                    (mk_simple_extent (10 * MiB) (2 * MiB))])
              [sample_zero_offset_entry] 2 0 empty_world
              ltac:(reflexivity)
              ltac:(left; reflexivity)
              ltac:(vm_compute; lia)
              ltac:(reflexivity))
    as (w' & Hentry & Hfs & Hio & Hloop & _).
  exists w'. split; [exact Hentry|]. split; [exact Hfs|]. split; [exact Hio|].
  exact Hloop.
Defined.

(** A directory and a file in it, in the order the writer logs them. *)
Definition sample_tree_log : tagfs_log :=
  mk_log sample_magic 2 2 3
    [sample_mkdir_entry;
     sample_file_entry "d/f" (10 * MiB) (2 * MiB) (2 * MiB);
     blank_entry; blank_entry].

Definition world_after (r : option (Z * world)) : world :=
  match r with
  | Some (_, w) => w
  | None => empty_world
  end.

Definition sample_tree_world : world :=
  world_after (tagfs_logplay sample_kernel sample_tree_log "/mnt/tagfs" 0 empty_world).

Lemma logplay_second_pass_idempotent_witness :
  exists ms,
    tagfs_logplay sample_kernel sample_tree_log "/mnt/tagfs" 0 sample_tree_world
      = Some (0, says sample_tree_world ms) /\
    w_fs (says sample_tree_world ms) = w_fs sample_tree_world /\
    (exists m, m ∈ ms /\ reports_existing m "/mnt/tagfs/d") /\
    (exists m, m ∈ ms /\ reports_existing m "/mnt/tagfs/d/f").
Proof.
  destruct (logplay_second_pass_idempotent sample_kernel sample_tree_log
              "/mnt/tagfs" empty_world sample_tree_world)
    as (ms & Hrun & Hfs & _ & Hrep).
  - vm_compute. reflexivity.
  - intros le p Hin Htarget.
    change (take (Z.to_nat (tagfs_log_next_index sample_tree_log))
                 (entries sample_tree_log))
      with [sample_mkdir_entry;
            sample_file_entry "d/f" (10 * MiB) (2 * MiB) (2 * MiB)] in Hin.
    apply elem_of_cons in Hin as [->|Hin].
    + vm_compute in Htarget. injection Htarget as <-. vm_compute. eauto.
    + apply list_elem_of_singleton in Hin as ->.
      vm_compute in Htarget. injection Htarget as <-. vm_compute. eauto.
  - exists ms. split; [exact Hrun|]. split; [exact Hfs|]. split.
    + apply (Hrep sample_mkdir_entry); [apply list_elem_of_here | reflexivity].
    + apply (Hrep (sample_file_entry "d/f" (10 * MiB) (2 * MiB) (2 * MiB)));
        [apply list_elem_of_further, list_elem_of_here | reflexivity].
Defined.

(** C8 without that proviso fails.  Replay returns success whether or not an
    entry could be materialised.  Here the log holds the MKDIR entry of
    [a/b] and no entry for [a] ([tagfs_mkdir] logs nothing for a directory
    made with a non-zero uid and gid), and it is replayed on a mount point
    where [a] does not exist: [realpath] stops at the missing [a], [mkdir]
    of [a/b] fails, and each pass prints the creation error and returns 0.
    The second pass finds no target and reports none as existing.  And an
    entry that replay rejects (here for its absolute path) has no target to
    be found on the second pass: it is rejected again, not reported as
    existing. *)
Definition orphan_kernel : kernel :=
  mk_kernel
    (fun p => if String.eqb p "/mnt/tagfs/a/b" then "/mnt/tagfs/a" else p)
    (fun _ _ _ => 3) (fun _ _ _ => 0) (fun _ _ _ _ => 0) (fun _ _ _ _ => 0)
    (fun w p _ =>
       if String.eqb p "/mnt/tagfs/a/b"
       then match w_fs w !! "/mnt/tagfs/a" with
            | Some (mk_inode S_IFDIR _) => 0
            | _ => -1
            end
       else 0)
    (fun _ _ => 0) 18.

Definition orphan_log : tagfs_log :=
  mk_log sample_magic 1 1 3
    [mk_log_entry 0 (TAGFS_LOG_MKDIR (mk_mkdir "a/b" 493 0 0));
     blank_entry; blank_entry; blank_entry].

Definition mount_point_world : world :=
  mk_world {[ "/mnt/tagfs" := mk_inode S_IFDIR 493 ]} [] [].

Definition rejected_log : tagfs_log :=
  mk_log sample_magic 1 1 3
    [sample_absolute_entry; blank_entry; blank_entry; blank_entry].

(** C8 without the proviso: an accepted entry whose target is missing after
    a first pass that returned success, and that the second pass does not
    report as existing; and a rejected entry that no pass reports as
    existing. *)
Lemma logplay_second_pass_target_missing :
  (exists w1 w2,
     tagfs_logplay orphan_kernel orphan_log "/mnt/tagfs" 0 mount_point_world
       = Some (0, w1) /\
     tagfs_logplay orphan_kernel orphan_log "/mnt/tagfs" 0 w1 = Some (0, w2) /\
     entry_target orphan_kernel "/mnt/tagfs"
       (mk_log_entry 0 (TAGFS_LOG_MKDIR (mk_mkdir "a/b" 493 0 0)))
       = Some "/mnt/tagfs/a" /\
     w_fs w1 !! "/mnt/tagfs/a" = None /\
     w_fs w1 !! "/mnt/tagfs/a/b" = None /\
     w_fs w2 = w_fs mount_point_world /\
     Msg_unable_create_directory "a/b" ∈ w_out w2 /\
     forall m p, m ∈ w_out w2 -> ~ reports_existing m p) /\
  (exists w1 w2,
     tagfs_logplay sample_kernel rejected_log "/mnt/tagfs" 0 empty_world
       = Some (0, w1) /\
     tagfs_logplay sample_kernel rejected_log "/mnt/tagfs" 0 w1 = Some (0, w2) /\
     w_fs w2 = ∅ /\
     forall m p, m ∈ w_out w2 -> ~ reports_existing m p).
Proof.
  split.
  - eexists _, _. split; [vm_compute; reflexivity|].
    split; [vm_compute; reflexivity|].
    split; [reflexivity|]. split; [reflexivity|]. split; [reflexivity|].
    split; [reflexivity|]. split.
    + repeat first [apply list_elem_of_here | apply list_elem_of_further].
    + intros m p Hin Hrep.
      repeat (apply elem_of_cons in Hin as [->|Hin];
              [destruct Hrep as [Hr|[Hr|[Hr|Hr]]]; discriminate|]).
      by apply elem_of_nil in Hin.
  - eexists _, _. split; [vm_compute; reflexivity|].
    split; [vm_compute; reflexivity|]. split; [reflexivity|].
    intros m p Hin Hrep.
    repeat (apply elem_of_cons in Hin as [->|Hin];
            [destruct Hrep as [Hr|[Hr|[Hr|Hr]]]; discriminate|]).
    by apply elem_of_nil in Hin.
Qed.

(** * Further properties of the library *)

(** ** [make_bit_string] *)

(** [make_bit_string]: the eight characters written to [str] (the
    terminating NUL is the end of the Rocq string), most significant bit
    first. *)
Definition make_bit_string (byte : Z) : string :=
  let bit (mask : Z) : ascii :=
    if Z.land byte mask =? 0 then "0"%char else "1"%char in
  String (bit 128) (String (bit 64) (String (bit 32) (String (bit 16)
    (String (bit 8) (String (bit 4) (String (bit 2) (String (bit 1)
       EmptyString))))))).

(** The number a string of binary digits denotes; [None] if a character is
    not a binary digit. *)
Fixpoint bits_value (acc : Z) (s : string) : option Z :=
  match s with
  | EmptyString => Some acc
  | String c rest =>
      if Ascii.eqb c "0"%char then bits_value (2 * acc) rest
      else if Ascii.eqb c "1"%char then bits_value (2 * acc + 1) rest
      else None
  end.

Lemma make_bit_string_bytes :
  forallb (fun n => match bits_value 0 (make_bit_string (Z.of_nat n)) with
                    | Some v => (v =? Z.of_nat n) && (String.length (make_bit_string (Z.of_nat n)) =? 8)%nat
                    | None => false
                    end) (seq 0 256) = true.
Proof. vm_compute. reflexivity. Qed.

(** X1.  For every [u8] value [make_bit_string] writes eight binary digits
    that read back, most significant bit first, as that value. *)
Theorem make_bit_string_round_trip byte :
  0 <= byte < 256 ->
  String.length (make_bit_string byte) = 8%nat /\
  bits_value 0 (make_bit_string byte) = Some byte.
Proof.
  intros Hb. pose proof make_bit_string_bytes as Hall.
  rewrite forallb_forall in Hall.
  specialize (Hall (Z.to_nat byte)).
  rewrite Z2Nat.id in Hall by lia.
  assert (Hin : In (Z.to_nat byte) (seq 0 256)) by (apply in_seq; lia).
  specialize (Hall Hin). split; [reflexivity|].
  destruct (bits_value 0 (make_bit_string byte)) as [v|]; [|done].
  apply andb_true_iff in Hall as [Hv _]. apply Z.eqb_eq in Hv. by subst.
Qed.

Lemma make_bit_string_round_trip_witness :
  make_bit_string 165 = "10100101" /\
  bits_value 0 (make_bit_string 165) = Some 165.
Proof.
  split; [reflexivity|].
  exact (proj2 (make_bit_string_round_trip 165 ltac:(lia))).
Defined.

(** ** [tagfs_relpath_from_fullpath] *)

Lemma string_prefix_app (a b : string) : String.prefix a (a +:+ b) = true.
Proof.
  induction a as [|c a IH]; simpl; [by destruct b|].
  destruct (Ascii.ascii_dec c c); [exact IH|congruence].
Qed.

Lemma string_prefix_split (a f : string) :
  String.prefix a f = true -> exists rest, f = a +:+ rest.
Proof.
  revert f. induction a as [|c a IH]; intros f H; simpl in *.
  - by exists f.
  - destruct f as [|d f]; [done|]. simpl in H.
    destruct (Ascii.ascii_dec c d) as [Hcd|Hcd]; [subst d|discriminate H].
    destruct (IH f H) as [rest ->]. by exists rest.
Qed.

Lemma string_length_app (a b : string) :
  String.length (a +:+ b) = (String.length a + String.length b)%nat.
Proof. induction a as [|c a IH]; simpl; [done|]. by rewrite IH. Qed.

Lemma string_substring_all (s : string) :
  String.substring 0 (String.length s) s = s.
Proof. induction s as [|c s IH]; simpl; [done|]. by rewrite IH. Qed.

Lemma string_substring_skip (a : string) (c : ascii) (rel : string) :
  String.substring (String.length a + 1)
    (String.length (a +:+ String c rel) - (String.length a + 1))
    (a +:+ String c rel) = rel.
Proof.
  induction a as [|d a IH]; simpl.
  - rewrite Nat.sub_0_r. apply string_substring_all.
  - exact IH.
Qed.

(** X2.  [tagfs_relpath_from_fullpath] returns a path exactly when the mount
    point is a proper prefix of the full path, and what it returns is the
    full path without the mount point and without the one character that
    follows it, whatever that character is: a full path [<mpt>/<rel>] gives
    [<rel>] back, and so does [<mpt>x<rel>]. *)
Theorem relpath_from_fullpath_iff mpt f rel :
  tagfs_relpath_from_fullpath mpt (Some f) = Some (Some rel) <->
  exists c, f = mpt +:+ String c rel.
Proof.
  unfold tagfs_relpath_from_fullpath. split.
  - destruct (String.length mpt <? String.length f)%nat eqn:Hlen; simpl; [|done].
    apply Nat.ltb_lt in Hlen.
    destruct (String.prefix mpt f) eqn:Hpre; simpl; [|done].
    apply string_prefix_split in Hpre as [rest ->].
    rewrite string_length_app in Hlen.
    destruct rest as [|c r]; simpl in Hlen; [lia|].
    rewrite string_substring_skip. intros [= <-]. by exists c.
  - intros [c ->].
    rewrite (proj2 (Nat.ltb_lt _ _))
      by (rewrite string_length_app; simpl; lia).
    rewrite string_prefix_app. simpl. by rewrite string_substring_skip.
Qed.

Lemma relpath_from_fullpath_iff_witness :
  tagfs_relpath_from_fullpath "/mnt/tagfs" (Some "/mnt/tagfs/d/f") = Some (Some "d/f") /\
  tagfs_relpath_from_fullpath "/mnt/t" (Some "/mnt/tagfs/d/f") = Some (Some "gfs/d/f").
Proof.
  split.
  - apply (proj2 (relpath_from_fullpath_iff "/mnt/tagfs" "/mnt/tagfs/d/f" "d/f")).
    by exists "/"%char.
  - reflexivity.
Defined.

(** The full path replay builds from a mount point and a logged path, when
    it fits the buffer. *)
Lemma snprintf_path_fits size a b :
  Z.of_nat (String.length (a +:+ "/" +:+ b)) <= size - 1 ->
  snprintf_path size a b = a +:+ "/" +:+ b.
Proof.
  intros Hfit. unfold snprintf_path.
  set (s := a +:+ "/" +:+ b) in *.
  assert (Hn : (String.length s <= Z.to_nat (size - 1))%nat) by lia.
  clear Hfit. revert Hn. generalize (Z.to_nat (size - 1)).
  induction s as [|c s IH]; intros n Hn; simpl.
  - by destruct n.
  - destruct n as [|n]; simpl in Hn; [lia|]. rewrite IH by lia. done.
Qed.

(** X3.  The path logged for a file is the one replay turns back into the
    file's full path: taking [<mpt>/<rel>] apart with
    [tagfs_relpath_from_fullpath] and putting mount point and result together
    again, as [tagfs_logplay] and [tagfs_dir_create] do with
    [snprintf("%s/%s")], gives the full path back, provided it fits
    [PATH_MAX - 2] characters. *)
Theorem relpath_fullpath_round_trip mpt rel :
  Z.of_nat (String.length (mpt +:+ "/" +:+ rel)) <= PATH_MAX - 2 ->
  exists r,
    tagfs_relpath_from_fullpath mpt (Some (mpt +:+ "/" +:+ rel)) = Some (Some r) /\
    snprintf_path (PATH_MAX - 1) mpt r = mpt +:+ "/" +:+ rel.
Proof.
  intros Hfit. exists rel. split.
  - unfold tagfs_relpath_from_fullpath.
    change ("/" +:+ rel) with (String "/" rel).
    rewrite (proj2 (Nat.ltb_lt _ _))
      by (rewrite string_length_app; simpl; lia).
    rewrite string_prefix_app. simpl. by rewrite string_substring_skip.
  - apply snprintf_path_fits. lia.
Qed.

Lemma relpath_fullpath_round_trip_witness :
  exists r,
    tagfs_relpath_from_fullpath "/mnt/tagfs" (Some "/mnt/tagfs/d/f") = Some (Some r) /\
    snprintf_path (PATH_MAX - 1) "/mnt/tagfs" r = "/mnt/tagfs/d/f".
Proof.
  exact (relpath_fullpath_round_trip "/mnt/tagfs" "d/f" ltac:(vm_compute; discriminate)).
Defined.

(** ** Logging a creation *)

Section LogCreation.

Variable TAGFS_LOG_MAGIC : Z.
Variable TAGFS_FC_ALL_HOSTS_RW : Z.
Variable TAGFS_MAX_PATHLEN : Z.
Variable TAGFS_FC_MAX_EXTENTS : Z.

(** [tagfs_log_dir_creation] *)
Definition tagfs_log_dir_creation (logp : tagfs_log) (relpath : string)
    (mode uid gid : Z) : option (Z * tagfs_log) :=
  if String.prefix "/" relpath then None
  else if tagfs_log_full logp then Some (- ENOMEM, logp)
  else
    let md := {| md_relpath := strncpy relpath (TAGFS_MAX_PATHLEN - 1);
                 md_mode := mode;
                 md_uid := uid;
                 md_gid := gid |} in
    let le := mk_log_entry 0 (TAGFS_LOG_MKDIR md) in
    match tagfs_append_log TAGFS_LOG_MAGIC (Some logp) (Some le) with
    | (rc, Some logp') => Some (rc, logp')
    | (rc, None) => Some (rc, logp)
    end.

Local Abbreviation log_file_creation :=
  (tagfs_log_file_creation TAGFS_LOG_MAGIC TAGFS_FC_ALL_HOSTS_RW
     TAGFS_MAX_PATHLEN TAGFS_FC_MAX_EXTENTS).

(** How the two full-log tests on the way to a logged entry divide the
    cases: the return code and the log after
    [if (tagfs_log_full(logp)) return -ENOMEM; ... return tagfs_append_log(logp, &le)]. *)
Lemma logged_append_cases logp le rc logp' :
  (if tagfs_log_full logp then Some (- ENOMEM, logp)
   else match tagfs_append_log TAGFS_LOG_MAGIC (Some logp) (Some le) with
        | (rc, Some l) => Some (rc, l)
        | (rc, None) => Some (rc, logp)
        end) = Some (rc, logp') ->
  (rc = 0 /\ tagfs_log_magic logp = TAGFS_LOG_MAGIC /\
     tagfs_log_next_index logp < tagfs_log_last_index logp /\
     entries logp' = <[Z.to_nat (tagfs_log_next_index logp) :=
                         set_seqnum le (tagfs_log_next_seqnum logp)]> (entries logp) /\
     tagfs_log_next_index logp' = u64 (tagfs_log_next_index logp + 1) /\
     tagfs_log_next_seqnum logp' = u64 (tagfs_log_next_seqnum logp + 1))
  \/
  (logp' = logp /\
     (rc = - ENOMEM /\ tagfs_log_next_index logp > tagfs_log_last_index logp
      \/ rc = - EINVAL /\ tagfs_log_next_index logp <= tagfs_log_last_index logp /\
           tagfs_log_magic logp <> TAGFS_LOG_MAGIC
      \/ rc = - E2BIG /\ tagfs_log_next_index logp = tagfs_log_last_index logp /\
           tagfs_log_magic logp = TAGFS_LOG_MAGIC)).
Proof.
  unfold tagfs_log_full. case_bool_decide as Hfull.
  - intros [= <- <-]. right. split; [done|]. left. done.
  - unfold tagfs_append_log.
    case_bool_decide as Hmagic.
    + intros [= <- <-]. right. split; [done|]. right. left.
      split; [done|]. split; [lia|done].
    + case_bool_decide as Hge.
      * intros [= <- <-]. right. split; [done|]. right. right.
        split; [done|]. split; [lia|]. by destruct (decide (tagfs_log_magic logp = TAGFS_LOG_MAGIC)).
      * intros [= <- <-]. left. simpl. split; [done|].
        split; [by destruct (decide (tagfs_log_magic logp = TAGFS_LOG_MAGIC))|].
        split; [lia|]. done.
Qed.

(** X4.  [tagfs_log_file_creation] changes the log only when it returns 0,
    and then by exactly one stamped entry.  Its failures divide as follows:
    [-ENOMEM] when [next_index > last_index], [-EINVAL] on a bad magic, and
    [-E2BIG], from [tagfs_append_log], when [next_index = last_index]; in
    that last case the function's own full-log test has let the call
    through. *)
Theorem log_file_creation_outcomes logp nextents ext_list relpath mode uid gid size rc logp' :
  log_file_creation logp nextents ext_list relpath mode uid gid size = Some (rc, logp') ->
  (rc = 0 /\ tagfs_log_magic logp = TAGFS_LOG_MAGIC /\
     tagfs_log_next_index logp < tagfs_log_last_index logp /\
     (exists fc,
        entries logp' = <[Z.to_nat (tagfs_log_next_index logp) :=
                            mk_log_entry (tagfs_log_next_seqnum logp) (TAGFS_LOG_FILE fc)]>
                          (entries logp) /\
        tagfs_fc_size fc = size /\ tagfs_nextents fc = nextents /\
        tagfs_relpath fc = strncpy relpath (TAGFS_MAX_PATHLEN - 1) /\
        take (Z.to_nat nextents) (tagfs_ext_list fc)
          = map (mk_log_extent TAGFS_EXT_SIMPLE) (take (Z.to_nat nextents) ext_list)) /\
     tagfs_log_next_index logp' = u64 (tagfs_log_next_index logp + 1) /\
     tagfs_log_next_seqnum logp' = u64 (tagfs_log_next_seqnum logp + 1))
  \/
  (logp' = logp /\
     (rc = - ENOMEM /\ tagfs_log_next_index logp > tagfs_log_last_index logp
      \/ rc = - EINVAL /\ tagfs_log_next_index logp <= tagfs_log_last_index logp /\
           tagfs_log_magic logp <> TAGFS_LOG_MAGIC
      \/ rc = - E2BIG /\ tagfs_log_next_index logp = tagfs_log_last_index logp /\
           tagfs_log_magic logp = TAGFS_LOG_MAGIC)).
Proof.
  unfold tagfs_log_file_creation. intros H.
  destruct (nextents <? 1) eqn:Hn; [done|]. apply Z.ltb_ge in Hn.
  destruct (String.prefix "/" relpath); [done|].
  destruct (tagfs_log_full logp) eqn:Hfull.
  { destruct (logged_append_cases logp blank_entry rc logp') as [Hok|Hfail];
      [by rewrite Hfull| |by right].
    destruct Hok as (_ & _ & Hlt & _). unfold tagfs_log_full in Hfull.
    apply bool_decide_eq_true in Hfull. lia. }
  destruct (copy_extents ext_list 0 nextents) as [copied|] eqn:Hcopy; [|done].
  simpl in H. destruct (TAGFS_FC_MAX_EXTENTS <? _); [done|].
  match type of H with
  | context [tagfs_append_log _ _ (Some ?e)] => set (le := e) in *
  end.
  destruct (logged_append_cases logp le rc logp') as [Hok|Hfail].
  { by rewrite Hfull. }
  2:{ by right. }
  left. destruct Hok as (-> & Hm & Hlt & Hent & Hi & Hs).
  split; [done|]. split; [done|]. split; [done|].
  split; [|done]. eexists. split; [exact Hent|]. simpl.
  split; [done|]. split; [done|]. split; [done|].
  assert (Hc : forall src i, copy_extents src i nextents = Some copied ->
    copied = map (mk_log_extent TAGFS_EXT_SIMPLE) (take (Z.to_nat (nextents - i)) src) /\
    length copied = Z.to_nat (nextents - i)).
  { clear. intros src. revert copied.
    induction src as [|x src IH]; intros copied i Hc; cbn [copy_extents] in Hc.
    - destruct (i <? nextents) eqn:Hi; [done|]. apply Z.ltb_ge in Hi.
      inversion Hc. rewrite take_nil. simpl. split; [done|lia].
    - destruct (i <? nextents) eqn:Hi.
      + apply Z.ltb_lt in Hi.
        destruct (copy_extents src (i + 1) nextents) as [tl|] eqn:Htl; [|done].
        simpl in Hc. inversion Hc; subst copied. apply IH in Htl as [-> Hlen].
        replace (Z.to_nat (nextents - i)) with (S (Z.to_nat (nextents - (i + 1))))
          by lia. simpl. split; [done|]. f_equal. exact Hlen.
      + apply Z.ltb_ge in Hi. inversion Hc.
        replace (Z.to_nat (nextents - i)) with 0%nat by lia. done. }
  apply Hc in Hcopy as [Hcopy Hlen]. rewrite Z.sub_0_r in Hcopy, Hlen.
  rewrite take_app_le by lia. rewrite take_ge by lia. exact Hcopy.
Qed.

End LogCreation.

(** ** What is logged is what replay creates *)

Lemma strncpy_relative relpath n :
  relpath <> "" -> String.prefix "/" relpath = false -> 1 <= n ->
  path_is_relative (strncpy relpath n) = true.
Proof.
  intros Hne Hpre Hn. destruct relpath as [|c s]; [done|].
  unfold strncpy. destruct (Z.to_nat n) as [|m] eqn:Hm; [lia|]. simpl.
  simpl in Hpre. destruct (Ascii.ascii_dec "/" c) as [<-|Hc].
  - by destruct s.
  - apply negb_true_iff. apply Ascii.eqb_neq. congruence.
Qed.

Section WriteThenReplay.

Variable K : kernel.
Variable TAGFS_ALLOC_UNIT : Z.
Variable TAGFS_SUPERBLOCK_SIZE : Z.
Variable TAGFS_LOG_OFFSET : Z.
Variable TAGFS_LOG_LEN : Z.
Variable TAGFS_LOG_MAGIC : Z.
Variable TAGFS_FC_ALL_HOSTS_RW : Z.
Variable TAGFS_MAX_PATHLEN : Z.
Variable TAGFS_FC_MAX_EXTENTS : Z.

(** [tagfs_dir_create] when [mkdir] succeeds: the directory is there,
    whatever the return code. *)
Lemma tagfs_dir_create_made mpt rpath mode uid gid w :
  let fullpath := snprintf_path (PATH_MAX - 1) mpt rpath in
  w_fs w !! fullpath = None ->
  k_mkdir K w fullpath mode = 0 ->
  exists rc ms,
    tagfs_dir_create K mpt rpath mode uid gid w
      = Some (rc, mk_world (<[fullpath := mk_inode S_IFDIR (mkdir_mode K mode)]> (w_fs w))
                           (w_ioctls w) (w_out w ++ ms)) /\
    (rc = 0 <-> uid = 0 \/ gid = 0).
Proof.
  intros fullpath Hfs Hmk.
  unfold tagfs_dir_create, bindM, sys_mkdir. fold fullpath.
  rewrite Hfs, Hmk. simpl.
  destruct (Z.eqb_spec uid 0) as [Hu|Hu]; simpl.
  - exists 0, []. rewrite app_nil_r. split; [done|]. split; auto.
  - destruct (Z.eqb_spec gid 0) as [Hg|Hg]; simpl.
    + exists 0, []. rewrite app_nil_r. split; [done|]. split; auto.
    + unfold sys_chown. simpl.
      destruct (k_chown K _ fullpath uid gid =? 0); simpl.
      * exists (-1), []. rewrite app_nil_r. split; [done|].
        split; [done|]. intros [?|?]; done.
      * eexists (-1), [_]. split; [done|]. split; [done|]. intros [?|?]; done.
Qed.

(** X5.  A directory logged by [tagfs_log_dir_creation] is the directory
    replay makes: the entry stored at the old [next_index] carries the old
    [next_seqnum], and replaying it where the target does not exist yet and
    [mkdir] succeeds creates [<mpt>/<relpath>] as a directory whose
    permission bits are the logged mode less the bits of the replaying
    process's umask, touching nothing else and issuing no ioctl (the logged
    path being the caller's, cut to [TAGFS_MAX_PATHLEN - 1] characters). *)
Theorem logged_dir_replays logp relpath mode uid gid logp' :
  tagfs_log_dir_creation TAGFS_LOG_MAGIC TAGFS_MAX_PATHLEN logp relpath mode uid gid
    = Some (0, logp') ->
  relpath <> "" -> 2 <= TAGFS_MAX_PATHLEN ->
  (Z.to_nat (tagfs_log_next_index logp) < length (entries logp))%nat ->
  exists le,
    entries logp' !! Z.to_nat (tagfs_log_next_index logp) = Some le /\
    tagfs_log_entry_seqnum le = tagfs_log_next_seqnum logp /\
    forall mpt i w,
      let fullpath :=
        snprintf_path (PATH_MAX - 1) mpt (strncpy relpath (TAGFS_MAX_PATHLEN - 1)) in
      w_fs w !! k_realpath K fullpath = None ->
      w_fs w !! fullpath = None ->
      (forall w0, k_mkdir K w0 fullpath mode = 0) ->
      exists w',
        play_entry K mpt 0 i le w = Some (tt, w') /\
        w_fs w' = <[fullpath := mk_inode S_IFDIR (mkdir_mode K mode)]> (w_fs w) /\
        w_ioctls w' = w_ioctls w.
Proof.
  unfold tagfs_log_dir_creation. intros Hlog Hne Hmax Hcap.
  destruct (String.prefix "/" relpath) eqn:Hpre; [done|].
  match type of Hlog with
  | context [tagfs_append_log _ _ (Some ?e)] => set (le := e) in *
  end.
  destruct (logged_append_cases TAGFS_LOG_MAGIC logp le 0 logp' Hlog)
    as [(_ & _ & _ & Hent & _)|(_ & [(Hrc & _)|[(Hrc & _)|(Hrc & _)]])];
    [|discriminate Hrc..].
  exists (set_seqnum le (tagfs_log_next_seqnum logp)).
  split; [by rewrite Hent, list_lookup_insert_eq|]. split; [done|].
  intros mpt i w.
  set (fullpath := snprintf_path (PATH_MAX - 1) mpt
                     (strncpy relpath (TAGFS_MAX_PATHLEN - 1))).
  intros Hstat Hfs Hmk.
  unfold play_entry. simpl. unfold play_mkdir, tagfs_log_entry_md_path_is_relative.
  simpl. rewrite strncpy_relative by (done || lia). simpl. fold fullpath.
  rewrite (bindM_eq _ _ _ _ _ (print_eq _ _)).
  rewrite (bindM_eq (sys_stat _) _ _ None (says w [Msg_play_mkdir i _]))
    by (unfold sys_stat; simpl; by rewrite Hstat).
  rewrite (bindM_eq _ _ _ _ _ (print_eq _ _)), says_says.
  destruct (tagfs_dir_create_made mpt (strncpy relpath (TAGFS_MAX_PATHLEN - 1))
              mode uid gid
              (says w ([Msg_play_mkdir i (strncpy relpath (TAGFS_MAX_PATHLEN - 1))]
                       ++ [Msg_creating_directory
                             (strncpy relpath (TAGFS_MAX_PATHLEN - 1))])))
    as (rc & ms & Hdc & _); [exact Hfs|apply Hmk|].
  fold fullpath in Hdc. rewrite (bindM_eq _ _ _ _ _ Hdc).
  destruct (negb (rc =? 0)); [rewrite print_eq|]; eexists; split; done.
Qed.

(** [tagfs_file_create] on a free path, on a kernel whose [open] and NOP
    ioctl succeed: the file is there and the descriptor is returned. *)
Lemma tagfs_file_create_made (K2 : kernel) path mode uid gid w :
  (forall w0 p m, 0 < k_open K2 w0 p m) ->
  (forall w0 d, k_ioctl K2 w0 d TAGFSIOC_NOP = 0) ->
  w_fs w !! path = None ->
  exists fd ms,
    0 < fd /\
    tagfs_file_create K2 path mode uid gid w
      = Some (fd, mk_world (<[path := mk_inode S_IFREG (creat_mode K2 mode)]> (w_fs w))
                           (w_ioctls w ++ [(fd, TAGFSIOC_NOP)]) (w_out w ++ ms)).
Proof.
  intros Hopen Hnop Hfs.
  unfold tagfs_file_create.
  rewrite (bindM_eq (sys_stat path) _ w None w)
    by (unfold sys_stat; by rewrite Hfs).
  set (fd := k_open K2 w path mode). pose proof (Hopen w path mode) as Hfd.
  fold fd in Hfd.
  rewrite (bindM_eq (sys_open_creat K2 path mode) _ w fd
             (mk_world (<[path := mk_inode S_IFREG (creat_mode K2 mode)]> (w_fs w))
                       (w_ioctls w) (w_out w))).
  2:{ unfold sys_open_creat. fold fd.
      rewrite (proj2 (Z.ltb_ge fd 0)) by lia. by rewrite Hfs. }
  rewrite (proj2 (Z.ltb_ge fd 0)) by lia.
  unfold __file_not_tagfs, sys_ioctl, bindM at 1 2. rewrite Hnop. simpl.
  exists fd.
  destruct (negb (uid =? 0) && negb (gid =? 0)).
  - unfold bindM, sys_fchown. simpl.
    destruct (k_fchown K2 _ fd uid gid =? 0); simpl.
    + exists []. rewrite app_nil_r. done.
    + eexists [_]. done.
  - exists []. unfold bindM, ret. simpl. rewrite app_nil_r. done.
Qed.

Lemma build_el_one x rest : build_el (x :: rest) (x :: rest) 0 1 = Some [se x].
Proof. cbn [build_el]. simpl. by destruct rest. Qed.

(** Replay of an accepted FILE entry with one extent, where the target does
    not exist yet and the kernel lets the file be created. *)
Lemma play_file_creates (K2 : kernel) mpt i fc x rest w :
  file_accepted fc = true ->
  tagfs_nextents fc = 1 ->
  tagfs_ext_list fc = x :: rest ->
  (forall w0 p m, 0 < k_open K2 w0 p m) ->
  (forall w0 d, k_ioctl K2 w0 d TAGFSIOC_NOP = 0) ->
  let rpath := k_realpath K2 (snprintf_path (PATH_MAX - 1) mpt (tagfs_relpath fc)) in
  w_fs w !! rpath = None ->
  exists fd ms,
    play_file K2 mpt 0 i fc w
      = Some (tt, mk_world (<[rpath := mk_inode S_IFREG (creat_mode K2 (fc_mode fc))]> (w_fs w))
                (w_ioctls w ++
                   [(fd, TAGFSIOC_NOP);
                    (fd, TAGFSIOC_MAP_CREATE
                           (mk_ioc_map TAGFS_REG (tagfs_fc_size fc) FSDAX_EXTENT 1 [se x]))])
                (w_out w ++ ms)).
Proof.
  intros Hacc Hn Hext Hopen Hnop rpath Hfs.
  destruct (play_file_checks K2 mpt 0 i fc w) as (skip & k & Hplay & Hskip & ->).
  { rewrite Hn, Hext. simpl. lia. }
  rewrite Hplay. rewrite (proj2 Hskip Hacc). simpl. fold rpath.
  rewrite (bindM_eq (sys_stat rpath) _ _ None (says w (file_checks i fc)))
    by (unfold sys_stat; simpl; by rewrite Hfs).
  rewrite (bindM_eq _ _ _ _ _ (print_eq _ _)), says_says.
  destruct (tagfs_file_create_made K2 rpath (fc_mode fc) (fc_uid fc) (fc_gid fc)
              (says w (file_checks i fc
                       ++ [Msg_creating_file (tagfs_relpath fc) (fc_mode fc)])))
    as (fd & ms & Hfd & Hcreate); [done|done|exact Hfs|].
  rewrite (bindM_eq _ _ _ _ _ Hcreate).
  rewrite (proj2 (Z.ltb_ge fd 0)) by lia.
  rewrite Hn, Hext, build_el_one.
  unfold tagfs_file_map_create.
  rewrite (proj2 (Z.leb_gt fd 0)) by lia.
  change (to_int 1 <? 0) with false. cbv iota.
  unfold bindM, sys_ioctl, ret. simpl.
  exists fd.
  match goal with
  | |- context [k_ioctl K2 ?w0 fd ?r =? 0] => destruct (k_ioctl K2 w0 fd r =? 0)
  end; simpl; eexists; rewrite <- !app_assoc; simpl; reflexivity.
Qed.

Lemma relpath_from_fullpath_app mpt c rel :
  tagfs_relpath_from_fullpath mpt (Some (mpt +:+ String c rel)) = Some (Some rel).
Proof.
  unfold tagfs_relpath_from_fullpath.
  rewrite (proj2 (Nat.ltb_lt _ _)) by (rewrite string_length_app; simpl; lia).
  rewrite string_prefix_app. simpl. by rewrite string_substring_skip.
Qed.

Lemma to_s64_range x : - 2 ^ 63 <= to_s64 x < 2 ^ 63.
Proof.
  unfold to_s64. pose proof (Z.mod_pos_bound (x + 2 ^ 63) (2 ^ 64) ltac:(done)). lia.
Qed.

Lemma tagfs_alloc_bypath_range logp dev size o :
  tagfs_alloc_bypath TAGFS_ALLOC_UNIT TAGFS_SUPERBLOCK_SIZE TAGFS_LOG_OFFSET
    TAGFS_LOG_LEN logp dev size = Some o -> o < 2 ^ 63.
Proof.
  unfold tagfs_alloc_bypath.
  destruct (size <=? 0); [intros [= <-]; done|].
  destruct (dev <? 0) eqn:Hd; [apply Z.ltb_lt in Hd; intros [= <-]; lia|].
  destruct (tagfs_build_bitmap _ _ _ _ _ _) as [[br|]|]; simpl; try done.
  destruct (bitmap_alloc_contiguous _ _ _ _) as [[off b]|]; simpl; [|done].
  intros [= <-]. apply to_s64_range.
Qed.

(** The FILE entry [tagfs_log_file_creation] builds for one extent. *)
Definition logged_fc (relpath : string) (mode uid gid size : Z)
    (ext : tagfs_simple_extent) : tagfs_file_creation :=
  {| tagfs_fc_size := size;
     tagfs_nextents := 1;
     tagfs_fc_flags := TAGFS_FC_ALL_HOSTS_RW;
     tagfs_relpath := strncpy relpath (TAGFS_MAX_PATHLEN - 1);
     fc_mode := mode;
     fc_uid := uid;
     fc_gid := gid;
     tagfs_ext_list :=
       mk_log_extent TAGFS_EXT_SIMPLE ext
       :: replicate (Z.to_nat TAGFS_FC_MAX_EXTENTS - 1) blank_log_extent |}.

Lemma tagfs_log_file_creation_one_eq logp ext relpath mode uid gid size logp' :
  tagfs_log_file_creation TAGFS_LOG_MAGIC TAGFS_FC_ALL_HOSTS_RW TAGFS_MAX_PATHLEN
    TAGFS_FC_MAX_EXTENTS logp 1 [ext] relpath mode uid gid size = Some (0, logp') ->
  String.prefix "/" relpath = false /\
  entries logp' = <[Z.to_nat (tagfs_log_next_index logp) :=
                      mk_log_entry (tagfs_log_next_seqnum logp)
                        (TAGFS_LOG_FILE (logged_fc relpath mode uid gid size ext))]>
                    (entries logp).
Proof.
  unfold tagfs_log_file_creation. intros H.
  change (1 <? 1) with false in H. cbv iota in H.
  destruct (String.prefix "/" relpath); [done|]. split; [done|].
  change (copy_extents [ext] 0 1) with (Some [mk_log_extent TAGFS_EXT_SIMPLE ext]) in H.
  simpl in H. destruct (TAGFS_FC_MAX_EXTENTS <? _); [by destruct (tagfs_log_full logp)|].
  match type of H with
  | context [tagfs_append_log _ _ (Some ?e)] => set (le := e) in *
  end.
  destruct (logged_append_cases TAGFS_LOG_MAGIC logp le 0 logp' H)
    as [(_ & _ & _ & Hent & _)|(_ & [(Hrc & _)|[(Hrc & _)|(Hrc & _)]])];
    [|discriminate Hrc..].
  exact Hent.
Qed.

(** X6.  A file allocated by [tagfs_file_alloc] is bound to the same space
    when it is replayed: if the call succeeded with a real allocation (the
    allocator did not return 0) for a path [<mpt>/<rel>], then replaying the
    entry it appended, on any host where the target does not exist yet and
    the file can be created, creates the file with the logged mode less the
    bits of the replaying process's umask and issues the very map-create
    request that [tagfs_file_alloc] issued: same file size, same single
    extent. *)
Theorem logged_file_replays env logp fd path mode uid gid size w0 logp' w0' rel :
  tagfs_file_alloc K TAGFS_ALLOC_UNIT TAGFS_SUPERBLOCK_SIZE TAGFS_LOG_OFFSET
    TAGFS_LOG_LEN TAGFS_LOG_MAGIC TAGFS_FC_ALL_HOSTS_RW TAGFS_MAX_PATHLEN
    TAGFS_FC_MAX_EXTENTS env logp fd path mode uid gid size w0
    = Some ((0, logp'), w0') ->
  tagfs_alloc_bypath TAGFS_ALLOC_UNIT TAGFS_SUPERBLOCK_SIZE TAGFS_LOG_OFFSET
    TAGFS_LOG_LEN logp (ae_daxdevsize env) size <> Some 0 ->
  ae_rpath env = Some (ae_mpt env +:+ "/" +:+ rel) ->
  rel <> "" ->
  2 <= TAGFS_MAX_PATHLEN ->
  (Z.to_nat (tagfs_log_next_index logp) < length (entries logp))%nat ->
  exists le m,
    entries logp' !! Z.to_nat (tagfs_log_next_index logp) = Some le /\
    last (w_ioctls w0') = Some (fd, TAGFSIOC_MAP_CREATE m) /\
    forall (K2 : kernel) mpt i w,
      (forall w1 p md, 0 < k_open K2 w1 p md) ->
      (forall w1 d, k_ioctl K2 w1 d TAGFSIOC_NOP = 0) ->
      w_fs w !! k_realpath K2 (snprintf_path (PATH_MAX - 1) mpt
                                 (strncpy rel (TAGFS_MAX_PATHLEN - 1))) = None ->
      exists fd2 w',
        play_entry K2 mpt 0 i le w = Some (tt, w') /\
        w_fs w' = <[k_realpath K2 (snprintf_path (PATH_MAX - 1) mpt
                                     (strncpy rel (TAGFS_MAX_PATHLEN - 1)))
                    := mk_inode S_IFREG (creat_mode K2 mode)]> (w_fs w) /\
        w_ioctls w' = w_ioctls w ++ [(fd2, TAGFSIOC_NOP); (fd2, TAGFSIOC_MAP_CREATE m)].
Proof.
  unfold tagfs_file_alloc. intros Hrun Hnz Hrpath Hrel Hmax Hcap.
  destruct (fd <=? 0) eqn:Hfd; [done|].
  destruct (ae_lfd env <? 0) eqn:Hlfd.
  { apply Z.ltb_lt in Hlfd. inversion Hrun. lia. }
  destruct (ae_mmap_failed env); [by inversion Hrun|].
  rewrite Hrpath in Hrun. change ("/" +:+ rel) with (String "/" rel) in Hrun.
  rewrite relpath_from_fullpath_app in Hrun.
  destruct (tagfs_alloc_bypath _ _ _ _ _ _ _) as [offset|] eqn:Halloc; [|done].
  destruct (offset <? 0) eqn:Hoff; [by inversion Hrun|]. apply Z.ltb_ge in Hoff.
  pose proof (tagfs_alloc_bypath_range _ _ _ _ Halloc) as Hhi.
  assert (Hu : u64 offset = offset) by (apply u64_small; unfold is_u64, u64_mod; lia).
  assert (Hoz : offset <> 0) by congruence.
  rewrite Hu in Hrun.
  set (ext := mk_simple_extent offset (round_size_to_alloc_unit TAGFS_ALLOC_UNIT size)) in *.
  destruct (tagfs_log_file_creation _ _ _ _ _ _ _ _ _ _ _ _) as [[rc l1]|] eqn:Hlog;
    [|done].
  destruct (rc =? 0) eqn:Hrc; simpl in Hrun; [|inversion Hrun; subst; done].
  apply Z.eqb_eq in Hrc. subst rc.
  apply bindM_Some in Hrun as (rc2 & w2 & Hmap & Hret).
  inversion Hret; subst rc2 l1 w2; clear Hret.
  apply tagfs_log_file_creation_one_eq in Hlog as [Hpre Hent].
  exists (mk_log_entry (tagfs_log_next_seqnum logp)
            (TAGFS_LOG_FILE (logged_fc rel mode uid gid size ext))),
         (mk_ioc_map TAGFS_REG size FSDAX_EXTENT 1 [ext]).
  split; [by rewrite Hent, list_lookup_insert_eq|]. split.
  - unfold tagfs_file_map_create in Hmap. rewrite Hfd in Hmap. simpl in Hmap.
    apply bindM_Some in Hmap as (rc & w3 & Hio & Hrest).
    unfold sys_ioctl in Hio. inversion Hio; subst rc w3; clear Hio.
    apply bindM_Some in Hrest as ([] & w4 & Hpr & Hret).
    inversion Hret; subst w4. rewrite H0 in Hpr. simpl in Hpr.
    inversion Hpr; subst w0'. simpl. apply last_snoc.
  - intros K2 mpt i w Hopen Hnop Hfs.
    destruct (play_file_creates K2 mpt i (logged_fc rel mode uid gid size ext)
                (mk_log_extent TAGFS_EXT_SIMPLE ext)
                (replicate (Z.to_nat TAGFS_FC_MAX_EXTENTS - 1) blank_log_extent) w)
      as (fd2 & ms & Hplay); try done.
    { unfold file_accepted. simpl.
      rewrite strncpy_relative by (done || lia). simpl.
      apply bool_decide_eq_true. unfold zero_offsets. simpl.
      rewrite filter_cons. simpl. rewrite decide_False by done. done. }
    exists fd2. eexists. unfold play_entry. simpl. split; [exact Hplay|]. done.
Qed.

End WriteThenReplay.

(** ** What replay leaves alone *)

Section ReplaySafety.

Variable K : kernel.

(** The ways [tagfs_file_create] can end: a failure that leaves the name
    space alone, the failure after which the file just created could not be
    unlinked, and success. *)
Lemma tagfs_file_create_effect path mode uid gid w fd w' :
  tagfs_file_create K path mode uid gid w = Some (fd, w') ->
  (fd < 0 /\ w_fs w' = w_fs w /\
     (is_Some (w_fs w !! path) -> fd = -1 /\ w_ioctls w' = w_ioctls w)) \/
  (fd = - EBADF /\ w_fs w !! path = None /\
     w_fs w' = <[path := mk_inode S_IFREG (creat_mode K mode)]> (w_fs w) /\
     exists w0, k_unlink K w0 path <> 0) \/
  (0 <= fd /\ w_fs w !! path = None /\
     w_fs w' = <[path := mk_inode S_IFREG (creat_mode K mode)]> (w_fs w)).
Proof.
  unfold tagfs_file_create. intros H.
  apply bindM_Some in H as (st & w1 & Hst & H).
  unfold sys_stat in Hst. inversion Hst; subst st w1; clear Hst.
  destruct (w_fs w !! path) as [ino|] eqn:Hfs.
  { apply bindM_Some in H as ([] & w1 & Hp & H). inversion Hp; subst w1.
    inversion H; subst. left. split; [lia|]. split; [done|]. done. }
  apply bindM_Some in H as (fd0 & w1 & Hopen & H).
  unfold sys_open_creat in Hopen.
  destruct (k_open K w path mode <? 0) eqn:Hneg.
  { inversion Hopen; subst fd0 w1. rewrite Hneg in H.
    apply bindM_Some in H as ([] & w1 & Hp & H). inversion Hp; subst w1.
    inversion H; subst. apply Z.ltb_lt in Hneg. left.
    split; [done|]. split; [done|]. intros [? ?]. done. }
  rewrite Hfs in Hopen. inversion Hopen; subst fd0 w1; clear Hopen.
  rewrite Hneg in H. apply Z.ltb_ge in Hneg.
  apply bindM_Some in H as (nt & w1 & Hnt & H).
  unfold __file_not_tagfs, sys_ioctl in Hnt.
  apply bindM_Some in Hnt as (rc & w2 & Hio & Hnt).
  inversion Hio; subst rc w2; clear Hio.
  destruct (_ =? 0) eqn:Hnop in Hnt; inversion Hnt; subst nt w1; clear Hnt; simpl in H.
  - apply bindM_Some in H as ([] & w1 & Hch & H). inversion H; subst fd w1.
    right. right. split; [lia|]. split; [done|].
    destruct (negb (uid =? 0) && negb (gid =? 0)).
    + apply bindM_Some in Hch as (rc & w2 & Hfc & Hch).
      unfold sys_fchown in Hfc. inversion Hfc; subst rc w2.
      destruct (_ =? 0) in Hch; inversion Hch; done.
    + inversion Hch. done.
  - apply bindM_Some in H as ([] & w1 & Hun & H).
    apply bindM_Some in H as ([] & w2 & Hp & H). inversion Hp; subst w2.
    inversion H; subst fd w'. unfold sys_unlink in Hun. simpl in Hun.
    rewrite lookup_insert_eq in Hun. simpl in Hun.
    destruct (Z.eqb_spec (k_unlink K
                (mk_world (<[path := mk_inode S_IFREG (creat_mode K mode)]> (w_fs w))
                   (w_ioctls w ++ [(k_open K w path mode, TAGFSIOC_NOP)]) (w_out w))
                path) 0) as [Hu|Hu]; inversion Hun; subst w1.
    + left. simpl. split; [done|]. split; [by apply delete_insert_id|].
      intros [? ?]. done.
    + right. left. simpl. split; [done|]. split; [done|]. split; [done|].
      eexists. exact Hu.
Qed.

(** X7.  On a name space without symbolic links, [tagfs_file_create] never
    touches an existing name: on a path that exists it returns -1 without
    any ioctl.  A negative return leaves the
    name space as it was, with one exception: after [-EBADF] (the NOP ioctl
    failed on the file just created) the file stays if its [unlink] failed
    as well.  And a descriptor is returned only for a path that was free and
    is now a regular file with the requested mode less the bits of the
    umask, every other name unchanged. *)
Theorem file_create_no_clobber path mode uid gid w fd w' :
  tagfs_file_create K path mode uid gid w = Some (fd, w') ->
  (is_Some (w_fs w !! path) -> fd = -1 /\ w_ioctls w' = w_ioctls w) /\
  (fd < 0 ->
     w_fs w' = w_fs w \/
     (fd = - EBADF /\ w_fs w !! path = None /\
      w_fs w' = <[path := mk_inode S_IFREG (creat_mode K mode)]> (w_fs w) /\
      exists w0, k_unlink K w0 path <> 0)) /\
  (0 <= fd ->
     w_fs w !! path = None /\
     w_fs w' !! path = Some (mk_inode S_IFREG (creat_mode K mode)) /\
     forall p, p <> path -> w_fs w' !! p = w_fs w !! p).
Proof.
  intros H. apply tagfs_file_create_effect in H
    as [(Hneg & Hfs & Hex)|[(Hbad & Hfree & Hfs & Hun)|(Hpos & Hfree & Hfs)]].
  - split; [exact Hex|]. split; [by left|]. lia.
  - split; [intros [? Hs]; congruence|]. split; [by right|].
    subst fd. unfold EBADF. lia.
  - split; [intros [? Hs]; congruence|]. split; [lia|]. intros _.
    split; [done|]. rewrite Hfs. split; [apply lookup_insert_eq|].
    intros p Hp. by rewrite lookup_insert_ne.
Qed.

End ReplaySafety.

Lemma file_create_no_clobber_witness :
  let w := mk_world {[ "/mnt/tagfs/foo" := mk_inode S_IFREG 384 ]} [] [] in
  exists w',
    tagfs_file_create sample_kernel "/mnt/tagfs/foo" 420 0 0 w = Some (-1, w') /\
    w_fs w' = w_fs w /\ w_ioctls w' = [].
Proof.
  intros w.
  assert (exists w', tagfs_file_create sample_kernel "/mnt/tagfs/foo" 420 0 0 w
                     = Some (-1, w')) as [w' Hrun].
  { eexists. vm_compute. reflexivity. }
  destruct (file_create_no_clobber sample_kernel "/mnt/tagfs/foo" 420 0 0 w (-1) w' Hrun)
    as (Hex & Hneg & _).
  exists w'. split; [exact Hrun|]. split.
  - destruct (Hneg ltac:(lia)) as [Hsame|(Hbad & _)]; [exact Hsame|].
    discriminate Hbad.
  - apply Hex. vm_compute. eauto.
Defined.

Section ReplayFrame.

Variable K : kernel.

Lemma tagfs_file_map_create_fs path fd size n el ty w rc w' :
  tagfs_file_map_create K path fd size n el ty w = Some (rc, w') ->
  w_fs w' = w_fs w.
Proof.
  unfold tagfs_file_map_create. destruct (fd <=? 0); [done|].
  destruct (n <? 0); [by intros [= <- <-]|]. intros H.
  apply bindM_Some in H as (rc1 & w1 & Hio & H).
  unfold sys_ioctl in Hio. inversion Hio; subst rc1 w1; clear Hio.
  apply bindM_Some in H as ([] & w2 & Hp & H). inversion H; subst rc w2.
  destruct (_ =? 0) in Hp; inversion Hp; done.
Qed.

Lemma tagfs_dir_create_effect mpt rpath mode uid gid w rc w' :
  tagfs_dir_create K mpt rpath mode uid gid w = Some (rc, w') ->
  w_fs w ⊆ w_fs w' /\ w_ioctls w' = w_ioctls w.
Proof.
  unfold tagfs_dir_create. intros H.
  apply bindM_Some in H as (rc1 & w1 & Hmk & H).
  assert (w_fs w ⊆ w_fs w1 /\ w_ioctls w1 = w_ioctls w) as [Hsub Hio].
  { unfold sys_mkdir in Hmk.
    destruct (w_fs w !! _) eqn:Hfs; [by inversion Hmk|].
    destruct (_ =? 0) in Hmk; inversion Hmk; subst; simpl; [|done].
    split; [by apply insert_subseteq|done]. }
  destruct (negb (rc1 =? 0)).
  { apply bindM_Some in H as ([] & w2 & Hp & H). inversion Hp; subst w2.
    inversion H; subst. done. }
  destruct (negb (uid =? 0) && negb (gid =? 0)); [|by inversion H; subst].
  apply bindM_Some in H as (rc2 & w2 & Hch & H).
  unfold sys_chown in Hch. inversion Hch; subst rc2 w2; clear Hch.
  apply bindM_Some in H as ([] & w3 & Hp & H). inversion H; subst rc w3.
  destruct (_ =? 0) in Hp; inversion Hp; subst; done.
Qed.

Lemma play_entry_keeps mpt dry_run i le w w' :
  play_entry K mpt dry_run i le w = Some (tt, w') ->
  w_fs w ⊆ w_fs w' /\
  (dry_run <> 0 -> w_fs w' = w_fs w /\ w_ioctls w' = w_ioctls w).
Proof.
  unfold play_entry.
  destruct (tagfs_log_entry_body le) as [fc|md| |]; intros Hrun.
  - pose proof (play_file_Some K _ _ _ _ _ _ Hrun) as Hlen.
    destruct (play_file_checks K mpt dry_run i fc w Hlen) as (skip & k & Hplay & _ & ->).
    rewrite Hplay in Hrun. clear Hplay.
    destruct (negb (skip =? 0)); [by inversion Hrun; subst|].
    simpl in Hrun.
    destruct (Z.eqb_spec dry_run 0) as [Hd|Hd]; simpl in Hrun;
      [|by inversion Hrun; subst]. split; [|done].
    apply bindM_Some in Hrun as (st & w1 & Hst & Hrun).
    unfold sys_stat in Hst. inversion Hst; subst st w1; clear Hst. simpl in Hrun.
    destruct (w_fs w !! _) as [ino|] eqn:Htarget; [by inversion Hrun; subst|].
    apply bindM_Some in Hrun as ([] & w1 & Hp & Hrun). inversion Hp; subst w1.
    apply bindM_Some in Hrun as (fd & w2 & Hcreate & Hrun).
    apply tagfs_file_create_effect in Hcreate
      as [(Hneg & Hfs & _)|[(Hbad & _ & Hfs & _)|(Hpos & _ & Hfs)]]; simpl in Hfs.
    + rewrite (proj2 (Z.ltb_lt fd 0)) in Hrun by done.
      apply bindM_Some in Hrun as ([] & w3 & Hp3 & Hrun). inversion Hp3; subst w3.
      unfold sys_unlink in Hrun. simpl in Hrun.
      rewrite <- Hfs in Htarget. rewrite Htarget in Hrun.
      inversion Hrun; subst. simpl. by rewrite Hfs.
    + subst fd. change (- EBADF <? 0) with true in Hrun. cbv iota in Hrun.
      apply bindM_Some in Hrun as ([] & w3 & Hp3 & Hrun). inversion Hp3; subst w3.
      unfold sys_unlink in Hrun. simpl in Hrun.
      rewrite Hfs, lookup_insert_eq in Hrun. simpl in Hrun.
      destruct (_ =? 0) in Hrun; inversion Hrun; subst; simpl.
      * by rewrite delete_insert_id.
      * by apply insert_subseteq.
    + rewrite (proj2 (Z.ltb_ge fd 0)) in Hrun by done.
      destruct (build_el _ _ _ _) as [el|]; [|done].
      apply bindM_Some in Hrun as (rc & w3 & Hmap & Hrun). inversion Hrun; subst.
      apply tagfs_file_map_create_fs in Hmap. rewrite Hmap, Hfs.
      by apply insert_subseteq.
  - unfold play_mkdir in Hrun.
    apply bindM_Some in Hrun as ([] & w1 & Hp & Hrun). inversion Hp; subst w1.
    destruct (negb (tagfs_log_entry_md_path_is_relative md));
      [by inversion Hrun; subst|].
    destruct (Z.eqb_spec dry_run 0) as [Hd|Hd]; simpl in Hrun;
      [|by inversion Hrun; subst]. split; [|done].
    apply bindM_Some in Hrun as (st & w1 & Hst & Hrun).
    unfold sys_stat in Hst. inversion Hst; subst st w1; clear Hst. simpl in Hrun.
    destruct (w_fs w !! _) as [ino|] eqn:Htarget.
    { destruct (i_kind ino); by inversion Hrun; subst. }
    apply bindM_Some in Hrun as ([] & w1 & Hp1 & Hrun). inversion Hp1; subst w1.
    apply bindM_Some in Hrun as (rc & w2 & Hdc & Hrun).
    apply tagfs_dir_create_effect in Hdc as [Hsub _]. simpl in Hsub.
    destruct (negb (rc =? 0)); inversion Hrun; subst; done.
  - by inversion Hrun; subst.
  - by inversion Hrun; subst.
Qed.

Lemma play_loop_keeps mpt dry_run es : forall i next_index nlog w n w',
  play_loop K mpt dry_run es i next_index nlog w = Some (n, w') ->
  w_fs w ⊆ w_fs w' /\
  (dry_run <> 0 -> w_fs w' = w_fs w /\ w_ioctls w' = w_ioctls w).
Proof.
  induction es as [|le rest IH]; intros i next_index nlog w n w' Hrun;
    cbn [play_loop] in Hrun.
  - destruct (i <? next_index); [done|]. by inversion Hrun; subst.
  - destruct (i <? next_index); [|by inversion Hrun; subst].
    apply bindM_Some in Hrun as ([] & w1 & Hentry & Hrun).
    apply play_entry_keeps in Hentry as [Hs1 Hd1].
    apply IH in Hrun as [Hs2 Hd2]. split; [by etrans|].
    intros Hd. destruct (Hd1 Hd) as [<- <-]. by apply Hd2.
Qed.

(** X8.  Replay only ever adds names: every path that exists when
    [tagfs_logplay] starts still exists when it returns, with the same kind
    and mode, whatever the log holds and whatever the kernel answers. *)
Theorem logplay_keeps_names logp mpt dry_run w rc w' :
  tagfs_logplay K logp mpt dry_run w = Some (rc, w') ->
  forall p ino, w_fs w !! p = Some ino -> w_fs w' !! p = Some ino.
Proof.
  unfold tagfs_logplay. intros Hrun.
  assert (w_fs w ⊆ w_fs w') as Hsub.
  { destruct (tagfs_log_full logp).
    - apply bindM_Some in Hrun as ([] & w1 & Hp & Hrun). inversion Hp; subst w1.
      by inversion Hrun; subst.
    - apply bindM_Some in Hrun as ([] & w1 & Hp & Hrun). inversion Hp; subst w1.
      apply bindM_Some in Hrun as (n & w2 & Hloop & Hrun).
      apply play_loop_keeps in Hloop as [Hsub _].
      apply bindM_Some in Hrun as ([] & w3 & Hp3 & Hrun). inversion Hp3; subst w3.
      by inversion Hrun; subst. }
  intros p ino Hp. by apply (lookup_weaken _ _ _ _ Hp).
Qed.

(** X9.  A dry run has no effect beyond its diagnostics: with [dry_run]
    non-zero [tagfs_logplay] creates nothing, removes nothing and issues no
    ioctl, on any log. *)
Theorem logplay_dry_run_inert logp mpt dry_run w rc w' :
  dry_run <> 0 ->
  tagfs_logplay K logp mpt dry_run w = Some (rc, w') ->
  w_fs w' = w_fs w /\ w_ioctls w' = w_ioctls w.
Proof.
  unfold tagfs_logplay. intros Hd Hrun.
  destruct (tagfs_log_full logp).
  - apply bindM_Some in Hrun as ([] & w1 & Hp & Hrun). inversion Hp; subst w1.
    by inversion Hrun; subst.
  - apply bindM_Some in Hrun as ([] & w1 & Hp & Hrun). inversion Hp; subst w1.
    apply bindM_Some in Hrun as (n & w2 & Hloop & Hrun).
    apply play_loop_keeps in Hloop as [_ Hdry]. destruct (Hdry Hd) as [Hfs Hio].
    apply bindM_Some in Hrun as ([] & w3 & Hp3 & Hrun). inversion Hp3; subst w3.
    inversion Hrun; subst. done.
Qed.

End ReplayFrame.

(** ** The further properties on concrete runs *)

Lemma log_file_creation_outcomes_witness :
  exists logp',
    tagfs_log_file_creation sample_magic sample_flags sample_max_pathlen
      sample_max_extents sample_empty_log 1
      [mk_simple_extent (10 * MiB) (4 * MiB)] "foo" 420 0 0 (3 * MiB)
      = Some (0, logp') /\
    tagfs_log_next_index logp' = 1 /\ tagfs_log_next_seqnum logp' = 1.
Proof.
  assert (exists logp',
            tagfs_log_file_creation sample_magic sample_flags sample_max_pathlen
              sample_max_extents sample_empty_log 1
              [mk_simple_extent (10 * MiB) (4 * MiB)] "foo" 420 0 0 (3 * MiB)
              = Some (0, logp')) as [logp' Hrun].
  { eexists. vm_compute. reflexivity. }
  exists logp'. split; [exact Hrun|].
  destruct (log_file_creation_outcomes _ _ _ _ _ _ _ _ _ _ _ _ _ _ Hrun)
    as [(_ & _ & _ & _ & Hi & Hs)
       |(_ & [(Hrc & _)|[(Hrc & _)|(Hrc & _)]])];
    [|discriminate Hrc..].
  rewrite Hi, Hs. split; reflexivity.
Defined.

Lemma logged_dir_replays_witness :
  exists logp' le w',
    tagfs_log_dir_creation sample_magic sample_max_pathlen sample_empty_log
      "dir" 511 0 0 = Some (0, logp') /\
    entries logp' !! 0%nat = Some le /\
    play_entry sample_kernel "/mnt/tagfs" 0 0 le empty_world = Some (tt, w') /\
    w_fs w' = {[ "/mnt/tagfs/dir" := mk_inode S_IFDIR 493 ]}.
Proof.
  assert (exists logp',
            tagfs_log_dir_creation sample_magic sample_max_pathlen sample_empty_log
              "dir" 511 0 0 = Some (0, logp')) as [logp' Hrun].
  { eexists. vm_compute. reflexivity. }
  destruct (logged_dir_replays sample_kernel _ _ _ _ _ _ _ _ Hrun)
    as (le & Hent & _ & Hplay).
  - discriminate.
  - vm_compute. discriminate.
  - vm_compute. lia.
  - destruct (Hplay "/mnt/tagfs" 0 empty_world) as (w' & Hw' & Hfs & _).
    + reflexivity.
    + reflexivity.
    + intros w0. reflexivity.
    + exists logp', le, w'. split; [exact Hrun|]. split; [exact Hent|].
      split; [exact Hw'|]. rewrite Hfs. reflexivity.
Defined.

Lemma logged_file_replays_witness :
  exists logp' w0' le m fd2 w',
    sample_file_alloc GiB (3 * MiB) = Some (0, logp', w0') /\
    last (w_ioctls w0') = Some (5, TAGFSIOC_MAP_CREATE m) /\
    entries logp' !! 0%nat = Some le /\
    play_entry sample_kernel "/mnt/other" 0 0 le empty_world = Some (tt, w') /\
    w_fs w' = {[ "/mnt/other/foo" := mk_inode S_IFREG 420 ]} /\
    w_ioctls w' = [(fd2, TAGFSIOC_NOP); (fd2, TAGFSIOC_MAP_CREATE m)].
Proof.
  assert (exists logp' w0', sample_file_alloc GiB (3 * MiB) = Some (0, logp', w0'))
    as (logp' & w0' & Hrun).
  { eexists _, _. vm_compute. reflexivity. }
  destruct (logged_file_replays sample_kernel sample_alloc_unit
              sample_superblock_size sample_log_offset sample_log_len sample_magic
              sample_flags sample_max_pathlen sample_max_extents
              (sample_env GiB) sample_empty_log 5 "/mnt/tagfs/foo" 420 1000 1000
              (3 * MiB) empty_world logp' w0' "foo" Hrun)
    as (le & m & Hent & Hlast & Hplay).
  - vm_compute. discriminate.
  - reflexivity.
  - discriminate.
  - vm_compute. discriminate.
  - vm_compute. lia.
  - destruct (Hplay sample_kernel "/mnt/other" 0 empty_world)
      as (fd2 & w' & Hw' & Hfs & Hio).
    + intros w1 p md. reflexivity.
    + intros w1 d. reflexivity.
    + reflexivity.
    + exists logp', w0', le, m, fd2, w'. split; [exact Hrun|].
      split; [exact Hlast|]. split; [exact Hent|]. split; [exact Hw'|].
      split; [rewrite Hfs; reflexivity | exact Hio].
Defined.

Lemma logplay_keeps_names_witness :
  let w := mk_world {[ "/mnt/tagfs/keep" := mk_inode S_IFREG 384 ]} [] [] in
  exists rc w',
    tagfs_logplay sample_kernel sample_tree_log "/mnt/tagfs" 0 w = Some (rc, w') /\
    w_fs w' !! "/mnt/tagfs/keep" = Some (mk_inode S_IFREG 384).
Proof.
  intros w.
  assert (exists rc w',
            tagfs_logplay sample_kernel sample_tree_log "/mnt/tagfs" 0 w
              = Some (rc, w')) as (rc & w' & Hrun).
  { eexists _, _. vm_compute. reflexivity. }
  exists rc, w'. split; [exact Hrun|].
  apply (logplay_keeps_names sample_kernel _ _ _ _ _ _ Hrun). reflexivity.
Defined.

Lemma logplay_dry_run_inert_witness :
  exists rc w',
    tagfs_logplay sample_kernel sample_tree_log "/mnt/tagfs" 1 empty_world
      = Some (rc, w') /\
    w_fs w' = ∅ /\ w_ioctls w' = [].
Proof.
  assert (exists rc w',
            tagfs_logplay sample_kernel sample_tree_log "/mnt/tagfs" 1 empty_world
              = Some (rc, w')) as (rc & w' & Hrun).
  { eexists _, _. vm_compute. reflexivity. }
  exists rc, w'. split; [exact Hrun|].
  change (w_fs w' = w_fs empty_world /\ w_ioctls w' = w_ioctls empty_world).
  apply (logplay_dry_run_inert sample_kernel sample_tree_log "/mnt/tagfs" 1
           empty_world rc w'); [lia | exact Hrun].
Defined.

(** ** What the allocator never hands out *)

(** [b'] has the size of [b] and every bit of [b] set. *)
Definition grows (b b' : bitmap) : Prop :=
  length b' = length b /\ forall j, 0 <= j -> bit_at b j = true -> bit_at b' j = true.

Lemma grows_refl b : grows b b.
Proof. split; [done|]. intros j _ Hj. exact Hj. Qed.

Lemma grows_trans b1 b2 b3 : grows b1 b2 -> grows b2 b3 -> grows b1 b3.
Proof.
  intros [Hl1 Hb1] [Hl2 Hb2]. split; [congruence|].
  intros j Hj Hset. apply Hb2; [done|]. by apply Hb1.
Qed.

Section AllocSafety.

Variable TAGFS_ALLOC_UNIT : Z.
Variable TAGFS_SUPERBLOCK_SIZE : Z.
Variable TAGFS_LOG_OFFSET : Z.
Variable TAGFS_LOG_LEN : Z.

Local Abbreviation AU := TAGFS_ALLOC_UNIT.

Lemma set_bits_grows count : forall b i b',
  set_bits b i count = Some b' ->
  grows b b' /\ forall j, i <= j < i + Z.of_nat count -> bit_at b' j = true.
Proof.
  induction count as [|count IH]; intros b i b' Hset; cbn [set_bits] in Hset.
  - inversion Hset; subst. split; [apply grows_refl|]. intros j Hj. lia.
  - destruct (mu_bitmap_set b i) as [b1|] eqn:Hone; [|done]. simpl in Hset.
    pose proof (mu_bitmap_set_Some _ _ _ Hone) as Hin.
    destruct (mu_bitmap_set_in b i Hin) as (b1' & Hone' & Hlen & Hbits).
    rewrite Hone in Hone'. inversion Hone'; subst b1'. clear Hone'.
    apply IH in Hset as [Hg Hrange].
    assert (grows b b1) as Hg1.
    { split; [done|]. intros j Hj Hb. rewrite Hbits, Hb by done. done. }
    split; [by eapply grows_trans|].
    intros j Hj. destruct (decide (j = i)) as [->|Hne].
    + destruct Hg as [_ Hg]. apply Hg; [by destruct Hin|].
      rewrite Hbits by (by destruct Hin).
      rewrite (bool_decide_true (i = i)) by done. apply orb_true_r.
    + apply Hrange. lia.
Qed.

Lemma put_sb_log_into_bitmap_grows b b' :
  put_sb_log_into_bitmap AU TAGFS_LOG_OFFSET TAGFS_LOG_LEN b = Some b' ->
  grows b b' /\
  forall j, 0 <= j < Z.max 1 ((TAGFS_LOG_OFFSET + TAGFS_LOG_LEN) / AU) ->
            bit_at b' j = true.
Proof.
  unfold put_sb_log_into_bitmap. intros Hput.
  destruct (mu_bitmap_set b 0) as [b0|] eqn:Hzero; [|done]. simpl in Hput.
  pose proof (mu_bitmap_set_Some _ _ _ Hzero) as Hin.
  destruct (mu_bitmap_set_in b 0 Hin) as (b0' & Hzero' & Hlen & Hbits).
  rewrite Hzero in Hzero'. inversion Hzero'; subst b0'. clear Hzero'.
  apply set_bits_grows in Hput as [Hg Hrange].
  assert (grows b b0) as Hg0.
  { split; [done|]. intros j Hj Hb. rewrite Hbits, Hb by done. done. }
  split; [by eapply grows_trans|].
  intros j Hj. destruct (decide (j = 0)) as [->|Hne].
  - destruct Hg as [_ Hg]. apply Hg; [done|]. rewrite Hbits by done.
    rewrite (bool_decide_true (0 = 0)) by done. apply orb_true_r.
  - apply Hrange. lia.
Qed.

Lemma mark_pages_grows n : forall st k st',
  mark_pages AU st k n = Some st' ->
  grows (bs_bitmap st) (bs_bitmap st') /\
  forall j, k <= j < k + Z.of_nat n -> 0 <= j /\ bit_at (bs_bitmap st') j = true.
Proof.
  induction n as [|n IH]; intros st k st' Hmark; cbn [mark_pages] in Hmark.
  - inversion Hmark; subst. split; [apply grows_refl|]. intros j Hj. lia.
  - destruct (mu_bitmap_test_and_set (bs_bitmap st) k) as [[rc b1]|] eqn:Hone;
      [|done]. simpl in Hmark.
    apply mu_bitmap_test_and_set_Some in Hone as (Hin & Hlen & Hcase).
    assert (grows (bs_bitmap st) b1 /\ bit_at b1 k = true) as [Hg1 Hk].
    { destruct Hcase as [(_ & Hb & ->)|(_ & _ & Hbits)].
      - split; [apply grows_refl|done].
      - split.
        + split; [done|]. intros j Hj Hb. rewrite Hbits, Hb by done. done.
        + rewrite Hbits by (by destruct Hin).
          rewrite (bool_decide_true (k = k)) by done. apply orb_true_r. }
    assert (exists st1, mark_pages AU st1 (k + 1) n = Some st' /\ bs_bitmap st1 = b1)
      as (st1 & Hrest & Hb1).
    { destruct (rc =? 0); eexists; (split; [exact Hmark|done]). }
    apply IH in Hrest as [Hg Hrange]. rewrite Hb1 in Hg.
    split; [by eapply grows_trans|].
    intros j Hj. destruct (decide (j = k)) as [->|Hne].
    + split; [by destruct Hin|]. destruct Hg as [_ Hg].
      apply Hg; [by destruct Hin|done].
    + apply Hrange. lia.
Qed.

(** The allocation units of an extent, as [tagfs_build_bitmap] computes
    them. *)
Definition extent_units (x : tagfs_log_extent) (u : Z) : Prop :=
  let page_num := to_s64 (tagfs_extent_offset (se x) / AU) in
  page_num <= u < page_num + Z.of_nat (Z.to_nat (extent_np AU (tagfs_extent_len (se x)))).

Lemma mark_extents_grows ext : forall st j nextents st',
  mark_extents AU st ext j nextents = Some st' ->
  grows (bs_bitmap st) (bs_bitmap st') /\
  forall (q : nat) x, ext !! q = Some x -> j + Z.of_nat q < nextents ->
    tagfs_extent_offset (se x) mod AU = 0 /\
    forall u, extent_units x u -> 0 <= u /\ bit_at (bs_bitmap st') u = true.
Proof.
  induction ext as [|x rest IH]; intros st j nextents st' Hmark;
    cbn [mark_extents] in Hmark.
  - destruct (j <? nextents); [done|]. inversion Hmark; subst.
    split; [apply grows_refl|]. intros q x Hq. done.
  - destruct (j <? nextents) eqn:Hj.
    2:{ apply Z.ltb_ge in Hj. inversion Hmark; subst.
        split; [apply grows_refl|]. intros q y _ Hlt. lia. }
    destruct (Z.eqb_spec (tagfs_extent_offset (se x) mod AU) 0) as [Hmod|Hmod];
      simpl in Hmark; [|done].
    destruct (mark_pages AU st _ _) as [st1|] eqn:Hpages; [|done]. simpl in Hmark.
    apply mark_pages_grows in Hpages as [Hg1 Hrange].
    apply IH in Hmark as [Hg Hrest].
    split; [by eapply grows_trans|].
    intros [|q] y Hq Hlt; simpl in Hq.
    + inversion Hq; subst y. split; [done|]. intros u Hu.
      destruct (Hrange u Hu) as [Hu0 Hbit]. split; [done|].
      destruct Hg as [_ Hg]. by apply Hg.
    + apply (Hrest q y Hq). lia.
Qed.

Lemma scan_log_grows es : forall st i next_index st',
  scan_log AU st es i next_index = Some st' ->
  grows (bs_bitmap st) (bs_bitmap st') /\
  forall (p q : nat) le fc x,
    es !! p = Some le -> i + Z.of_nat p < next_index ->
    tagfs_log_entry_body le = TAGFS_LOG_FILE fc ->
    tagfs_ext_list fc !! q = Some x -> Z.of_nat q < tagfs_nextents fc ->
    tagfs_extent_offset (se x) mod AU = 0 /\
    forall u, extent_units x u -> 0 <= u /\ bit_at (bs_bitmap st') u = true.
Proof.
  induction es as [|le rest IH]; intros st i next_index st' Hscan;
    cbn [scan_log] in Hscan.
  - destruct (i <? next_index); [done|]. inversion Hscan; subst.
    split; [apply grows_refl|]. intros p q le fc x Hp. done.
  - destruct (i <? next_index) eqn:Hi.
    2:{ apply Z.ltb_ge in Hi. inversion Hscan; subst.
        split; [apply grows_refl|]. intros p q le' fc x _ Hlt. lia. }
    match type of Hscan with
    | (?m ≫= _) = _ => destruct m as [st1|] eqn:Hentry; [|done]
    end.
    simpl in Hscan. apply IH in Hscan as [Hg Hrest].
    assert (grows (bs_bitmap st) (bs_bitmap st1) /\
            forall fc (q : nat) x,
              tagfs_log_entry_body le = TAGFS_LOG_FILE fc ->
              tagfs_ext_list fc !! q = Some x -> Z.of_nat q < tagfs_nextents fc ->
              tagfs_extent_offset (se x) mod AU = 0 /\
              forall u, extent_units x u -> 0 <= u /\ bit_at (bs_bitmap st1) u = true)
      as [Hg1 Hfirst].
    { destruct (tagfs_log_entry_body le) as [fc0|md| |].
      - apply mark_extents_grows in Hentry as [Hg0 Hq]. simpl in Hg0.
        split; [done|]. intros fc q x [= <-] Hx Hlt. apply (Hq q x Hx). lia.
      - inversion Hentry; subst. split; [apply grows_refl|done].
      - inversion Hentry; subst. split; [apply grows_refl|done].
      - inversion Hentry; subst. split; [apply grows_refl|done]. }
    split; [by eapply grows_trans|].
    intros [|p] q le' fc x Hp Hlt Hbody Hx Hq; simpl in Hp.
    + inversion Hp; subst le'.
      destruct (Hfirst fc q x Hbody Hx Hq) as [Hmod Hunits]. split; [done|].
      intros u Hu. destruct (Hunits u Hu) as [Hu0 Hbit]. split; [done|].
      destruct Hg as [_ Hg]. by apply Hg.
    + apply (Hrest p q le' fc x Hp); [lia|done..].
Qed.

(** The bitmap [tagfs_build_bitmap] returns: as many bytes as it reports,
    with the superblock and log units and the units of every logged extent
    set. *)
Lemma tagfs_build_bitmap_marks logp dev br :
  tagfs_build_bitmap AU TAGFS_SUPERBLOCK_SIZE TAGFS_LOG_OFFSET TAGFS_LOG_LEN logp dev
    = Some (Some br) ->
  0 <= bb_bitmap_size br <= INT_MAX /\
  bb_bitmap_size br
    = to_int (mu_bitmap_size
                (to_int (u64 (dev - TAGFS_SUPERBLOCK_SIZE - TAGFS_LOG_LEN) / AU))) /\
  Z.of_nat (length (bb_bitmap br)) = bb_bitmap_size br /\
  (forall j, 0 <= j < Z.max 1 ((TAGFS_LOG_OFFSET + TAGFS_LOG_LEN) / AU) ->
             bit_at (bb_bitmap br) j = true) /\
  forall (p q : nat) le fc x,
    entries logp !! p = Some le -> Z.of_nat p < tagfs_log_next_index logp ->
    tagfs_log_entry_body le = TAGFS_LOG_FILE fc ->
    tagfs_ext_list fc !! q = Some x -> Z.of_nat q < tagfs_nextents fc ->
    tagfs_extent_offset (se x) mod AU = 0 /\
    forall u, extent_units x u -> 0 <= u /\ bit_at (bb_bitmap br) u = true.
Proof.
  unfold tagfs_build_bitmap.
  set (bitmap_size := to_int (mu_bitmap_size _)).
  destruct (bitmap_size <? 0) eqn:Hneg; [done|]. apply Z.ltb_ge in Hneg.
  destruct (put_sb_log_into_bitmap _ _ _ _) as [b|] eqn:Hput; [|done]. simpl.
  destruct (scan_log _ _ _ _ _) as [st|] eqn:Hscan; [|done]. simpl.
  intros [= <-]. simpl.
  apply put_sb_log_into_bitmap_grows in Hput as [[Hlen0 _] Hsb].
  apply scan_log_grows in Hscan as [[Hlen Hg] Hext]. simpl in Hlen, Hg.
  split.
  { split; [done|]. subst bitmap_size. unfold to_int, INT_MAX.
    pose proof (Z.mod_pos_bound (mu_bitmap_size
      (to_int (u64 (dev - TAGFS_SUPERBLOCK_SIZE - TAGFS_LOG_LEN) / AU)) + 2 ^ 31)
      (2 ^ 32) ltac:(done)). unfold to_int in *. lia. }
  split; [done|].
  split.
  { rewrite Hlen, Hlen0, length_replicate. lia. }
  split.
  { intros j Hj. apply Hg; [lia|]. by apply Hsb. }
  intros p q le fc x Hp Hlt. apply (Hext p q le fc x Hp). lia.
Qed.

Hypothesis AU_range : 0 < AU <= 2 ^ 32.

(** A positive return of [tagfs_alloc_bypath] is the first fit in the bitmap
    built from the log. *)
Lemma tagfs_alloc_bypath_fit logp dev size o :
  0 < size -> (size + AU - 1) / AU <= INT_MAX ->
  tagfs_alloc_bypath AU TAGFS_SUPERBLOCK_SIZE TAGFS_LOG_OFFSET TAGFS_LOG_LEN
    logp dev size = Some o ->
  0 < o ->
  exists br s,
    tagfs_build_bitmap AU TAGFS_SUPERBLOCK_SIZE TAGFS_LOG_OFFSET TAGFS_LOG_LEN logp dev
      = Some (Some br) /\
    o = s * AU /\
    fits (bb_bitmap br) (bb_bitmap_size br) ((size + AU - 1) / AU) s.
Proof.
  intros Hsize Hint Halloc Hpos. unfold tagfs_alloc_bypath in Halloc.
  destruct (size <=? 0) eqn:Hs; [apply Z.leb_le in Hs; lia|].
  destruct (dev <? 0) eqn:Hd.
  { apply Z.ltb_lt in Hd. inversion Halloc. lia. }
  destruct (tagfs_build_bitmap _ _ _ _ _ _) as [[br|]|] eqn:Hbuild; [|done..].
  simpl in Halloc.
  destruct (tagfs_build_bitmap_marks _ _ _ Hbuild) as (Hsz & _ & Hlen & _).
  set (n := (size + AU - 1) / AU) in *.
  assert (Hn1 : 1 <= n).
  { subst n. apply Z.div_le_lower_bound; lia. }
  assert (Hbits : to_int (u64 (size + AU - 1) / AU) = n).
  { assert (size + AU - 1 < 2 ^ 63).
    { pose proof (Z.mul_succ_div_gt (size + AU - 1) AU ltac:(lia)) as Hdiv.
      fold n in Hdiv. unfold INT_MAX in *. nia. }
    rewrite u64_small by (unfold is_u64, u64_mod; lia).
    apply to_int_small. fold n. unfold INT_MAX in *. lia. }
  assert (Hnbits : u64 (bb_bitmap_size br) = bb_bitmap_size br).
  { apply u64_small. unfold is_u64, u64_mod, INT_MAX in *. lia. }
  unfold bitmap_alloc_contiguous in Halloc. rewrite Hbits, Hnbits in Halloc.
  destruct (alloc_scan_spec AU AU_range (Z.to_nat (bb_bitmap_size br)) (bb_bitmap br)
              (bb_bitmap_size br) n 0)
    as (off & b' & Hscan & Hres); try lia.
  rewrite Hscan in Halloc. simpl in Halloc. inversion Halloc as [Ho]. clear Halloc.
  destruct Hres as [(s & [Hfit _] & -> & _)|(_ & -> & _)].
  - exists br, s. split; [done|]. split; [|done].
    apply to_s64_small. destruct Hfit as (Hs0 & Hs1 & _).
    unfold INT_MAX in *. nia.
  - rewrite to_s64_small in Ho by lia. lia.
Qed.

(** X10.  A positive offset returned by [tagfs_alloc_bypath] starts on an
    allocation-unit boundary, past unit 0 and past every whole unit of the
    superblock-and-log area [0, TAGFS_LOG_OFFSET + TAGFS_LOG_LEN). *)
Theorem alloc_bypath_clear_of_metadata logp dev size o :
  0 < size -> (size + AU - 1) / AU <= INT_MAX ->
  tagfs_alloc_bypath AU TAGFS_SUPERBLOCK_SIZE TAGFS_LOG_OFFSET TAGFS_LOG_LEN
    logp dev size = Some o ->
  0 < o ->
  o mod AU = 0 /\ AU <= o /\
  (TAGFS_LOG_OFFSET + TAGFS_LOG_LEN) / AU * AU <= o.
Proof.
  intros Hsize Hint Halloc Hpos.
  destruct (tagfs_alloc_bypath_fit _ _ _ _ Hsize Hint Halloc Hpos)
    as (br & s & Hbuild & -> & (Hs0 & Hs1 & Hfree)).
  destruct (tagfs_build_bitmap_marks _ _ _ Hbuild) as (_ & _ & _ & Hsb & _).
  assert (1 <= (size + AU - 1) / AU) as Hn1.
  { apply Z.div_le_lower_bound; lia. }
  assert (Z.max 1 ((TAGFS_LOG_OFFSET + TAGFS_LOG_LEN) / AU) <= s) as Hlow.
  { destruct (decide (Z.max 1 ((TAGFS_LOG_OFFSET + TAGFS_LOG_LEN) / AU) <= s))
      as [|Hlt]; [done|].
    assert (bit_at (bb_bitmap br) s = true) as Hset by (apply Hsb; lia).
    rewrite Hfree in Hset by lia. done. }
  split; [apply Z.mod_mul; lia|]. split; nia.
Qed.

(** The units of a returned range are not units of a logged extent. *)
Lemma alloc_bypath_avoids_units logp dev size o (p q : nat) le fc x :
  0 < size -> (size + AU - 1) / AU <= INT_MAX ->
  tagfs_alloc_bypath AU TAGFS_SUPERBLOCK_SIZE TAGFS_LOG_OFFSET TAGFS_LOG_LEN
    logp dev size = Some o ->
  0 < o ->
  entries logp !! p = Some le -> Z.of_nat p < tagfs_log_next_index logp ->
  tagfs_log_entry_body le = TAGFS_LOG_FILE fc ->
  tagfs_ext_list fc !! q = Some x -> Z.of_nat q < tagfs_nextents fc ->
  tagfs_extent_offset (se x) mod AU = 0 /\
  exists s, o = s * AU /\ 0 <= s /\ s + (size + AU - 1) / AU <= INT_MAX /\
    forall u, s <= u < s + (size + AU - 1) / AU -> ~ extent_units x u.
Proof.
  intros Hsize Hint Halloc Hpos Hp Hplt Hbody Hx Hq.
  destruct (tagfs_alloc_bypath_fit _ _ _ _ Hsize Hint Halloc Hpos)
    as (br & s & Hbuild & -> & (Hs0 & Hs1 & Hfree)).
  destruct (tagfs_build_bitmap_marks _ _ _ Hbuild) as (Hsz & _ & _ & _ & Hext).
  destruct (Hext p q le fc x Hp Hplt Hbody Hx Hq) as [Hmod Hunits].
  split; [done|]. exists s. split; [done|]. split; [done|]. split; [lia|].
  intros u Hu Hunit. destruct (Hunits _ Hunit) as [_ Hset].
  rewrite Hfree in Hset by lia. done.
Qed.

(** The unit of a byte of an extent is one of the extent's units. *)
Lemma extent_units_of_byte x y :
  tagfs_extent_offset (se x) mod AU = 0 ->
  0 <= tagfs_extent_offset (se x) ->
  tagfs_extent_offset (se x) + tagfs_extent_len (se x) < 2 ^ 63 ->
  tagfs_extent_offset (se x) <= y
    < tagfs_extent_offset (se x) + tagfs_extent_len (se x) ->
  extent_units x (y / AU).
Proof.
  intros Hmod Hoff0 Hend Hin. unfold extent_units.
  set (off := tagfs_extent_offset (se x)) in *.
  set (len := tagfs_extent_len (se x)) in *. cbv zeta.
  assert (Hpage : to_s64 (off / AU) = off / AU).
  { apply to_s64_small. split.
    - pose proof (Z.div_pos off AU Hoff0 ltac:(lia)). lia.
    - apply Z.div_lt_upper_bound; nia. }
  assert (Hnp : extent_np AU len = (len + AU - 1) / AU).
  { unfold extent_np. rewrite u64_small by (unfold is_u64, u64_mod; lia).
    apply to_s64_small. split.
    - pose proof (Z.div_pos (len + AU - 1) AU ltac:(lia) ltac:(lia)). lia.
    - apply Z.div_lt_upper_bound; nia. }
  rewrite Hpage, Hnp.
  assert (0 <= (len + AU - 1) / AU) by (apply Z.div_pos; lia).
  rewrite Z2Nat.id by done.
  pose proof (Z.div_mod off AU ltac:(lia)) as Hdm. rewrite Hmod in Hdm.
  pose proof (Z.mul_succ_div_gt (len + AU - 1) AU ltac:(lia)) as Hup.
  split.
  - apply Z.div_le_mono; lia.
  - apply Z.div_lt_upper_bound; [lia|]. nia.
Qed.

(** X11.  Space returned by [tagfs_alloc_bypath] is not in use: no byte of
    the returned range, the request rounded up to whole allocation units,
    belongs to an extent of a FILE entry already in the log. *)
Theorem alloc_bypath_clear_of_logged_extents logp dev size o
    (p q : nat) le fc x :
  0 < size -> (size + AU - 1) / AU <= INT_MAX ->
  tagfs_alloc_bypath AU TAGFS_SUPERBLOCK_SIZE TAGFS_LOG_OFFSET TAGFS_LOG_LEN
    logp dev size = Some o ->
  0 < o ->
  entries logp !! p = Some le -> Z.of_nat p < tagfs_log_next_index logp ->
  tagfs_log_entry_body le = TAGFS_LOG_FILE fc ->
  tagfs_ext_list fc !! q = Some x -> Z.of_nat q < tagfs_nextents fc ->
  0 <= tagfs_extent_offset (se x) ->
  tagfs_extent_offset (se x) + tagfs_extent_len (se x) < 2 ^ 63 ->
  forall y, o <= y < o + (size + AU - 1) / AU * AU ->
    ~ (tagfs_extent_offset (se x) <= y
         < tagfs_extent_offset (se x) + tagfs_extent_len (se x)).
Proof.
  intros Hsize Hint Halloc Hpos Hp Hplt Hbody Hx Hq Hoff0 Hend y Hy Hin.
  destruct (alloc_bypath_avoids_units _ _ _ _ _ _ _ _ _ Hsize Hint Halloc Hpos
              Hp Hplt Hbody Hx Hq) as (Hmod & s & -> & Hs0 & _ & Hfree).
  apply (Hfree (y / AU)).
  - split.
    + apply Z.div_le_lower_bound; lia.
    + apply Z.div_lt_upper_bound; lia.
  - by apply extent_units_of_byte.
Qed.

(** X12.  Space returned by [tagfs_alloc_bypath] lies inside the device, and
    in its first eighth: the byte size of the bitmap is what
    [bitmap_alloc_contiguous] is given as its number of bits, so a returned
    range ends within [(npages + 7) / 8] units, [npages] being the units of
    the device less superblock and log. *)
Theorem alloc_bypath_within_device logp dev size o :
  0 < size -> (size + AU - 1) / AU <= INT_MAX ->
  0 <= dev - TAGFS_SUPERBLOCK_SIZE - TAGFS_LOG_LEN < 2 ^ 64 ->
  (dev - TAGFS_SUPERBLOCK_SIZE - TAGFS_LOG_LEN) / AU <= INT_MAX ->
  tagfs_alloc_bypath AU TAGFS_SUPERBLOCK_SIZE TAGFS_LOG_OFFSET TAGFS_LOG_LEN
    logp dev size = Some o ->
  0 < o ->
  let data := dev - TAGFS_SUPERBLOCK_SIZE - TAGFS_LOG_LEN in
  o + (size + AU - 1) / AU * AU <= data /\
  8 * (o + (size + AU - 1) / AU * AU) <= data + 7 * AU.
Proof.
  intros Hsize Hint Hdev Hunits Halloc Hpos data.
  destruct (tagfs_alloc_bypath_fit _ _ _ _ Hsize Hint Halloc Hpos)
    as (br & s & Hbuild & -> & (Hs0 & Hs1 & Hfree)).
  destruct (tagfs_build_bitmap_marks _ _ _ Hbuild) as (_ & Hsz & _ & Hsb & _).
  fold data in Hsz, Hdev, Hunits.
  set (n := (size + AU - 1) / AU) in *.
  assert (1 <= n) as Hn1.
  { subst n. apply Z.div_le_lower_bound; lia. }
  assert (0 <= data / AU) as Hnp0 by (apply Z.div_pos; lia).
  rewrite (u64_small data) in Hsz by (unfold is_u64, u64_mod; lia).
  rewrite (to_int_small (data / AU)) in Hsz by (unfold INT_MAX in *; lia).
  unfold mu_bitmap_size in Hsz. rewrite Z.quot_div_nonneg in Hsz by lia.
  assert (0 <= (data / AU + 8 - 1) / 8 <= 2 ^ 28) as Hq.
  { split; [apply Z.div_pos; lia|].
    change (2 ^ 28) with ((INT_MAX + 8 - 1) / 8). apply Z.div_le_mono; lia. }
  rewrite to_int_small in Hsz by (unfold INT_MAX in *; lia).
  assert (1 <= s) as Hs1'.
  { destruct (decide (1 <= s)) as [|Hlt]; [done|].
    assert (bit_at (bb_bitmap br) s = true) as Hset by (apply Hsb; lia).
    rewrite Hfree in Hset by lia. done. }
  assert (8 * (s + n) <= data / AU + 7) as Heighth.
  { pose proof (Z.mul_div_le (data / AU + 8 - 1) 8 ltac:(lia)). lia. }
  pose proof (Z.mul_div_le data AU ltac:(lia)) as Hfloor.
  split; nia.
Qed.

End AllocSafety.

Lemma alloc_bypath_clear_of_metadata_witness :
  tagfs_alloc_bypath sample_alloc_unit sample_superblock_size sample_log_offset
    sample_log_len sample_file_log GiB (3 * MiB) = Some (14 * MiB) /\
  (14 * MiB) mod sample_alloc_unit = 0 /\
  sample_alloc_unit <= 14 * MiB /\
  (sample_log_offset + sample_log_len) / sample_alloc_unit * sample_alloc_unit
    <= 14 * MiB.
Proof.
  assert (tagfs_alloc_bypath sample_alloc_unit sample_superblock_size
            sample_log_offset sample_log_len sample_file_log GiB (3 * MiB)
          = Some (14 * MiB)) as Hrun by (vm_compute; reflexivity).
  split; [exact Hrun|].
  apply (alloc_bypath_clear_of_metadata sample_alloc_unit sample_superblock_size
           sample_log_offset sample_log_len ltac:(unfold sample_alloc_unit; lia)
           sample_file_log GiB (3 * MiB) (14 * MiB));
    [by vm_compute | by vm_compute | exact Hrun | by vm_compute].
Defined.

Lemma alloc_bypath_clear_of_logged_extents_witness :
  tagfs_alloc_bypath sample_alloc_unit sample_superblock_size sample_log_offset
    sample_log_len sample_file_log GiB (3 * MiB) = Some (14 * MiB) /\
  forall y, 14 * MiB <= y < 14 * MiB + 4 * MiB -> ~ (10 * MiB <= y < 10 * MiB + 3 * MiB).
Proof.
  assert (tagfs_alloc_bypath sample_alloc_unit sample_superblock_size
            sample_log_offset sample_log_len sample_file_log GiB (3 * MiB)
          = Some (14 * MiB)) as Hrun by (vm_compute; reflexivity).
  split; [exact Hrun|].
  apply (alloc_bypath_clear_of_logged_extents sample_alloc_unit
           sample_superblock_size sample_log_offset sample_log_len
           ltac:(unfold sample_alloc_unit; lia)
           sample_file_log GiB (3 * MiB) (14 * MiB) 0%nat 0%nat
           (sample_file_entry "foo" (10 * MiB) (3 * MiB) (3 * MiB))
           (mk_file_creation (3 * MiB) 1 sample_flags "foo" 420 0 0
              [mk_log_extent TAGFS_EXT_SIMPLE (mk_simple_extent (10 * MiB) (3 * MiB))])
           (mk_log_extent TAGFS_EXT_SIMPLE (mk_simple_extent (10 * MiB) (3 * MiB))));
    [by vm_compute | by vm_compute | exact Hrun | by vm_compute | reflexivity
    | by vm_compute | reflexivity | reflexivity | by vm_compute | by vm_compute
    | by vm_compute].
Defined.

Lemma alloc_bypath_within_device_witness :
  tagfs_alloc_bypath sample_alloc_unit sample_superblock_size sample_log_offset
    sample_log_len sample_file_log GiB (3 * MiB) = Some (14 * MiB) /\
  14 * MiB + 4 * MiB <= GiB - sample_superblock_size - sample_log_len /\
  8 * (14 * MiB + 4 * MiB)
    <= GiB - sample_superblock_size - sample_log_len + 7 * sample_alloc_unit.
Proof.
  assert (tagfs_alloc_bypath sample_alloc_unit sample_superblock_size
            sample_log_offset sample_log_len sample_file_log GiB (3 * MiB)
          = Some (14 * MiB)) as Hrun by (vm_compute; reflexivity).
  split; [exact Hrun|].
  apply (alloc_bypath_within_device sample_alloc_unit sample_superblock_size
           sample_log_offset sample_log_len ltac:(unfold sample_alloc_unit; lia)
           sample_file_log GiB (3 * MiB) (14 * MiB));
    [by vm_compute | by vm_compute | by vm_compute | by vm_compute | exact Hrun
    | by vm_compute].
Defined.

(** ** Creating and allocating a file *)

Section MakeFile.

Variable K : kernel.
Variable TAGFS_ALLOC_UNIT : Z.
Variable TAGFS_SUPERBLOCK_SIZE : Z.
Variable TAGFS_LOG_OFFSET : Z.
Variable TAGFS_LOG_LEN : Z.
Variable TAGFS_LOG_MAGIC : Z.
Variable TAGFS_FC_ALL_HOSTS_RW : Z.
Variable TAGFS_MAX_PATHLEN : Z.
Variable TAGFS_FC_MAX_EXTENTS : Z.

Local Abbreviation file_alloc :=
  (tagfs_file_alloc K TAGFS_ALLOC_UNIT TAGFS_SUPERBLOCK_SIZE TAGFS_LOG_OFFSET
     TAGFS_LOG_LEN TAGFS_LOG_MAGIC TAGFS_FC_ALL_HOSTS_RW TAGFS_MAX_PATHLEN
     TAGFS_FC_MAX_EXTENTS).

(** [tagfs_mkfile]: the return value and the log as the call leaves it.
    [realpath] of the file just created is taken to succeed; the two
    diagnostics of [tagfs_mkfile] itself are not recorded. *)
Definition tagfs_mkfile (env : alloc_env) (logp : tagfs_log) (filename : string)
    (mode uid gid size : Z) : M (Z * tagfs_log) :=
  let* fd := tagfs_file_create K filename mode uid gid in
  if fd <? 0 then ret (fd, logp)
  else
    let fullpath := k_realpath K filename in
    let* r := file_alloc env logp fd fullpath mode uid gid size in
    if negb (r.1 =? 0) then
      let* _ := sys_unlink K fullpath in ret (-1, r.2)
    else ret (fd, r.2).

(** A FILE entry is appended or the log is left alone. *)
Lemma tagfs_log_file_creation_rc logp nextents ext_list relpath mode uid gid size rc logp' :
  tagfs_log_file_creation TAGFS_LOG_MAGIC TAGFS_FC_ALL_HOSTS_RW TAGFS_MAX_PATHLEN
    TAGFS_FC_MAX_EXTENTS logp nextents ext_list relpath mode uid gid size
    = Some (rc, logp') ->
  (rc = 0 /\ tagfs_log_next_index logp' = u64 (tagfs_log_next_index logp + 1))
  \/ (rc <> 0 /\ logp' = logp).
Proof.
  unfold tagfs_log_file_creation. intros H.
  destruct (nextents <? 1); [done|].
  destruct (String.prefix "/" relpath); [done|].
  destruct (tagfs_log_full logp) eqn:Hfull.
  { inversion H; subst. right. done. }
  destruct (copy_extents ext_list 0 nextents) as [copied|]; [|done].
  simpl in H. destruct (TAGFS_FC_MAX_EXTENTS <? _); [done|].
  match type of H with
  | context [tagfs_append_log _ _ (Some ?e)] => set (le := e) in *
  end.
  destruct (logged_append_cases TAGFS_LOG_MAGIC logp le rc logp')
    as [(-> & _ & _ & _ & Hi & _)|(-> & [(-> & _)|[(-> & _)|(-> & _)]])];
    [by rewrite Hfull|left; done|right; done..].
Qed.

(** The two ways out of [tagfs_file_alloc]. *)
Lemma tagfs_file_alloc_effect env logp fd path mode uid gid size w rc logp' w' :
  file_alloc env logp fd path mode uid gid size w = Some ((rc, logp'), w') ->
  w_fs w' = w_fs w /\
  ((rc <> 0 /\ logp' = logp /\ w_ioctls w' = w_ioctls w)
   \/
   (exists m, tagfs_log_next_index logp' = u64 (tagfs_log_next_index logp + 1) /\
      w_ioctls w' = w_ioctls w ++ [(fd, TAGFSIOC_MAP_CREATE m)] /\
      rc = k_ioctl K w fd (TAGFSIOC_MAP_CREATE m) /\
      file_size m = size)).
Proof.
  unfold tagfs_file_alloc. intros Hrun.
  destruct (fd <=? 0) eqn:Hfd; [done|].
  destruct (ae_lfd env <? 0) eqn:Hlfd.
  { apply Z.ltb_lt in Hlfd. inversion Hrun; subst. split; [done|]. left.
    split; [lia|done]. }
  destruct (ae_mmap_failed env).
  { inversion Hrun; subst. split; [done|]. left. done. }
  destruct (tagfs_relpath_from_fullpath _ _) as [[relpath|]|]; [| |done].
  2:{ inversion Hrun; subst. split; [done|]. left. done. }
  destruct (tagfs_alloc_bypath _ _ _ _ _ _ _) as [offset|]; [|done].
  destruct (offset <? 0).
  { inversion Hrun; subst. split; [done|]. left. done. }
  destruct (tagfs_log_file_creation _ _ _ _ _ _ _ _ _ _ _ _) as [[rc1 logp1]|]
    eqn:Hlog; [|done].
  apply tagfs_log_file_creation_rc in Hlog as [[-> Hi]|[Hrc ->]].
  - simpl in Hrun. apply bindM_Some in Hrun as (rc2 & w2 & Hmap & Hrun).
    inversion Hrun; subst rc2 logp' w2. clear Hrun.
    unfold tagfs_file_map_create in Hmap. rewrite Hfd in Hmap. simpl in Hmap.
    apply bindM_Some in Hmap as (rc3 & w3 & Hio & Hmap).
    unfold sys_ioctl in Hio. inversion Hio; subst rc3 w3. clear Hio.
    apply bindM_Some in Hmap as ([] & w4 & Hp & Hmap).
    inversion Hmap; subst rc w4. clear Hmap.
    assert (w_fs w' = w_fs w /\
            w_ioctls w' = w_ioctls w ++ [(fd, TAGFSIOC_MAP_CREATE
              (mk_ioc_map TAGFS_REG size FSDAX_EXTENT 1
                 [mk_simple_extent (u64 offset)
                    (round_size_to_alloc_unit TAGFS_ALLOC_UNIT size)]))])
      as [Hfs Hio].
    { destruct (_ =? 0) in Hp; inversion Hp; subst; done. }
    split; [done|]. right. eexists. split; [exact Hi|]. split; [exact Hio|]. done.
  - rewrite (proj2 (Z.eqb_neq rc1 0) Hrc) in Hrun. simpl in Hrun.
    inversion Hrun; subst. split; [done|]. left. done.
Qed.


(** X14.  On a name space without symbolic links, [tagfs_mkfile] is all or
    nothing, for a file name that [realpath] leaves as it is and where
    [unlink] of it succeeds:
    a negative return leaves every path as the call found it (the file it
    may have created is unlinked again), and any other return is the
    descriptor of a file that did not exist before, now present with the
    requested mode less the bits of the umask, its FILE entry logged and its
    map-create ioctl accepted. *)
Theorem mkfile_all_or_nothing env logp filename mode uid gid size w rc logp' w' :
  k_realpath K filename = filename ->
  tagfs_mkfile env logp filename mode uid gid size w = Some ((rc, logp'), w') ->
  (rc < 0 -> (forall w0, k_unlink K w0 filename = 0) -> w_fs w' = w_fs w) /\
  (0 <= rc ->
     w_fs w !! filename = None /\
     w_fs w' = <[filename := mk_inode S_IFREG (creat_mode K mode)]> (w_fs w) /\
     tagfs_log_next_index logp' = u64 (tagfs_log_next_index logp + 1) /\
     exists m, last (w_ioctls w') = Some (rc, TAGFSIOC_MAP_CREATE m) /\
               file_size m = size).
Proof.
  intros Hreal Hrun. unfold tagfs_mkfile in Hrun. rewrite Hreal in Hrun.
  apply bindM_Some in Hrun as (fd & w1 & Hcreate & Hrun).
  apply tagfs_file_create_effect in Hcreate
    as [(Hneg & Hfs1 & _)|[(Hbad & _ & _ & w0 & Hun)|(Hpos & Habsent & Hfs1)]].
  { rewrite (proj2 (Z.ltb_lt fd 0)) in Hrun by done.
    inversion Hrun; subst. split; [done|]. lia. }
  { subst fd. change (- EBADF <? 0) with true in Hrun. cbv iota in Hrun.
    inversion Hrun; subst. split; [|unfold EBADF; lia].
    intros _ Hunlink. by destruct (Hun (Hunlink w0)). }
  rewrite (proj2 (Z.ltb_ge fd 0)) in Hrun by done.
  apply bindM_Some in Hrun as ([rc1 logp1] & w2 & Halloc & Hrun).
  apply tagfs_file_alloc_effect in Halloc as [Hfs2 Hcases]. simpl in Hrun.
  destruct (Z.eqb_spec rc1 0) as [->|Hrc1]; simpl in Hrun.
  - inversion Hrun; subst rc logp' w2. clear Hrun. split; [lia|]. intros _.
    split; [done|]. split; [congruence|].
    destruct Hcases as [(Hrc & _)|(m & Hi & Hio & _ & Hsize)]; [done|].
    split; [done|]. exists m. split; [|done]. rewrite Hio. apply last_snoc.
  - apply bindM_Some in Hrun as ([] & w3 & Hunlink & Hrun).
    inversion Hrun; subst rc logp' w3. clear Hrun. split; [|lia].
    intros _ Hok. unfold sys_unlink in Hunlink.
    rewrite Hfs2, Hfs1, lookup_insert_eq, Hok in Hunlink. simpl in Hunlink.
    inversion Hunlink; subst. simpl. by apply delete_insert_id.
Qed.

End MakeFile.



Lemma mkfile_all_or_nothing_witness :
  exists fd logp' w',
    tagfs_mkfile sample_kernel sample_alloc_unit sample_superblock_size
      sample_log_offset sample_log_len sample_magic sample_flags
      sample_max_pathlen sample_max_extents
      (sample_env GiB) sample_empty_log "/mnt/tagfs/foo" 420 0 0 (3 * MiB)
      empty_world = Some ((fd, logp'), w') /\
    w_fs w' = {[ "/mnt/tagfs/foo" := mk_inode S_IFREG 420 ]} /\
    tagfs_log_next_index logp' = 1.
Proof.
  assert (exists logp' w',
            tagfs_mkfile sample_kernel sample_alloc_unit sample_superblock_size
              sample_log_offset sample_log_len sample_magic sample_flags
              sample_max_pathlen sample_max_extents
              (sample_env GiB) sample_empty_log "/mnt/tagfs/foo" 420 0 0 (3 * MiB)
              empty_world = Some ((3, logp'), w')) as (logp' & w' & Hrun).
  { eexists _, _. vm_compute. reflexivity. }
  exists 3, logp', w'. split; [exact Hrun|].
  destruct (mkfile_all_or_nothing sample_kernel sample_alloc_unit
              sample_superblock_size sample_log_offset sample_log_len sample_magic
              sample_flags sample_max_pathlen sample_max_extents
              (sample_env GiB) sample_empty_log "/mnt/tagfs/foo" 420 0 0 (3 * MiB)
              empty_world 3 logp' w' eq_refl Hrun) as (_ & Hok).
  destruct (Hok ltac:(lia)) as (_ & Hfs & Hi & _).
  split; [rewrite Hfs; reflexivity | exact Hi].
Defined.

(** ** Creating a directory *)

(** What [tagfs_mkdir] learns from the C library and from the log file:
    [dirname] and [basename] of its argument, [realpath] of the parent, the
    mount point found by [open_log_file_writable], and whether [mmap] of the
    log failed. *)
Record mkdir_env := mk_mkdir_env {
  me_parentdir   : string;
  me_newdir      : string;
  me_realparent  : option string;
  me_mpt         : string;
  me_mmap_failed : bool;
}.

Section MakeDir.

Variable K : kernel.
Variable TAGFS_LOG_MAGIC : Z.
Variable TAGFS_MAX_PATHLEN : Z.

(** The function [tagfs_mkdir] (the record of that name is the log payload):
    the return value and the log as the call leaves it.  [st] is read
    without a look at what [stat] returned, so a missing parent is outside
    what the code determines, and so is the [NULL] that
    [tagfs_relpath_from_fullpath] may hand to [tagfs_dir_create].  The
    function's own diagnostics are not recorded. *)
Definition tagfs_mkdir_call (env : mkdir_env) (logp : tagfs_log) (mode uid gid : Z)
  : M (Z * tagfs_log) :=
  if String.eqb (me_parentdir env) "." then ret (-1, logp)
  else
    let* st := sys_stat (me_parentdir env) in
    match st with
    | None => abort
    | Some ino =>
        match i_kind ino with
        | S_IFDIR =>
            match me_realparent env with
            | None => ret (-1, logp)
            | Some realparent =>
                let fullpath :=
                  snprintf_path (PATH_MAX - 1) realparent (me_newdir env) in
                if me_mmap_failed env then ret (-1, logp)
                else
                  match tagfs_relpath_from_fullpath (me_mpt env) (Some fullpath) with
                  | None | Some None => abort
                  | Some (Some relpath) =>
                      let* rc := tagfs_dir_create K (me_mpt env) relpath mode uid gid in
                      if negb (rc =? 0) then ret (-1, logp)
                      else
                        match tagfs_log_dir_creation TAGFS_LOG_MAGIC TAGFS_MAX_PATHLEN
                                logp relpath mode uid gid with
                        | None => abort
                        | Some (rc, logp') => ret (rc, logp')
                        end
                  end
            end
        | _ => ret (-1, logp)
        end
    end.

(** [tagfs_dir_create] returns 0 only for a directory it made, owned by
    root on one side at least. *)
Lemma tagfs_dir_create_zero mpt rpath mode uid gid w w' :
  tagfs_dir_create K mpt rpath mode uid gid w = Some (0, w') ->
  let fullpath := snprintf_path (PATH_MAX - 1) mpt rpath in
  (uid = 0 \/ gid = 0) /\ w_fs w !! fullpath = None /\
  w' = mk_world (<[fullpath := mk_inode S_IFDIR (mkdir_mode K mode)]> (w_fs w)) (w_ioctls w) (w_out w).
Proof.
  unfold tagfs_dir_create. intros H.
  set (fullpath := snprintf_path (PATH_MAX - 1) mpt rpath) in *.
  apply bindM_Some in H as (rc1 & w1 & Hmk & H).
  unfold sys_mkdir in Hmk.
  destruct (w_fs w !! fullpath) eqn:Hfs.
  { inversion Hmk; subst. simpl in H.
    apply bindM_Some in H as ([] & w2 & _ & H). inversion H. }
  destruct (_ =? 0) in Hmk; inversion Hmk; subst rc1 w1; clear Hmk; simpl in H.
  2:{ apply bindM_Some in H as ([] & w2 & _ & H). inversion H. }
  destruct (Z.eqb_spec uid 0) as [Hu|Hu]; simpl in H.
  { inversion H; subst. split; [by left|done]. }
  destruct (Z.eqb_spec gid 0) as [Hg|Hg]; simpl in H.
  { inversion H; subst. split; [by right|done]. }
  apply bindM_Some in H as (rc2 & w2 & _ & H).
  apply bindM_Some in H as ([] & w3 & _ & H). inversion H.
Qed.

(** X15.  [tagfs_mkdir] called with a non-zero uid and a non-zero gid never
    logs the directory: whatever happens it returns -1 and leaves the log
    as it was, since [tagfs_dir_create] reports failure for such an owner
    and the log is written only after its success. *)
Theorem mkdir_nonzero_owner_never_logs env logp mode uid gid w rc logp' w' :
  uid <> 0 -> gid <> 0 ->
  tagfs_mkdir_call env logp mode uid gid w = Some ((rc, logp'), w') ->
  rc = -1 /\ logp' = logp.
Proof.
  intros Huid Hgid Hrun. unfold tagfs_mkdir_call in Hrun.
  destruct (String.eqb _ _); [by inversion Hrun|].
  apply bindM_Some in Hrun as (st & w1 & Hst & Hrun).
  unfold sys_stat in Hst. inversion Hst; subst st w1; clear Hst.
  destruct (w_fs w !! _) as [ino|]; [|done].
  destruct (i_kind ino); try by inversion Hrun.
  destruct (me_realparent env) as [realparent|]; [|by inversion Hrun].
  destruct (me_mmap_failed env); [by inversion Hrun|].
  destruct (tagfs_relpath_from_fullpath _ _) as [[relpath|]|]; [|done..].
  apply bindM_Some in Hrun as (rc1 & w2 & Hdc & Hrun).
  destruct (tagfs_dir_create_nonzero K (me_mpt env) relpath mode uid gid w Huid Hgid)
    as (w3 & Hdc' & _).
  rewrite Hdc' in Hdc. inversion Hdc; subst rc1 w2. simpl in Hrun.
  by inversion Hrun.
Qed.


(** X17.  [tagfs_mkdir] returns 0 only when it has both made and logged the
    directory: the new path did not exist, is now a directory whose
    permission bits are the requested mode less the bits of the umask, and,
    the slot at the old [next_index] lying inside the mapped log, the entry
    read back from that slot is the MKDIR entry for its path relative to the
    mount point, carrying the requested mode as given and stamped with the
    old [next_seqnum], every other slot being as it was; the uid or the gid
    is then 0. *)
Theorem mkdir_success_made_and_logged env logp mode uid gid w logp' w' :
  tagfs_mkdir_call env logp mode uid gid w = Some ((0, logp'), w') ->
  (Z.to_nat (tagfs_log_next_index logp) < length (entries logp))%nat ->
  exists realparent relpath,
    me_realparent env = Some realparent /\
    tagfs_relpath_from_fullpath (me_mpt env)
      (Some (snprintf_path (PATH_MAX - 1) realparent (me_newdir env)))
      = Some (Some relpath) /\
    (uid = 0 \/ gid = 0) /\
    let target := snprintf_path (PATH_MAX - 1) (me_mpt env) relpath in
    w_fs w !! target = None /\
    w_fs w' = <[target := mk_inode S_IFDIR (mkdir_mode K mode)]> (w_fs w) /\
    entries logp' !! Z.to_nat (tagfs_log_next_index logp)
      = Some (mk_log_entry (tagfs_log_next_seqnum logp)
                (TAGFS_LOG_MKDIR (mk_mkdir (strncpy relpath (TAGFS_MAX_PATHLEN - 1))
                                           mode uid gid))) /\
    (forall i, i <> Z.to_nat (tagfs_log_next_index logp) ->
       entries logp' !! i = entries logp !! i) /\
    tagfs_log_next_index logp' = u64 (tagfs_log_next_index logp + 1).
Proof.
  intros Hrun Hcap. unfold tagfs_mkdir_call in Hrun.
  destruct (String.eqb _ _); [by inversion Hrun|].
  apply bindM_Some in Hrun as (st & w1 & Hst & Hrun).
  unfold sys_stat in Hst. inversion Hst; subst st w1; clear Hst.
  destruct (w_fs w !! me_parentdir env) as [ino|]; [|done].
  destruct (i_kind ino); try by inversion Hrun.
  destruct (me_realparent env) as [realparent|]; [|by inversion Hrun].
  destruct (me_mmap_failed env); [by inversion Hrun|].
  destruct (tagfs_relpath_from_fullpath _ _) as [[relpath|]|] eqn:Hrel; [|done..].
  apply bindM_Some in Hrun as (rc1 & w2 & Hdc & Hrun).
  destruct (Z.eqb_spec rc1 0) as [->|Hrc1]; simpl in Hrun; [|by inversion Hrun].
  apply tagfs_dir_create_zero in Hdc as (Howner & Habsent & ->).
  destruct (tagfs_log_dir_creation _ _ _ _ _ _ _) as [[rc2 logp2]|] eqn:Hlog;
    [|done].
  inversion Hrun; subst rc2 logp2 w'. clear Hrun.
  exists realparent, relpath. split; [done|]. split; [done|]. split; [done|].
  simpl. split; [done|]. split; [done|].
  unfold tagfs_log_dir_creation in Hlog.
  destruct (String.prefix "/" relpath); [done|].
  match type of Hlog with
  | context [tagfs_append_log _ _ (Some ?e)] => set (le := e) in *
  end.
  destruct (logged_append_cases TAGFS_LOG_MAGIC logp le 0 logp' Hlog)
    as [(_ & _ & _ & Hent & Hi & _)|(_ & [(Hrc & _)|[(Hrc & _)|(Hrc & _)]])];
    [|discriminate Hrc..].
  rewrite Hent. split; [by apply list_lookup_insert_eq|].
  split; [|exact Hi].
  intros i Hi'. by apply list_lookup_insert_ne.
Qed.

End MakeDir.

(** A call [tagfs_mkdir("/mnt/tagfs/dir", ...)] on a tagfs mounted at
    [/mnt/tagfs]. *)
Definition sample_mkdir_env : mkdir_env :=
  mk_mkdir_env "/mnt/tagfs" "dir" (Some "/mnt/tagfs") "/mnt/tagfs" false.

Definition mounted_world : world :=
  mk_world {[ "/mnt/tagfs" := mk_inode S_IFDIR 493 ]} [] [].

Lemma mkdir_nonzero_owner_never_logs_witness :
  exists rc logp' w',
    tagfs_mkdir_call sample_kernel sample_magic sample_max_pathlen sample_mkdir_env
      sample_empty_log 493 1000 1000 mounted_world = Some ((rc, logp'), w') /\
    rc = -1 /\ logp' = sample_empty_log.
Proof.
  assert (exists rc logp' w',
            tagfs_mkdir_call sample_kernel sample_magic sample_max_pathlen
              sample_mkdir_env sample_empty_log 493 1000 1000 mounted_world
            = Some ((rc, logp'), w')) as (rc & logp' & w' & Hrun).
  { eexists _, _, _. vm_compute. reflexivity. }
  exists rc, logp', w'. split; [exact Hrun|].
  apply (mkdir_nonzero_owner_never_logs sample_kernel sample_magic
           sample_max_pathlen sample_mkdir_env sample_empty_log 493 1000 1000
           mounted_world rc logp' w'); [lia | lia | exact Hrun].
Defined.


Lemma mkdir_success_made_and_logged_witness :
  exists logp' w',
    tagfs_mkdir_call sample_kernel sample_magic sample_max_pathlen sample_mkdir_env
      sample_empty_log 511 0 0 mounted_world = Some ((0, logp'), w') /\
    (Z.to_nat (tagfs_log_next_index sample_empty_log)
       < length (entries sample_empty_log))%nat /\
    w_fs w' !! "/mnt/tagfs/dir" = Some (mk_inode S_IFDIR 493) /\
    entries logp' !! 0%nat
      = Some (mk_log_entry 0 (TAGFS_LOG_MKDIR (mk_mkdir "dir" 511 0 0))).
Proof.
  assert (exists logp' w',
            tagfs_mkdir_call sample_kernel sample_magic sample_max_pathlen
              sample_mkdir_env sample_empty_log 511 0 0 mounted_world
            = Some ((0, logp'), w')) as (logp' & w' & Hrun).
  { eexists _, _. vm_compute. reflexivity. }
  assert (Z.to_nat (tagfs_log_next_index sample_empty_log)
            < length (entries sample_empty_log))%nat as Hcap.
  { vm_compute. lia. }
  exists logp', w'. split; [exact Hrun|]. split; [exact Hcap|].
  destruct (mkdir_success_made_and_logged sample_kernel sample_magic
              sample_max_pathlen sample_mkdir_env sample_empty_log 511 0 0
              mounted_world logp' w' Hrun Hcap)
    as (realparent & relpath & Hreal & Hrel & _ & _ & Hfs & Hent & _).
  injection Hreal as <-. vm_compute in Hrel. injection Hrel as <-.
  split.
  - rewrite Hfs. reflexivity.
  - exact Hent.
Defined.

(** ** Checking a log for double allocation *)

Section Fsck.

Variable TAGFS_ALLOC_UNIT : Z.
Variable TAGFS_SUPERBLOCK_SIZE : Z.
Variable TAGFS_LOG_OFFSET : Z.
Variable TAGFS_LOG_LEN : Z.

Local Abbreviation AU := TAGFS_ALLOC_UNIT.
Local Abbreviation units := (extent_units TAGFS_ALLOC_UNIT).

(** [tagfs_fsck_scan]: its return value, [errors] converted to [int].  Of
    the superblock only the size of the first device is used, and [errors]
    is still 0 when [tagfs_build_bitmap] returned [NULL].  What the function
    prints is not recorded. *)
Definition tagfs_fsck_scan (dd_size : Z) (logp : tagfs_log) : option Z :=
  r ← tagfs_build_bitmap AU TAGFS_SUPERBLOCK_SIZE TAGFS_LOG_OFFSET TAGFS_LOG_LEN
        logp dd_size;
  Some (match r with
        | None => 0
        | Some br => to_int (bb_errors br)
        end).

(** The number of allocation units the scan marks. *)
Definition units_total (l : list tagfs_log_extent) : Z :=
  Zsum (map (fun x => Z.of_nat (Z.to_nat (extent_np AU (tagfs_extent_len (se x))))) l).

(** No allocation unit belongs to two extents of the list. *)
Fixpoint disjoint_units (l : list tagfs_log_extent) : Prop :=
  match l with
  | [] => True
  | x :: rest =>
      (forall y, y ∈ rest -> forall u, units x u -> ~ units y u) /\
      disjoint_units rest
  end.

Lemma units_total_app l1 l2 :
  units_total (l1 ++ l2) = units_total l1 + units_total l2.
Proof.
  unfold units_total. induction l1 as [|x l1 IH]; simpl; [done|].
  rewrite IH. lia.
Qed.

Lemma units_total_nonneg l : 0 <= units_total l.
Proof. unfold units_total. induction l as [|x l IH]; simpl; lia. Qed.

Lemma disjoint_units_app l1 l2 :
  disjoint_units l1 -> disjoint_units l2 ->
  (forall x y, x ∈ l1 -> y ∈ l2 -> forall u, units x u -> ~ units y u) ->
  disjoint_units (l1 ++ l2).
Proof.
  induction l1 as [|x l1 IH]; simpl; intros H1 H2 Hcross; [done|].
  destruct H1 as [Hx H1]. split.
  - intros y Hy u Hu. apply elem_of_app in Hy as [Hy|Hy].
    + by apply (Hx y).
    + apply (Hcross x y); [apply list_elem_of_here|done..].
  - apply IH; [done..|]. intros x' y Hx' Hy. apply Hcross; [|done].
    by apply list_elem_of_further.
Qed.

Lemma disjoint_units_lookup l : forall (a b : nat) x y,
  disjoint_units l -> (a < b)%nat -> l !! a = Some x -> l !! b = Some y ->
  forall u, units x u -> ~ units y u.
Proof.
  induction l as [|z l IH]; intros a b x y Hd Hab Ha Hb; [done|].
  destruct Hd as [Hz Hd]. destruct b as [|b]; [lia|]. simpl in Hb.
  destruct a as [|a]; simpl in Ha.
  - inversion Ha; subst z. apply Hz. by eapply list_elem_of_lookup_2.
  - apply (IH a b); [done|lia|done..].
Qed.

(** What a stretch of the scan over the extents [l] does to the bitmap and
    to the collision counter: the bitmap grows by the units of [l], and the
    counter by the number [c] of units found set; with no such unit the
    units of [l] were all clear before and belong to one extent each. *)
Definition scanned (b : bitmap) (e : Z) (b' : bitmap) (e' : Z)
    (l : list tagfs_log_extent) : Prop :=
  grows b b' /\
  (forall x, x ∈ l -> forall u, units x u -> 0 <= u /\ bit_at b' u = true) /\
  (is_u64 e -> is_u64 e') /\
  exists c, 0 <= c <= units_total l /\ u64 e' = u64 (e + c) /\
    (c = 0 -> (forall x, x ∈ l -> forall u, units x u -> bit_at b u = false) /\
              disjoint_units l).

Lemma scanned_nil b e : scanned b e b e [].
Proof.
  split; [apply grows_refl|]. split; [intros x Hx; by apply elem_of_nil in Hx|].
  split; [done|]. exists 0. split; [done|]. split; [by rewrite Z.add_0_r|].
  intros _. split; [|done]. intros x Hx. by apply elem_of_nil in Hx.
Qed.

Lemma scanned_app b e b1 e1 b2 e2 l1 l2 :
  scanned b e b1 e1 l1 -> scanned b1 e1 b2 e2 l2 ->
  scanned b e b2 e2 (l1 ++ l2).
Proof.
  intros (Hg1 & Hset1 & Hu1 & c1 & Hc1 & He1 & Hclean1)
         (Hg2 & Hset2 & Hu2 & c2 & Hc2 & He2 & Hclean2).
  split; [by eapply grows_trans|]. split.
  { intros x Hx u Hu. apply elem_of_app in Hx as [Hx|Hx].
    - destruct (Hset1 x Hx u Hu) as [Hu0 Hbit]. split; [done|].
      destruct Hg2 as [_ Hg2]. by apply Hg2.
    - by apply (Hset2 x Hx). }
  split; [auto|].
  exists (c1 + c2). rewrite units_total_app. split; [lia|]. split.
  { rewrite He2, <- u64_add_l, He1, u64_add_l. f_equal. lia. }
  intros Hzero. assert (c1 = 0) as Hz1 by lia. assert (c2 = 0) as Hz2 by lia.
  destruct (Hclean1 Hz1) as [Hclear1 Hd1]. destruct (Hclean2 Hz2) as [Hclear2 Hd2].
  split.
  - intros x Hx u Hu. apply elem_of_app in Hx as [Hx|Hx]; [by apply (Hclear1 x)|].
    destruct (bit_at b u) eqn:Hb; [|done].
    destruct (Hset2 x Hx u Hu) as [Hu0 _]. destruct Hg1 as [_ Hg1].
    rewrite <- (Hclear2 x Hx u Hu). symmetry. by apply Hg1.
  - apply disjoint_units_app; [done..|]. intros x y Hx Hy u Hux Huy.
    destruct (Hset1 x Hx u Hux) as [_ Hbit]. rewrite (Hclear2 y Hy u Huy) in Hbit.
    done.
Qed.

Lemma mark_pages_count n : forall st k st',
  mark_pages AU st k n = Some st' ->
  (is_u64 (bs_errors st) -> is_u64 (bs_errors st')) /\
  exists c, 0 <= c <= Z.of_nat n /\
    u64 (bs_errors st') = u64 (bs_errors st + c) /\
    (c = 0 -> forall j, k <= j < k + Z.of_nat n -> bit_at (bs_bitmap st) j = false).
Proof.
  induction n as [|n IH]; intros st k st' Hmark; cbn [mark_pages] in Hmark.
  - inversion Hmark; subst. split; [done|]. exists 0. split; [done|].
    split; [by rewrite Z.add_0_r|]. intros _ j Hj. lia.
  - destruct (mu_bitmap_test_and_set (bs_bitmap st) k) as [[rc b1]|] eqn:Hone;
      [|done]. simpl in Hmark.
    apply mu_bitmap_test_and_set_Some in Hone as (Hin & Hlen & Hcase).
    destruct Hcase as [(-> & Hb & ->)|(-> & Hb & Hbits)]; simpl in Hmark;
      apply IH in Hmark as (Hu & c & Hc & He & Hclean); simpl in Hu, He, Hclean.
    + split; [intros _; apply Hu, u64_range|].
      exists (c + 1). split; [lia|]. split.
      { rewrite He, u64_add_l. f_equal. lia. }
      intros Hzero. lia.
    + split; [done|]. exists c. split; [lia|]. split; [done|].
      intros Hzero j Hj. destruct (decide (j = k)) as [->|Hne]; [done|].
      specialize (Hclean Hzero j ltac:(lia)).
      rewrite Hbits in Hclean by (destruct Hin; lia).
      by apply orb_false_iff in Hclean as [Hclean _].
Qed.

Lemma mark_extents_scanned ext : forall st j nextents st',
  mark_extents AU st ext j nextents = Some st' ->
  scanned (bs_bitmap st) (bs_errors st) (bs_bitmap st') (bs_errors st')
          (entry_extents ext j nextents).
Proof.
  induction ext as [|x rest IH]; intros st j nextents st' Hmark;
    cbn [mark_extents entry_extents] in *.
  - destruct (j <? nextents); [done|]. inversion Hmark; subst. apply scanned_nil.
  - destruct (j <? nextents); [|inversion Hmark; subst; apply scanned_nil].
    destruct (negb _); [done|].
    destruct (mark_pages AU st _ _) as [st1|] eqn:Hpages; [|done]. simpl in Hmark.
    apply IH in Hmark.
    apply (scanned_app _ _ (bs_bitmap st1) (bs_errors st1) _ _ [x]); [|done].
    pose proof (mark_pages_grows _ _ _ _ _ Hpages) as [Hg Hset].
    apply mark_pages_count in Hpages as (Hu & c & Hc & He & Hclean).
    split; [done|]. split.
    { intros y Hy u Hu'. apply list_elem_of_singleton in Hy as ->. by apply Hset. }
    split; [done|]. exists c. split.
    { unfold units_total. simpl. lia. }
    split; [done|]. intros Hzero. split.
    + intros y Hy u Hu'. apply list_elem_of_singleton in Hy as ->.
      by apply (Hclean Hzero).
    + simpl. split; [|done]. intros y Hy. by apply elem_of_nil in Hy.
Qed.

Lemma scan_log_scanned es : forall st i next_index st',
  scan_log AU st es i next_index = Some st' ->
  scanned (bs_bitmap st) (bs_errors st) (bs_bitmap st') (bs_errors st')
          (log_extents es i next_index).
Proof.
  induction es as [|le rest IH]; intros st i next_index st' Hscan;
    cbn [scan_log log_extents] in *.
  - destruct (i <? next_index); [done|]. inversion Hscan; subst. apply scanned_nil.
  - destruct (i <? next_index); [|inversion Hscan; subst; apply scanned_nil].
    match type of Hscan with
    | (?m ≫= _) = _ => destruct m as [st1|] eqn:Hentry; [|done]
    end.
    simpl in Hscan. apply IH in Hscan.
    apply (scanned_app _ _ (bs_bitmap st1) (bs_errors st1)); [|done].
    destruct (tagfs_log_entry_body le) as [fc|md| |].
    + apply mark_extents_scanned in Hentry. exact Hentry.
    + inversion Hentry; subst. apply scanned_nil.
    + inversion Hentry; subst. apply scanned_nil.
    + inversion Hentry; subst. apply scanned_nil.
Qed.

(** X18.  [tagfs_fsck_scan] misses no double allocation.  On a log that
    marks fewer than 2^32 allocation units in all, and with the bitmap
    allocated, a return of 0 means that no unit belongs to two of the
    extents the scan visits and that none of them touches unit 0 or a whole
    unit of the superblock-and-log area. *)
Theorem fsck_zero_means_no_overlap dd_size logp :
  units_total (logged_extents logp) < 2 ^ 32 ->
  tagfs_build_bitmap AU TAGFS_SUPERBLOCK_SIZE TAGFS_LOG_OFFSET TAGFS_LOG_LEN
    logp dd_size <> Some None ->
  tagfs_fsck_scan dd_size logp = Some 0 ->
  (forall (a : nat) x, logged_extents logp !! a = Some x ->
     forall u, units x u ->
       Z.max 1 ((TAGFS_LOG_OFFSET + TAGFS_LOG_LEN) / AU) <= u) /\
  (forall (a b : nat) x y, a <> b ->
     logged_extents logp !! a = Some x -> logged_extents logp !! b = Some y ->
     forall u, units x u -> ~ units y u).
Proof.
  intros Htotal Hbitmap Hrun. unfold tagfs_fsck_scan in Hrun.
  destruct (tagfs_build_bitmap _ _ _ _ _ _) as [[br|]|] eqn:Hbuild; [|done..].
  simpl in Hrun. inversion Hrun as [Herr]. clear Hrun Hbitmap.
  unfold tagfs_build_bitmap in Hbuild.
  destruct (_ <? 0) in Hbuild; [done|].
  destruct (put_sb_log_into_bitmap _ _ _ _) as [b|] eqn:Hput; [|done].
  simpl in Hbuild.
  destruct (scan_log _ _ _ _ _) as [st|] eqn:Hscan; [|done]. simpl in Hbuild.
  inversion Hbuild; subst br. clear Hbuild. simpl in Herr.
  apply put_sb_log_into_bitmap_grows in Hput as [_ Hsb].
  apply scan_log_scanned in Hscan as (_ & Hset & Hu & c & Hc & He & Hclean).
  simpl in Hset, Hu, He, Hclean. fold (logged_extents logp) in *.
  assert (c = 0) as Hzero.
  { assert (is_u64 (bs_errors st)) as Hrange by (by apply Hu).
    rewrite (u64_small _ Hrange) in He.
    rewrite u64_small in He by (unfold is_u64, u64_mod; lia).
    rewrite He in Herr. unfold to_int in Herr. rewrite Z.add_0_l in Herr.
    pose proof (Z.div_mod (c + 2 ^ 31) (2 ^ 32) ltac:(lia)) as Hdm. lia. }
  destruct (Hclean Hzero) as [Hclear Hd]. split.
  - intros a x Ha u Hu'.
    assert (x ∈ logged_extents logp) as Hx by (by eapply list_elem_of_lookup_2).
    destruct (Hset x Hx u Hu') as [Hu0 _].
    destruct (decide (Z.max 1 ((TAGFS_LOG_OFFSET + TAGFS_LOG_LEN) / AU) <= u))
      as [|Hlt]; [done|].
    pose proof (Hclear x Hx u Hu') as Hbit. rewrite Hsb in Hbit by lia. done.
  - intros a b' x y Hab Ha Hb u Hx Hy.
    destruct (decide (a < b')%nat) as [Hlt|Hge].
    + by apply (disjoint_units_lookup _ a b' x y Hd Hlt Ha Hb u).
    + by apply (disjoint_units_lookup _ b' a y x Hd ltac:(lia) Hb Ha u).
Qed.

End Fsck.

Lemma fsck_zero_means_no_overlap_witness :
  tagfs_fsck_scan sample_alloc_unit sample_superblock_size sample_log_offset
    sample_log_len GiB sample_file_log = Some 0 /\
  forall u,
    extent_units sample_alloc_unit
      (mk_log_extent TAGFS_EXT_SIMPLE (mk_simple_extent (10 * MiB) (3 * MiB))) u ->
    5 <= u.
Proof.
  assert (tagfs_fsck_scan sample_alloc_unit sample_superblock_size
            sample_log_offset sample_log_len GiB sample_file_log = Some 0)
    as Hrun by (vm_compute; reflexivity).
  split; [exact Hrun|].
  destruct (fsck_zero_means_no_overlap sample_alloc_unit sample_superblock_size
              sample_log_offset sample_log_len GiB sample_file_log)
    as [Hmeta _]; [by vm_compute | by vm_compute | exact Hrun |].
  intros u Hu.
  apply (Hmeta 0%nat
           (mk_log_extent TAGFS_EXT_SIMPLE (mk_simple_extent (10 * MiB) (3 * MiB))));
    [reflexivity | exact Hu].
Defined.

(** ** The extents replay hands to the kernel *)

(** The second loop of the FILE case reads [tle[j]] with [tle] already at
    [&ext_list[j]]: slot [j] of the list it builds holds [ext_list[2 * j]]. *)
Lemma build_el_stride all ext : forall j nextents els,
  0 <= j ->
  build_el all ext j nextents = Some els ->
  length els = Z.to_nat (nextents - j) /\
  forall k : nat, (k < length els)%nat ->
    els !! k = se <$> all !! Z.to_nat (2 * (j + Z.of_nat k)).
Proof.
  induction ext as [|x rest IH]; intros j nextents els Hj Hbuild;
    cbn [build_el] in Hbuild.
  - destruct (j <? nextents) eqn:Hlt; [done|]. apply Z.ltb_ge in Hlt.
    inversion Hbuild; subst. simpl. split; [lia|]. intros k Hk. lia.
  - destruct (j <? nextents) eqn:Hlt.
    2:{ apply Z.ltb_ge in Hlt. inversion Hbuild; subst. simpl.
        split; [lia|]. intros k Hk. lia. }
    apply Z.ltb_lt in Hlt.
    destruct (all !! Z.to_nat (j + j)) as [x0|] eqn:Hx0; [|done]. simpl in Hbuild.
    destruct (build_el all rest (j + 1) nextents) as [els'|] eqn:Hrest; [|done].
    simpl in Hbuild. inversion Hbuild; subst els. clear Hbuild.
    apply IH in Hrest as [Hlen Hslots]; [|lia]. split; [simpl; lia|].
    intros [|k] Hk; simpl in *.
    + replace (2 * (j + Z.of_nat 0)) with (j + j) by lia. by rewrite Hx0.
    + rewrite Hslots by lia. do 2 f_equal. lia.
Qed.

Section ReplayExtents.

Variable K : kernel.

Lemma sys_unlink_ioctls path w w' :
  sys_unlink K path w = Some (tt, w') -> w_ioctls w' = w_ioctls w.
Proof.
  unfold sys_unlink. intros H.
  destruct (w_fs w !! path) as [ino|]; [|by inversion H].
  destruct (i_kind ino); try by inversion H.
  - destruct (_ =? 0) in H; by inversion H.
  - destruct (_ =? 0) in H; by inversion H.
Qed.

Lemma tagfs_file_create_ioctls path mode uid gid w fd w' :
  tagfs_file_create K path mode uid gid w = Some (fd, w') ->
  exists new, w_ioctls w' = w_ioctls w ++ new /\
    forall d m, (d, TAGFSIOC_MAP_CREATE m) ∉ new.
Proof.
  unfold tagfs_file_create. intros H.
  apply bindM_Some in H as (st & w1 & Hst & H).
  unfold sys_stat in Hst. inversion Hst; subst st w1; clear Hst.
  destruct (w_fs w !! path) as [ino|] eqn:Hfs.
  { apply bindM_Some in H as ([] & w1 & Hp & H). inversion Hp; subst w1.
    inversion H; subst. exists []. rewrite app_nil_r. split; [done|].
    intros d m Hin. by apply elem_of_nil in Hin. }
  apply bindM_Some in H as (fd1 & w1 & Hopen & H).
  assert (w_ioctls w1 = w_ioctls w) as Hio1.
  { unfold sys_open_creat in Hopen. rewrite Hfs in Hopen.
    destruct (_ <? 0) in Hopen; inversion Hopen; subst; done. }
  destruct (fd1 <? 0).
  { apply bindM_Some in H as ([] & w2 & Hp & H). inversion Hp; subst w2.
    inversion H; subst. exists []. rewrite app_nil_r. split; [done|].
    intros d m Hin. by apply elem_of_nil in Hin. }
  apply bindM_Some in H as (nt & w2 & Hnt & H).
  unfold __file_not_tagfs in Hnt.
  apply bindM_Some in Hnt as (rc & w3 & Hio & Hnt).
  unfold sys_ioctl in Hio. inversion Hio; subst rc w3; clear Hio.
  assert (w_ioctls w2 = w_ioctls w ++ [(fd1, TAGFSIOC_NOP)]) as Hio2.
  { destruct (_ =? 0) in Hnt; inversion Hnt; subst; simpl; by rewrite Hio1. }
  exists [(fd1, TAGFSIOC_NOP)]. split.
  2:{ intros d m Hin. apply list_elem_of_singleton in Hin. done. }
  rewrite <- Hio2. clear Hnt Hio2.
  destruct (negb (nt =? 0)).
  { apply bindM_Some in H as ([] & w3 & Hun & H).
    apply bindM_Some in H as ([] & w4 & Hp & H). inversion Hp; subst w4.
    inversion H; subst. simpl. by apply sys_unlink_ioctls in Hun. }
  apply bindM_Some in H as ([] & w3 & Hown & H). inversion H; subst.
  destruct (negb (uid =? 0) && negb (gid =? 0)); [|by inversion Hown].
  apply bindM_Some in Hown as (rc & w4 & Hch & Hown).
  unfold sys_fchown in Hch. inversion Hch; subst rc w4.
  destruct (_ =? 0) in Hown; by inversion Hown.
Qed.

(** X19.  The extent list replay gives the kernel is not the logged one
    beyond its first element: every map-create request issued while an
    entry is replayed belongs to an accepted FILE entry, carries its size,
    and has [ext_list[2 * j]] of the entry as its extent [j]. *)
Theorem replay_maps_every_other_extent mpt dry_run i le w w' :
  play_entry K mpt dry_run i le w = Some (tt, w') ->
  exists new, w_ioctls w' = w_ioctls w ++ new /\
    forall fd m, (fd, TAGFSIOC_MAP_CREATE m) ∈ new ->
      exists fc,
        tagfs_log_entry_body le = TAGFS_LOG_FILE fc /\
        file_accepted fc = true /\
        file_size m = tagfs_fc_size fc /\
        length (ext_list m) = Z.to_nat (tagfs_nextents fc) /\
        forall j : nat, Z.of_nat j < tagfs_nextents fc ->
          ext_list m !! j = se <$> tagfs_ext_list fc !! (2 * j)%nat.
Proof.
  assert (Hnone : forall w0 : world, exists new : list (Z * ioctl_req),
            w_ioctls w0 = w_ioctls w0 ++ new /\
            forall fd m, (fd, TAGFSIOC_MAP_CREATE m) ∈ new ->
              exists fc,
                tagfs_log_entry_body le = TAGFS_LOG_FILE fc /\
                file_accepted fc = true /\
                file_size m = tagfs_fc_size fc /\
                length (ext_list m) = Z.to_nat (tagfs_nextents fc) /\
                forall j : nat, Z.of_nat j < tagfs_nextents fc ->
                  ext_list m !! j = se <$> tagfs_ext_list fc !! (2 * j)%nat).
  { intros w0. exists []. rewrite app_nil_r. split; [done|].
    intros fd m Hin. by apply elem_of_nil in Hin. }
  unfold play_entry.
  destruct (tagfs_log_entry_body le) as [fc|md| |] eqn:Hbody; intros Hrun.
  - pose proof (play_file_Some K _ _ _ _ _ _ Hrun) as Hlen.
    destruct (play_file_checks K mpt dry_run i fc w Hlen)
      as (skip & k & Hplay & Hskip & ->).
    rewrite Hplay in Hrun. clear Hplay.
    destruct (Z.eqb_spec skip 0) as [Hs|Hs]; simpl in Hrun;
      [|inversion Hrun; subst; apply (Hnone w)].
    apply Hskip in Hs.
    destruct (negb (dry_run =? 0)); [inversion Hrun; subst; apply (Hnone w)|].
    apply bindM_Some in Hrun as (st & w1 & Hst & Hrun).
    unfold sys_stat in Hst. inversion Hst; subst st w1; clear Hst. simpl in Hrun.
    destruct (w_fs w !! _) as [ino|];
      [inversion Hrun; subst; apply (Hnone w)|].
    apply bindM_Some in Hrun as ([] & w1 & Hp & Hrun). inversion Hp; subst w1.
    apply bindM_Some in Hrun as (fd & w2 & Hcreate & Hrun).
    apply tagfs_file_create_ioctls in Hcreate as (new1 & Hio1 & Hnew1).
    simpl in Hio1.
    destruct (fd <? 0) eqn:Hfd.
    { apply bindM_Some in Hrun as ([] & w3 & Hp3 & Hrun). inversion Hp3; subst w3.
      exists new1. split.
      - apply sys_unlink_ioctls in Hrun. by rewrite Hrun.
      - intros d m Hin. by apply Hnew1 in Hin. }
    destruct (build_el _ _ _ _) as [el|] eqn:Hel; [|done].
    apply build_el_stride in Hel as [Hellen Hslots]; [|done].
    rewrite Z.sub_0_r in Hellen.
    apply bindM_Some in Hrun as (rc & w3 & Hmap & Hrun). inversion Hrun; subst w3.
    clear Hrun. unfold tagfs_file_map_create in Hmap.
    destruct (fd <=? 0); [done|].
    destruct (_ <? 0) in Hmap.
    { inversion Hmap; subst. exists new1. split; [done|].
      intros d m Hin. by apply Hnew1 in Hin. }
    apply bindM_Some in Hmap as (rc1 & w3 & Hio & Hmap).
    unfold sys_ioctl in Hio. inversion Hio; subst rc1 w3; clear Hio.
    apply bindM_Some in Hmap as ([] & w4 & Hp4 & Hmap). inversion Hmap; subst rc w4.
    eexists (new1 ++ [_]). split.
    { destruct (_ =? 0) in Hp4; inversion Hp4; subst; simpl;
        by rewrite Hio1, app_assoc. }
    intros d m Hin. apply elem_of_app in Hin as [Hin|Hin]; [by apply Hnew1 in Hin|].
    apply list_elem_of_singleton in Hin. inversion Hin; subst d m. clear Hin.
    exists fc. simpl. split; [done|]. split; [done|]. split; [done|].
    split; [done|]. intros j Hj. rewrite Hslots by lia. do 2 f_equal. lia.
  - unfold play_mkdir in Hrun.
    apply bindM_Some in Hrun as ([] & w1 & Hp & Hrun). inversion Hp; subst w1.
    destruct (negb (tagfs_log_entry_md_path_is_relative md));
      [inversion Hrun; subst; apply (Hnone w)|].
    destruct (negb (dry_run =? 0)); [inversion Hrun; subst; apply (Hnone w)|].
    apply bindM_Some in Hrun as (st & w1 & Hst & Hrun).
    unfold sys_stat in Hst. inversion Hst; subst st w1; clear Hst. simpl in Hrun.
    destruct (w_fs w !! _) as [ino|].
    { destruct (i_kind ino); inversion Hrun; subst; apply (Hnone w). }
    apply bindM_Some in Hrun as ([] & w1 & Hp1 & Hrun). inversion Hp1; subst w1.
    apply bindM_Some in Hrun as (rc & w2 & Hdc & Hrun).
    apply tagfs_dir_create_effect in Hdc as [_ Hio]. simpl in Hio.
    exists []. rewrite app_nil_r. split.
    + destruct (negb (rc =? 0)); inversion Hrun; subst; done.
    + intros fd m Hin. by apply elem_of_nil in Hin.
  - inversion Hrun; subst. apply (Hnone w).
  - inversion Hrun; subst. apply (Hnone w).
Qed.

End ReplayExtents.

(** A FILE entry with two extents, in an extent array of three slots. *)
Definition two_extent_entry : tagfs_log_entry :=
  mk_log_entry 0
    (TAGFS_LOG_FILE
       (mk_file_creation (4 * MiB) 2 sample_flags "foo" 420 0 0
          [mk_log_extent TAGFS_EXT_SIMPLE (mk_simple_extent (10 * MiB) (2 * MiB));
           mk_log_extent TAGFS_EXT_SIMPLE (mk_simple_extent (14 * MiB) (2 * MiB));
           blank_log_extent])).

Lemma replay_maps_every_other_extent_witness :
  exists w' new,
    play_entry sample_kernel "/mnt/tagfs" 0 0 two_extent_entry empty_world
      = Some (tt, w') /\
    w_ioctls w' = new /\
    forall fd m, (fd, TAGFSIOC_MAP_CREATE m) ∈ new ->
      ext_list m !! 0%nat = Some (mk_simple_extent (10 * MiB) (2 * MiB)) /\
      ext_list m !! 1%nat = Some (mk_simple_extent 0 0).
Proof.
  assert (exists w',
            play_entry sample_kernel "/mnt/tagfs" 0 0 two_extent_entry empty_world
            = Some (tt, w')) as [w' Hrun].
  { eexists. vm_compute. reflexivity. }
  destruct (replay_maps_every_other_extent sample_kernel "/mnt/tagfs" 0 0
              two_extent_entry empty_world w' Hrun) as (new & Hio & Hall).
  exists w', new. split; [exact Hrun|]. split; [exact Hio|].
  intros fd m Hin. destruct (Hall fd m Hin) as (fc & Hbody & _ & _ & _ & Hslots).
  injection Hbody as <-.
  split; [rewrite (Hslots 0%nat) | rewrite (Hslots 1%nat)];
    first [reflexivity | by vm_compute].
Defined.

(** ** The log under any run of appends *)

Section AppendOnly.

Variable TAGFS_LOG_MAGIC : Z.

Lemma tagfs_append_log_frame l e rc r :
  0 <= tagfs_log_next_index l <= tagfs_log_last_index l ->
  is_u64 (tagfs_log_last_index l) ->
  tagfs_append_log TAGFS_LOG_MAGIC (Some l) (Some e) = (rc, r) ->
  exists l1, r = Some l1 /\
    tagfs_log_next_index l <= tagfs_log_next_index l1 <= tagfs_log_last_index l1 /\
    tagfs_log_last_index l1 = tagfs_log_last_index l /\
    tagfs_log_magic l1 = tagfs_log_magic l /\
    length (entries l1) = length (entries l) /\
    forall j, (j < Z.to_nat (tagfs_log_next_index l))%nat ->
      entries l1 !! j = entries l !! j.
Proof.
  intros Hidx Hlast. unfold tagfs_append_log.
  case_bool_decide as Hmagic;
    [intros [= <- <-]; exists l; split; [done|]; split; [lia|done]|].
  case_bool_decide as Hge;
    [intros [= <- <-]; exists l; split; [done|]; split; [lia|done]|].
  intros [= <- <-]. eexists. split; [done|]. simpl.
  rewrite u64_small by (unfold is_u64 in *; lia).
  split; [lia|]. split; [done|]. split; [done|].
  split; [apply length_insert|].
  intros j Hj. apply list_lookup_insert_ne. lia.
Qed.

(** X20.  Appending never fills the log and never rewrites it.  After any
    run of [tagfs_append_log] calls, failed ones included, on a log with
    [next_index <= last_index], the log is still not full in the sense of
    [tagfs_log_full]; its magic, its [last_index] and its number of slots
    are as before; and every entry below the old [next_index] is
    untouched. *)
Theorem append_never_fills_log es : forall l rcs l',
  0 <= tagfs_log_next_index l <= tagfs_log_last_index l ->
  is_u64 (tagfs_log_last_index l) ->
  append_all TAGFS_LOG_MAGIC l es = (rcs, l') ->
  tagfs_log_full l' = false /\
  tagfs_log_next_index l <= tagfs_log_next_index l' /\
  tagfs_log_last_index l' = tagfs_log_last_index l /\
  tagfs_log_magic l' = tagfs_log_magic l /\
  length (entries l') = length (entries l) /\
  forall j, (j < Z.to_nat (tagfs_log_next_index l))%nat ->
    entries l' !! j = entries l !! j.
Proof.
  induction es as [|e es IH]; intros l rcs l' Hidx Hlast Hrun;
    cbn [append_all] in Hrun.
  - inversion Hrun; subst. split; [|done].
    unfold tagfs_log_full. apply bool_decide_eq_false. lia.
  - destruct (tagfs_append_log TAGFS_LOG_MAGIC (Some l) (Some e)) as [rc r] eqn:Hone.
    destruct (tagfs_append_log_frame l e rc r Hidx Hlast Hone)
      as (l1 & -> & Hidx1 & Hlast1 & Hmagic1 & Hlen1 & Hkeep1).
    destruct (append_all TAGFS_LOG_MAGIC l1 es) as [rcs1 lf] eqn:Hrest.
    inversion Hrun; subst rcs l'. clear Hrun.
    destruct (IH l1 rcs1 lf) as (Hfull & Hnext & Hlast' & Hmagic' & Hlen' & Hkeep');
      [lia | by rewrite Hlast1 | done |].
    split; [done|]. split; [lia|]. split; [congruence|]. split; [congruence|].
    split; [congruence|].
    intros j Hj. rewrite Hkeep' by lia. by apply Hkeep1.
Qed.

End AppendOnly.

Lemma append_never_fills_log_witness :
  exists rcs l',
    append_all sample_magic sample_empty_log
      [sample_mkdir_entry; sample_mkdir_entry; sample_mkdir_entry;
       sample_mkdir_entry; sample_mkdir_entry] = (rcs, l') /\
    tagfs_log_full l' = false /\ length (entries l') = 4%nat.
Proof.
  destruct (append_all sample_magic sample_empty_log
              [sample_mkdir_entry; sample_mkdir_entry; sample_mkdir_entry;
               sample_mkdir_entry; sample_mkdir_entry]) as [rcs l'] eqn:Hrun.
  exists rcs, l'. split; [reflexivity|].
  destruct (append_never_fills_log sample_magic
              [sample_mkdir_entry; sample_mkdir_entry; sample_mkdir_entry;
               sample_mkdir_entry; sample_mkdir_entry] sample_empty_log rcs l')
    as (Hfull & _ & _ & _ & Hlen & _);
    [by vm_compute | by vm_compute | exact Hrun |].
  split; [exact Hfull | exact Hlen].
Defined.

(** ** One allocation after another *)

Section SuccessiveAllocations.

Variable K : kernel.
Variable TAGFS_ALLOC_UNIT : Z.
Variable TAGFS_SUPERBLOCK_SIZE : Z.
Variable TAGFS_LOG_OFFSET : Z.
Variable TAGFS_LOG_LEN : Z.
Variable TAGFS_LOG_MAGIC : Z.
Variable TAGFS_FC_ALL_HOSTS_RW : Z.
Variable TAGFS_MAX_PATHLEN : Z.
Variable TAGFS_FC_MAX_EXTENTS : Z.

Local Abbreviation AU := TAGFS_ALLOC_UNIT.
Local Abbreviation alloc_bypath :=
  (tagfs_alloc_bypath TAGFS_ALLOC_UNIT TAGFS_SUPERBLOCK_SIZE TAGFS_LOG_OFFSET
     TAGFS_LOG_LEN).

Hypothesis AU_range : 0 < AU <= 2 ^ 32.

Lemma tagfs_alloc_bypath_positive logp dev size o :
  alloc_bypath logp dev size = Some o -> 0 < o -> 0 < size.
Proof.
  unfold tagfs_alloc_bypath. intros Halloc Hpos.
  destruct (size <=? 0) eqn:Hs; [|by apply Z.leb_gt in Hs].
  inversion Halloc. lia.
Qed.

(** X21.  Two files allocated one after the other share no byte.  When
    [tagfs_file_alloc] has succeeded for a file that the allocator placed at
    [o1], any later positive return [o2] of [tagfs_alloc_bypath] on the log
    it left is the start of a range, the request rounded up to whole units,
    that is disjoint from the range [o1 .. o1 + round_size_to_alloc_unit
    size) of the first file. *)
Theorem successive_allocations_disjoint env logp fd path mode uid gid size w
    logp' w' o1 dev2 size2 o2 :
  tagfs_file_alloc K TAGFS_ALLOC_UNIT TAGFS_SUPERBLOCK_SIZE TAGFS_LOG_OFFSET
    TAGFS_LOG_LEN TAGFS_LOG_MAGIC TAGFS_FC_ALL_HOSTS_RW TAGFS_MAX_PATHLEN
    TAGFS_FC_MAX_EXTENTS env logp fd path mode uid gid size w
    = Some ((0, logp'), w') ->
  alloc_bypath logp (ae_daxdevsize env) size = Some o1 -> 0 < o1 ->
  (size + AU - 1) / AU <= INT_MAX ->
  0 <= tagfs_log_next_index logp < 2 ^ 64 - 1 ->
  (Z.to_nat (tagfs_log_next_index logp) < length (entries logp))%nat ->
  alloc_bypath logp' dev2 size2 = Some o2 -> 0 < o2 ->
  (size2 + AU - 1) / AU <= INT_MAX ->
  forall y, o2 <= y < o2 + (size2 + AU - 1) / AU * AU ->
    ~ (o1 <= y < o1 + round_size_to_alloc_unit AU size).
Proof.
  intros Hrun Ho1 Hpos1 Hint1 Hidx Hcap Ho2 Hpos2 Hint2 y Hy Hin.
  pose proof (tagfs_alloc_bypath_positive _ _ _ _ Ho1 Hpos1) as Hsize1.
  pose proof (tagfs_alloc_bypath_positive _ _ _ _ Ho2 Hpos2) as Hsize2.
  (* the entry the first call logged *)
  unfold tagfs_file_alloc in Hrun.
  destruct (fd <=? 0); [done|].
  destruct (ae_lfd env <? 0) eqn:Hlfd.
  { apply Z.ltb_lt in Hlfd. inversion Hrun. lia. }
  destruct (ae_mmap_failed env); [by inversion Hrun|].
  destruct (tagfs_relpath_from_fullpath _ _) as [[relpath|]|];
    [|by inversion Hrun|done].
  rewrite Ho1 in Hrun. rewrite (proj2 (Z.ltb_ge o1 0)) in Hrun by lia.
  pose proof (tagfs_alloc_bypath_range _ _ _ _ _ _ _ _ Ho1) as Hhi.
  rewrite (u64_small o1) in Hrun by (unfold is_u64, u64_mod; lia).
  set (ext := mk_simple_extent o1 (round_size_to_alloc_unit AU size)) in *.
  destruct (tagfs_log_file_creation _ _ _ _ _ _ _ _ _ _ _ _) as [[rc l1]|] eqn:Hlog;
    [|done].
  destruct (Z.eqb_spec rc 0) as [->|Hrc]; simpl in Hrun;
    [|inversion Hrun; subst; done].
  apply bindM_Some in Hrun as (rc2 & w2 & _ & Hret).
  inversion Hret; subst rc2 l1 w2. clear Hret.
  pose proof (tagfs_log_file_creation_rc _ _ _ _ _ _ _ _ _ _ _ _ _ _ Hlog)
    as [[_ Hnext]|[Hne _]]; [|done].
  apply tagfs_log_file_creation_one in Hlog as (fc & Hent & _ & Hn & Hext).
  rewrite u64_small in Hnext by (unfold is_u64, u64_mod; lia).
  (* the second allocation avoids its units *)
  destruct (alloc_bypath_avoids_units AU TAGFS_SUPERBLOCK_SIZE TAGFS_LOG_OFFSET
              TAGFS_LOG_LEN AU_range logp' dev2 size2 o2
              (Z.to_nat (tagfs_log_next_index logp)) 0%nat
              (mk_log_entry (tagfs_log_next_seqnum logp) (TAGFS_LOG_FILE fc)) fc
              (mk_log_extent TAGFS_EXT_SIMPLE ext) Hsize2 Hint2 Ho2 Hpos2)
    as (Hmod & s2 & -> & Hs2 & _ & Hfree).
  { by rewrite Hent, list_lookup_insert_eq. }
  { lia. }
  { done. }
  { done. }
  { lia. }
  (* the first range in bytes *)
  destruct (tagfs_alloc_bypath_fit AU TAGFS_SUPERBLOCK_SIZE TAGFS_LOG_OFFSET
              TAGFS_LOG_LEN AU_range logp (ae_daxdevsize env) size o1
              Hsize1 Hint1 Ho1 Hpos1)
    as (br & s1 & Hbuild & Hs1 & (Hs10 & Hs11 & _)).
  destruct (tagfs_build_bitmap_marks _ _ _ _ _ _ _ Hbuild) as (Hsz & _).
  pose proof (Z.mul_succ_div_gt (size + AU - 1) AU ltac:(lia)) as Hup.
  destruct (round_size_to_alloc_unit_spec AU size) as [Hround _];
    [lia | lia | unfold u64_mod, INT_MAX in *; nia |].
  apply (Hfree (y / AU)).
  - split.
    + apply Z.div_le_lower_bound; lia.
    + apply Z.div_lt_upper_bound; lia.
  - apply (extent_units_of_byte AU AU_range); simpl; [done|lia| |done].
    unfold INT_MAX in *. nia.
Qed.

End SuccessiveAllocations.

Lemma successive_allocations_disjoint_witness :
  exists logp' w',
    sample_file_alloc GiB (3 * MiB) = Some (0, logp', w') /\
    tagfs_alloc_bypath sample_alloc_unit sample_superblock_size sample_log_offset
      sample_log_len logp' GiB (3 * MiB) = Some (14 * MiB) /\
    forall y, 14 * MiB <= y < 14 * MiB + 4 * MiB ->
      ~ (10 * MiB <= y
           < 10 * MiB + round_size_to_alloc_unit sample_alloc_unit (3 * MiB)).
Proof.
  assert (exists logp' w',
            sample_file_alloc GiB (3 * MiB) = Some (0, logp', w') /\
            tagfs_alloc_bypath sample_alloc_unit sample_superblock_size
              sample_log_offset sample_log_len logp' GiB (3 * MiB)
            = Some (14 * MiB)) as (logp' & w' & Hrun & Hsecond).
  { eexists _, _. split; [vm_compute; reflexivity|]. vm_compute. reflexivity. }
  exists logp', w'. split; [exact Hrun|]. split; [exact Hsecond|].
  apply (successive_allocations_disjoint sample_kernel sample_alloc_unit
           sample_superblock_size sample_log_offset sample_log_len sample_magic
           sample_flags sample_max_pathlen sample_max_extents
           ltac:(unfold sample_alloc_unit; lia)
           (sample_env GiB) sample_empty_log 5 "/mnt/tagfs/foo" 420 1000 1000
           (3 * MiB) empty_world logp' w' (10 * MiB) GiB (3 * MiB) (14 * MiB));
    [exact Hrun | by vm_compute | by vm_compute | by vm_compute | by vm_compute
    | vm_compute; lia | exact Hsecond | by vm_compute | by vm_compute].
Defined.
